(** * android-translations: the aggregation and staleness engine of main.go

    A shallow embedding of [src/main.go] (the current program, lines 1-469;
    the earlier revision that follows it there is not modelled) and the
    properties of its specification.

    Conventions.
    - A Go [string] is a sequence of bytes: Rocq's [string], whose [ascii]
      characters are the 256 byte values.
    - A Go [int] that holds a length or a line number is a [Z]; such values
      are bounded by the size of a string held in memory, far below 2^63,
      so no wrap-around is written for them.
    - A Go [map] is a [gmap]. Go leaves the order of [range] over a map
      unspecified (the runtime randomises it), so every such loop takes
      the order of its iteration as an explicit argument.
    - The outside world (file system, XML decoder, git, the wall clock,
      path manipulation of [path/filepath], Unicode tables) is the class
      [Env], which every function that touches it takes implicitly. *)

From Stdlib Require Import ZArith Ascii DecimalString.
From stdpp Require Import gmap strings list fin_maps sorting.

Local Open Scope Z_scope.

(** stdpp freezes [String.append] under [simpl]; the proofs below unfold it. *)
#[local] Arguments String.append !_ _ : simpl nomatch.

(** ** Byte strings *)

Definition byteZ (c : ascii) : Z := Z.of_N (N_of_ascii c).

(** [len(s)] *)
Definition len (s : string) : Z := Z.of_nat (String.length s).

(** [s[:n]] and [s[n:]]. Go panics when [n > len(s)]; every use below is
    in range, where these agree with Go. *)
Fixpoint str_take (n : nat) (s : string) : string :=
  match n, s with
  | S k, String c s' => String c (str_take k s')
  | _, _ => EmptyString
  end.

Fixpoint str_drop (n : nat) (s : string) : string :=
  match n, s with
  | S k, String _ s' => str_drop k s'
  | _, _ => s
  end.

Definition newline : ascii := "010"%char.

(** ** Package unicode/utf8 *)
Module utf8.

Definition RuneSelf : Z := 0x80.
Definition locb : Z := 0x80.
Definition hicb : Z := 0xBF.

(** The tables [first] and [acceptRanges]: for a leading byte of a
    multi-byte sequence, the length of the sequence and the range of the
    second byte; [None] for an ASCII byte ([as]) and for a byte that
    starts no sequence ([xx]), which both decode with width 1. *)
Definition first (c : ascii) : option (nat * (Z * Z)) :=
  let b := byteZ c in
  if b <? 0xC2 then None
  else if b <? 0xE0 then Some (2%nat, (locb, hicb))
  else if b =? 0xE0 then Some (3%nat, (0xA0, hicb))
  else if b <? 0xED then Some (3%nat, (locb, hicb))
  else if b =? 0xED then Some (3%nat, (locb, 0x9F))
  else if b <? 0xF0 then Some (3%nat, (locb, hicb))
  else if b =? 0xF0 then Some (4%nat, (0x90, hicb))
  else if b <? 0xF4 then Some (4%nat, (locb, hicb))
  else if b =? 0xF4 then Some (4%nat, (locb, 0x8F))
  else None.

Definition outside (lo hi : Z) (c : ascii) : bool :=
  (byteZ c <? lo) || (hi <? byteZ c).

(** The width returned by [DecodeRuneInString]: 0 for the empty string,
    1 for ASCII and for every ill-formed sequence, else 2, 3 or 4. *)
Definition DecodeRuneInString_size (s : string) : nat :=
  match s with
  | EmptyString => 0
  | String s0 rest =>
      match first s0 with
      | None => 1
      | Some (sz, (lo, hi)) =>
          if (String.length s <? sz)%nat then 1 else
          match rest with
          | EmptyString => 1
          | String s1 rest1 =>
              if outside lo hi s1 then 1
              else if (sz <=? 2)%nat then 2
              else match rest1 with
                   | EmptyString => 1
                   | String s2 rest2 =>
                       if outside locb hicb s2 then 1
                       else if (sz <=? 3)%nat then 3
                       else match rest2 with
                            | EmptyString => 1
                            | String s3 _ =>
                                if outside locb hicb s3 then 1 else 4
                            end
                   end
          end
      end
  end%nat.

(** [for i := 0; i < ns; n++ { ... i += size }]: one turn per rune. The
    fuel is [len(s)]; a turn consumes at least one byte. *)
Fixpoint runeCountLoop (fuel : nat) (s : string) (n : Z) : Z :=
  match fuel with
  | O => n
  | S fuel' =>
      match s with
      | EmptyString => n
      | _ => runeCountLoop fuel' (str_drop (DecodeRuneInString_size s) s) (n + 1)
      end
  end.

Definition RuneCountInString (s : string) : Z :=
  runeCountLoop (String.length s) s 0.

End utf8.

(** ** Package strings *)
Module strings.

(** [HasPrefix(s, prefix)] *)
Fixpoint HasPrefix (s prefix : string) {struct prefix} : bool :=
  match prefix, s with
  | EmptyString, _ => true
  | String p prefix', String c s' =>
      if Ascii.eqb c p then HasPrefix s' prefix' else false
  | String _ _, EmptyString => false
  end.

(** [Index(s, substr)]: the index of the first instance of [substr] in
    [s], or -1. *)
Fixpoint indexNat (s substr : string) : option nat :=
  if HasPrefix s substr then Some O
  else match s with
       | EmptyString => None
       | String _ s' => S <$> indexNat s' substr
       end.

Definition Index (s substr : string) : Z :=
  match indexNat s substr with
  | Some i => Z.of_nat i
  | None => -1
  end.

(** [bytealg.CountString(s, c)] *)
Fixpoint CountString (s : string) (c : ascii) : Z :=
  match s with
  | EmptyString => 0
  | String x s' => (if Ascii.eqb x c then 1 else 0) + CountString s' c
  end.

(** The loop of [Count] for a separator of two bytes or more:
    [for { i := Index(s, substr); if i == -1 { return n }; n++;
           s = s[i+len(substr):] }].
    The fuel is [len(s)]: a turn that finds a match consumes at least
    one byte, and the empty string has no match. *)
Fixpoint countLoop (fuel : nat) (s substr : string) (n : Z) : Z :=
  match fuel with
  | O => n
  | S fuel' =>
      match indexNat s substr with
      | None => n
      | Some i =>
          countLoop fuel' (str_drop (i + String.length substr) s) substr (n + 1)
      end
  end.

(** [Count(s, substr)]: the number of non-overlapping instances. *)
Definition Count (s substr : string) : Z :=
  match substr with
  | EmptyString => utf8.RuneCountInString s + 1
  | String c EmptyString => CountString s c
  | _ => countLoop (String.length s) s substr 0
  end.

(** [explode(s, n)]: [s] cut into its UTF-8 sequences, at most [n].
    (Older releases of the library put U+FFFD in place of a byte that
    starts no sequence; neither that byte nor U+FFFD is a newline.) *)
Fixpoint explodeLoop (k : nat) (s : string) : list string :=
  match k with
  | O => [s]
  | S k' =>
      let size := utf8.DecodeRuneInString_size s in
      str_take size s :: explodeLoop k' (str_drop size s)
  end.

Definition explode (s : string) (n : Z) : list string :=
  let l := utf8.RuneCountInString s in
  let n := if (n <? 0) || (l <? n) then l else n in
  if n <=? 0 then [] else explodeLoop (Z.to_nat (n - 1)) s.

(** The loop of [genSplit]: [for i < n { m := Index(s, sep); if m < 0
    { break }; a[i] = s[:m+sepSave]; s = s[m+len(sep):]; i++ };
    a[i] = s; return a[:i+1]]. *)
Fixpoint splitLoop (n : nat) (s sep : string) (sepSave : nat) : list string :=
  match n with
  | O => [s]
  | S n' =>
      match indexNat s sep with
      | None => [s]
      | Some m =>
          str_take (m + sepSave) s
            :: splitLoop n' (str_drop (m + String.length sep) s) sep sepSave
      end
  end.

Definition genSplit (s sep : string) (sepSave : nat) (n : Z) : list string :=
  if n =? 0 then []
  else match sep with
       | EmptyString => explode s n
       | _ =>
           let n := if n <? 0 then Count s sep + 1 else n in
           let n := if len s + 1 <? n then len s + 1 else n in
           splitLoop (Z.to_nat (n - 1)) s sep sepSave
       end.

Definition Split (s sep : string) : list string := genSplit s sep 0 (-1).
Definition SplitN (s sep : string) (n : Z) : list string := genSplit s sep 0 n.

End strings.

(** [strings.EqualFold]. The loop over bytes is the ASCII fast path of the
    library; once a byte of either string is not ASCII the library goes
    on ([goto hasUnicode]) with the simple case folding of the Unicode
    tables on the remaining input, which is the parameter
    [foldUnicode]. *)
Section Fold.
Variable foldUnicode : string → string → bool.

Fixpoint EqualFold (s t : string) : bool :=
  match s, t with
  | String sr s', String tr t' =>
      if utf8.RuneSelf <=? Z.lor (byteZ sr) (byteZ tr) then foldUnicode s t
      else if byteZ tr =? byteZ sr then EqualFold s' t'
      else
        let lo := Z.min (byteZ sr) (byteZ tr) in
        let hi := Z.max (byteZ sr) (byteZ tr) in
        if (byteZ "A" <=? lo) && (lo <=? byteZ "Z")
           && (hi =? lo + byteZ "a" - byteZ "A")
        then EqualFold s' t'
        else false
  | EmptyString, EmptyString => true
  | _, _ => false
  end.
End Fold.

(** ** Package strconv *)
Module strconv.

Inductive NumError := ErrSyntax | ErrRange.

Definition maxUint64 : Z := 2 ^ 64 - 1.

(** The digit loop of [ParseUint(s, 10, 64)]. *)
Fixpoint parseUintLoop (s : string) (n : Z) : NumError + Z :=
  match s with
  | EmptyString => inr n
  | String c s' =>
      let d := byteZ c - byteZ "0" in
      if (0 <=? d) && (d <=? 9) then
        if maxUint64 / 10 + 1 <=? n then inl ErrRange
        else
          let n1 := n * 10 + d in
          if maxUint64 <? n1 then inl ErrRange else parseUintLoop s' n1
      else inl ErrSyntax
  end.

Definition ParseUint10 (s : string) : NumError + Z :=
  match s with
  | EmptyString => inl ErrSyntax
  | _ => parseUintLoop s 0
  end.

(** [ParseInt(s, 10, 64)] *)
Definition ParseInt10 (s : string) : NumError + Z :=
  match s with
  | EmptyString => inl ErrSyntax
  | String s0 rest =>
      let neg := Ascii.eqb s0 "-" in
      let digits := if Ascii.eqb s0 "+" || neg then rest else s in
      match ParseUint10 digits with
      | inl e => inl e
      | inr un =>
          let cutoff := 2 ^ 63 in
          if negb neg && (cutoff <=? un) then inl ErrRange
          else if neg && (cutoff <? un) then inl ErrRange
          else inr (if neg then - un else un)
      end
  end.

(** [%d] of [fmt.Sprintf] *)
Definition Itoa (i : Z) : string := NilEmpty.string_of_int (Z.to_int i).

End strconv.

(** ** Package time

    A [time.Time] is an instant, counted in nanoseconds since the Unix
    epoch; [Before] compares instants. (The monotonic reading that
    [time.Now] adds orders two values of [time.Now] as their instants
    do.) *)
Definition Time := Z.

Module time.

(** The seconds from year 1 to the Unix epoch. *)
Definition unixToInternal : Z := 62135596800.

(** The value that an [int64] keeps of an integer. *)
Definition wrap64 (z : Z) : Z := (z + 2 ^ 63) mod 2 ^ 64 - 2 ^ 63.

(** [time.Unix(sec, nsec)]: the nanoseconds are brought into the range
    from 0 to 10^9 - 1, their seconds added to [sec], and the seconds
    are kept counted from year 1, in an [int64], which wraps. *)
Definition Unix (sec nsec : Z) : Time :=
  let ext := wrap64 (sec + nsec / 1000000000 + unixToInternal) in
  (ext - unixToInternal) * 1000000000 + nsec mod 1000000000.

Definition Before (t u : Time) : bool := t <? u.

End time.

(** ** Data model of main.go *)

Record xmlTranslatable := { Translatable : string }.

(** [xmlStringResource]; the embedded [xmlTranslatable] is the last field. *)
Record xmlStringResource := {
  Name : string;
  Value : string;
  LastModified : Time;
  str_xmlTranslatable : xmlTranslatable
}.

(** [xmlStringArrayResource], with fields [Name], [Items] and the embedded
    [xmlTranslatable]. *)
Record xmlStringArrayResource := {
  arr_Name : string;
  Items : list xmlStringResource;
  arr_xmlTranslatable : xmlTranslatable
}.

Record xmlStringResources := {
  Strings : list xmlStringResource;
  StringArrays : list xmlStringArrayResource
}.

(** [localeStringsMap]: locale => string name => resource. *)
Abbreviation localeStringsMap := (gmap string (gmap string xmlStringResource)).

(** [stringResource], with fields [Name], [Value], [MissingLocales] and
    [OutdatedLocales]. *)
Record stringResource := {
  res_Name : string;
  res_Value : string;
  MissingLocales : list string;
  OutdatedLocales : list string
}.

Definition defaultLocale : string := "default".

(** [stringResources.Less], on the elements themselves. *)
Definition Less (a b : stringResource) : bool :=
  String.ltb (res_Name a) (res_Name b).

(** [sort.Sort(stringResources(report))]: the insertion sort of package
    sort, driven by [Less]. The library promises a permutation that is
    ascending for [Less] and no stability; the names of a report are
    pairwise different, so that permutation is unique. *)
Fixpoint insertSorted (x : stringResource) (l : list stringResource) : list stringResource :=
  match l with
  | [] => [x]
  | y :: l' => if Less x y then x :: y :: l' else y :: insertSorted x l'
  end.

Definition sort_Sort (l : list stringResource) : list stringResource :=
  fold_left (λ acc x, insertSorted x acc) l [].

(** Errors of the program, by the message that builds them. *)
Inductive cause :=
  | RunFailed                      (* cmd.Run returned an error *)
  | BadTimestamp (e : strconv.NumError) (timestampStr : string).

Inductive error :=
  | errNotFound (searchTerm : string)
      (* "searchTerm: %q is not found" *)
  | errLastModified (file : string) (start count : Z) (c : cause)
      (* "unable to find last modified time, file: %q, start: %d, count: %d" *)
  | errReadFile (file : string)
      (* "unable to read file at %s" *)
  | errParseXML (file : string)
      (* "unable to parse XML file at %s" *)
  | errNoDefaultLocale
      (* "unable to find string resources for default locale" *)
  | panicNilMap.
      (* runtime panic: assignment to entry in nil map *)

(** ** getLineRange (main.go, 459-469) *)
Definition getLineRange (fileContent searchTerm : string) : error + (Z * Z) :=
  let chunks := strings.Split fileContent searchTerm in
  match chunks with
  | chunk0 :: _ :: _ =>
      let start := 1 + strings.Count chunk0 (String newline EmptyString) in
      let count := 1 + strings.Count searchTerm (String newline EmptyString) in
      inr (start, count)
  | _ => inl (errNotFound searchTerm)
  end.

(** ** Effects: standard error and the wall clock

    [stderr] holds the errors printed so far by
    [fmt.Fprintln(os.Stderr, "warning:", err)], oldest first; [ticks]
    counts the calls of [time.Now] made so far. *)
Record world := { stderr : list error; ticks : nat }.

Definition M (A : Type) : Type := world → (error + A) * world.

Definition ret {A} (a : A) : M A := λ w, (inr a, w).
Definition throw {A} (e : error) : M A := λ w, (inl e, w).
Definition bind {A B} (m : M A) (k : A → M B) : M B :=
  λ w, match m w with
       | (inr a, w') => k a w'
       | (inl e, w') => (inl e, w')
       end.

Notation "x <- m ;; k" := (bind m (λ x, k))
  (at level 100, m at next level, right associativity).
Notation "m ;;; k" := (bind m (λ _, k))
  (at level 100, right associativity).

Definition warn (e : error) : M unit :=
  λ w, (inr tt, {| stderr := stderr w ++ [e]; ticks := ticks w |}).

(** [for _, x := range l { s = f(s, x) }] over a slice, with early exit
    on an error. *)
Fixpoint foldM {A St} (f : St → A → M St) (l : list A) (s : St) : M St :=
  match l with
  | [] => ret s
  | x :: l' => s' <- f s x ;; foldM f l' s'
  end.

(** [for i, x := range l { ... }], [i] counted from [i0]. *)
Fixpoint foldMi {A St} (f : St → nat → A → M St) (i0 : nat) (l : list A) (s : St)
    : M St :=
  match l with
  | [] => ret s
  | x :: l' => s' <- f s i0 x ;; foldMi f (S i0) l' s'
  end.

Definition withLastModified (str : xmlStringResource) (t : Time) : xmlStringResource :=
  {| Name := Name str; Value := Value str; LastModified := t;
     str_xmlTranslatable := str_xmlTranslatable str |}.

Definition withName (str : xmlStringResource) (n : string) : xmlStringResource :=
  {| Name := n; Value := Value str; LastModified := LastModified str;
     str_xmlTranslatable := str_xmlTranslatable str |}.

(** [m[locale][name] = str]; a missing [m[locale]] is the nil map, and an
    assignment to an entry of the nil map panics. *)
Definition assignEntry (m : localeStringsMap) (locale name : string)
    (str : xmlStringResource) : M localeStringsMap :=
  match m !! locale with
  | Some inner => ret (<[locale := <[name := str]> inner]> m)
  | None => throw panicNilMap
  end.

(** [m[locale][name]] with its [ok]: reading the nil map finds nothing. *)
Definition lookupEntry (m : localeStringsMap) (locale name : string)
    : option xmlStringResource :=
  m !! locale ≫= (λ inner, inner !! name).

(** The order in which the runtime walks the maps of [main]: [outer] for
    [range defaultStrings], as (key, value) pairs, and [inner k] for the
    [range localeStrings] run while the outer loop is at key [k]. *)
Record schedule := {
  outer : list (string * xmlStringResource);
  inner : string → list string
}.

Definition valid_schedule (localeStrings : localeStringsMap)
    (defaultStrings : gmap string xmlStringResource) (sch : schedule) : Prop :=
  outer sch ≡ₚ map_to_list defaultStrings
  ∧ ∀ k, inner sch k ≡ₚ (map_to_list localeStrings).*1.

(** The outside world of one run of the program. *)
Class Env := {
  (** The slow path of [strings.EqualFold] (Unicode case folding). *)
  equalFoldUnicode : string → string → bool;
  (** [strings.TrimSpace] *)
  TrimSpace : string → string;
  (** [filepath.Base] and [filepath.Dir] *)
  Base : string → string;
  Dir : string → string;
  (** [ioutil.ReadFile]; [None] when it returns an error. *)
  ReadFile : string → option string;
  (** [xml.Unmarshal(content, &xmlStringResources{})]; [None] when it
      returns an error. *)
  Unmarshal : string → option xmlStringResources;
  (** [exec.Command("sh", "-c", command)] run in directory [dir]: the
      standard output of [sh dir command], or [None] when [cmd.Run]
      returns an error. *)
  sh : string → string → option string;
  (** The value of the [n]-th call of [time.Now]. *)
  clock : nat → Time
}.

Section Program.
Context `{!Env}.

Definition Now : M Time :=
  λ w, (inr (clock (ticks w)), {| stderr := stderr w; ticks := S (ticks w) |}).

(** main.go, 35-37 *)
Definition IsTranslatable (res : xmlTranslatable) : bool :=
  negb (EqualFold equalFoldUnicode "false" (Translatable res)).

(** main.go, 305-317 *)
Definition getLocaleForValuesFile (path : string) : string :=
  let parent := Base (Dir path) in
  if EqualFold equalFoldUnicode parent "values" then defaultLocale
  else
    let split := strings.SplitN parent "-" 2 in
    match split with
    | _ :: s1 :: _ => s1
    | _ => defaultLocale
    end.

(** The loop over the lines of the output in [getLastModifiedTime]. *)
Fixpoint latestLoop (file : string) (lineStart lineCount : Z)
    (lines : list string) (latestTimestamp : Z) : error + Z :=
  match lines with
  | [] => inr latestTimestamp
  | timestampStr :: rest =>
      match strconv.ParseInt10 timestampStr with
      | inl e =>
          inl (errLastModified file lineStart lineCount (BadTimestamp e timestampStr))
      | inr timestamp =>
          latestLoop file lineStart lineCount rest
            (if latestTimestamp <? timestamp then timestamp else latestTimestamp)
      end
  end.

(** main.go, 422-451 *)
Definition getLastModifiedTime (file : string) (lineStart lineCount : Z)
    : error + Time :=
  let command :=
    "git blame -p -L " +:+ strconv.Itoa lineStart +:+ ",+"
      +:+ strconv.Itoa lineCount +:+ " " +:+ Base file
      +:+ " | grep committer-time | awk '{ print $2 }'" in
  match sh (Dir file) command with
  | None => inl (errLastModified file lineStart lineCount RunFailed)
  | Some stdout =>
      let output := TrimSpace stdout in
      match latestLoop file lineStart lineCount
              (strings.Split output (String newline EmptyString)) 0 with
      | inl e => inl e
      | inr latestTimestamp => inr (time.Unix latestTimestamp 0)
      end
  end.

(** [start, count, err := getLineRange(content, v); if err == nil
    { t, err = getLastModifiedTime(file, start, count) }] *)
Definition provenance (file content v : string) : error + Time :=
  match getLineRange content v with
  | inl e => inl e
  | inr (start, count) => getLastModifiedTime file start count
  end.

(** The body of [for _, str := range resources.Strings] (260-276). *)
Definition stringBody (file content locale : string)
    (strResources : localeStringsMap) (str : xmlStringResource)
    : M localeStringsMap :=
  if negb (IsTranslatable (str_xmlTranslatable str)) then ret strResources
  else
    str <- match provenance file content (Value str) with
           | inr t => ret (withLastModified str t)
           | inl e => warn e ;;; (t <- Now ;; ret (withLastModified str t))
           end ;;
    assignEntry strResources locale (Name str) str.

(** The body of [for i, strArrItem := range strArr.Items] (283-296). *)
Definition itemBody (file content locale : string) (strArr : xmlStringArrayResource)
    (strResources : localeStringsMap) (i : nat) (strArrItem : xmlStringResource)
    : M localeStringsMap :=
  let strArrItem :=
    withName strArrItem
      (arr_Name strArr +:+ "[" +:+ strconv.Itoa (Z.of_nat i) +:+ "]") in
  strArrItem <- match provenance file content (Value strArrItem) with
                | inr t => ret (withLastModified strArrItem t)
                | inl e =>
                    warn e ;;; (t <- Now ;; ret (withLastModified strArrItem t))
                end ;;
  assignEntry strResources locale (Name strArrItem) strArrItem.

(** The body of [for _, strArr := range resources.StringArrays] (278-297). *)
Definition arrayBody (file content locale : string)
    (strResources : localeStringsMap) (strArr : xmlStringArrayResource)
    : M localeStringsMap :=
  if negb (IsTranslatable (arr_xmlTranslatable strArr)) then ret strResources
  else foldMi (itemBody file content locale strArr) 0 (Items strArr) strResources.

(** The body of [for _, file := range files] (242-298). *)
Definition fileBody (strResources : localeStringsMap) (file : string)
    : M localeStringsMap :=
  match ReadFile file with
  | None => throw (errReadFile file)
  | Some content =>
      match Unmarshal content with
      | None => throw (errParseXML file)
      | Some resources =>
          let locale := getLocaleForValuesFile file in
          let strResCount :=
            (length (Strings resources) + length (StringArrays resources))%nat in
          let strResources :=
            match strResources !! locale with
            | None => if (0 <? strResCount)%nat
                      then <[locale := ∅]> strResources else strResources
            | Some _ => strResources
            end in
          strResources <- foldM (stringBody file content locale)
                            (Strings resources) strResources ;;
          foldM (arrayBody file content locale)
            (StringArrays resources) strResources
      end
  end.

(** main.go, 240-301 *)
Definition findTranslatableStrings (files : list string) : M localeStringsMap :=
  foldM fileBody files ∅.

(** The body of [for locale := range localeStrings] (151-157). *)
Definition localeBody (localeStrings : localeStringsMap) (str : xmlStringResource)
    (strResource : stringResource) (locale : string) : stringResource :=
  match lookupEntry localeStrings locale (Name str) with
  | None =>
      {| res_Name := res_Name strResource; res_Value := res_Value strResource;
         MissingLocales := MissingLocales strResource ++ [locale];
         OutdatedLocales := OutdatedLocales strResource |}
  | Some localeStr =>
      if time.Before (LastModified localeStr) (LastModified str) then
        {| res_Name := res_Name strResource; res_Value := res_Value strResource;
           MissingLocales := MissingLocales strResource;
           OutdatedLocales := OutdatedLocales strResource ++ [locale] |}
      else strResource
  end.

(** [strResource] at line 159, for the canonical entry [str] and the
    locales walked in the order [locales]. *)
Definition strResourceOf (localeStrings : localeStringsMap)
    (locales : list string) (str : xmlStringResource) : stringResource :=
  fold_left (localeBody localeStrings str) locales
    {| res_Name := Name str; res_Value := TrimSpace (Value str);
       MissingLocales := []; OutdatedLocales := [] |}.

(** The body of [for _, str := range defaultStrings] (143-162). *)
Definition reportBody (localeStrings : localeStringsMap) (sch : schedule)
    (report : list stringResource) (kv : string * xmlStringResource)
    : list stringResource :=
  let strResource := strResourceOf localeStrings (inner sch kv.1) kv.2 in
  if (0 <? length (MissingLocales strResource)
            + length (OutdatedLocales strResource))%nat
  then report ++ [strResource]
  else report.

(** main.go, 137-164: from the locale index to the sorted report. *)
Definition mainReport (localeStrings : localeStringsMap) (sch : schedule)
    : error + list stringResource :=
  match localeStrings !! defaultLocale with
  | None => inl errNoDefaultLocale
  | Some defaultStrings =>
      let report := fold_left (reportBody localeStrings sch) (outer sch) [] in
      inr (sort_Sort report)
  end.

End Program.

(** ** Notions of the specification *)

(** The number of newline characters of a text. *)
Fixpoint newlines (s : string) : Z :=
  match s with
  | EmptyString => 0
  | String c s' => if Ascii.eqb c newline then 1 + newlines s' else newlines s'
  end.

(** [term] occurs in [s] between [pre] and [post]. *)
Definition occurrence (term s pre post : string) : Prop :=
  s = pre +:+ term +:+ post.

(** ... and no occurrence of [term] in [s] starts earlier. *)
Definition first_occurrence (term s pre post : string) : Prop :=
  occurrence term s pre post
  ∧ ∀ pre' post', occurrence term s pre' post' →
      (String.length pre ≤ String.length pre')%nat.

(** The first character of a text: its first UTF-8 sequence, or its first
    byte where that byte starts no well-formed sequence. *)
Definition firstCharacter (s : string) : string :=
  str_take (utf8.DecodeRuneInString_size s) s.

(** The text of a line span, as a line-oriented tool selects it: lines are
    separated by newline characters and numbered from 1; the span starts
    at line [start] and has [count] lines; the newline that ends its last
    line is left out. *)
Fixpoint skipLines (n : nat) (s : string) : string :=
  match n with
  | O => s
  | S n' =>
      match s with
      | EmptyString => EmptyString
      | String c s' => if Ascii.eqb c newline then skipLines n' s' else skipLines n s'
      end
  end.

Fixpoint takeLines (n : nat) (s : string) : string :=
  match s with
  | EmptyString => EmptyString
  | String c s' =>
      if Ascii.eqb c newline then
        match n with
        | O | S O => EmptyString
        | S n' => String c (takeLines n' s')
        end
      else
        match n with
        | O => EmptyString
        | _ => String c (takeLines n s')
        end
  end.

Definition extractLines (s : string) (start count : Z) : string :=
  takeLines (Z.to_nat count) (skipLines (Z.to_nat (start - 1)) s).

(** The text of [pre] after its last newline: what the line in which an
    occurrence starts holds before the occurrence. *)
Definition lineTail (pre : string) : string :=
  skipLines (Z.to_nat (newlines pre)) pre.

(** The text of [post] before its first newline: what the line in which
    an occurrence ends holds after the occurrence. *)
Definition lineHead (post : string) : string := takeLines 1 post.

(** An occurrence between [pre] and [post] starts at the start of a
    line; it ends at the end of a line. *)
Definition startsLine (pre : string) : Prop :=
  pre = "" ∨ ∃ p, pre = p +:+ String newline EmptyString.

Definition endsLine (post : string) : Prop :=
  post = "" ∨ ∃ q, post = String newline q.

(** The occurrence of [searchTerm] at which [getLineRange] cuts the
    content: the first one of a [searchTerm] that is not empty; for the
    empty [searchTerm], for which [Split] cuts after every character,
    the place after the first character. *)
Definition cutAt (searchTerm fileContent pre post : string) : Prop :=
  (searchTerm ≠ "" → first_occurrence searchTerm fileContent pre post)
  ∧ (searchTerm = "" →
       pre = firstCharacter fileContent ∧ fileContent = pre +:+ post).

(** The verdict of lines 152-156 on one locale, for the canonical entry
    [str]: the locale has no entry of that name; the locale has one, last
    modified strictly before [str]. *)
Definition isMissing (localeStrings : localeStringsMap) (str : xmlStringResource)
    (locale : string) : bool :=
  match lookupEntry localeStrings locale (Name str) with
  | None => true
  | Some _ => false
  end.

Definition isOutdated (localeStrings : localeStringsMap) (str : xmlStringResource)
    (locale : string) : bool :=
  match lookupEntry localeStrings locale (Name str) with
  | None => false
  | Some localeStr => time.Before (LastModified localeStr) (LastModified str)
  end.

(** A record with a locale in one of its two lists. *)
Definition flagged (r : stringResource) : Prop :=
  MissingLocales r ≠ [] ∨ OutdatedLocales r ≠ [].

(** Ascending order of names: Go's [<=] on strings, byte by byte. *)
Definition nameLe (a b : stringResource) : Prop :=
  String.le (res_Name a) (res_Name b).

(** Two records that differ at most in the order of their lists of
    locales. *)
Definition sameRecord (a b : stringResource) : Prop :=
  res_Name a = res_Name b ∧ res_Value a = res_Value b
  ∧ MissingLocales a ≡ₚ MissingLocales b
  ∧ OutdatedLocales a ≡ₚ OutdatedLocales b.

(** Every entry of a locale is stored under its own name, as
    [findTranslatableStrings] stores it. *)
Definition keyedByName (m : gmap string xmlStringResource) : Prop :=
  ∀ k e, m !! k = Some e → Name e = k.

#[global] Instance flagged_dec r : Decision (flagged r).
Proof. unfold flagged. apply _. Defined.

(** The record that the outer loop of [main] builds at the pair [kv] of
    the canonical locale. *)
Definition recordOf `{!Env} (localeStrings : localeStringsMap) (sch : schedule)
    (kv : string * xmlStringResource) : stringResource :=
  strResourceOf localeStrings (inner sch kv.1) kv.2.

(** The name that line 284 gives to item [i] of a collection. *)
Definition itemName (strArr : xmlStringArrayResource) (i : nat) : string :=
  arr_Name strArr +:+ "[" +:+ strconv.Itoa (Z.of_nat i) +:+ "]".

(** Where an entry of the index comes from: a flat string of a catalog
    among [files], translatable, stored under its name in the locale of
    the catalog; or item [i] of a translatable collection of such a
    catalog, stored under the name made for it. Either way the entry is
    the parsed one, with a timestamp. *)
Inductive fromCatalog `{!Env} (files : list string)
    : string → string → xmlStringResource → Prop :=
  | from_string file content resources str t :
      file ∈ files → ReadFile file = Some content →
      Unmarshal content = Some resources →
      str ∈ Strings resources →
      IsTranslatable (str_xmlTranslatable str) = true →
      fromCatalog files (getLocaleForValuesFile file) (Name str)
        (withLastModified str t)
  | from_item file content resources strArr i item t :
      file ∈ files → ReadFile file = Some content →
      Unmarshal content = Some resources →
      strArr ∈ StringArrays resources →
      IsTranslatable (arr_xmlTranslatable strArr) = true →
      Items strArr !! i = Some item →
      fromCatalog files (getLocaleForValuesFile file) (itemName strArr i)
        (withLastModified (withName item (itemName strArr i)) t).

(** Every entry of the index comes from a catalog among [files]. *)
Definition allFromCatalog `{!Env} (files : list string)
    (strResources : localeStringsMap) : Prop :=
  ∀ locale entries k e,
    strResources !! locale = Some entries → entries !! k = Some e →
    fromCatalog files locale k e.

(** The state of the world after a warning and a reading of the clock. *)
Definition afterFallback (e : error) (w : world) : world :=
  {| stderr := stderr w ++ [e]; ticks := S (ticks w) |}.

(** An element of one of the catalogs [files] that the loops of
    [findTranslatableStrings] take up: a flat string that is
    translatable, or an item of a translatable collection, under the
    name that line 284 makes for it. [element files file content el]
    holds for such an element [el] of the catalog [file], whose text is
    [content]. *)
Inductive element `{!Env} (files : list string)
    : string → string → xmlStringResource → Prop :=
  | element_string file content resources str :
      file ∈ files → ReadFile file = Some content →
      Unmarshal content = Some resources →
      str ∈ Strings resources →
      IsTranslatable (str_xmlTranslatable str) = true →
      element files file content str
  | element_item file content resources strArr i item :
      file ∈ files → ReadFile file = Some content →
      Unmarshal content = Some resources →
      strArr ∈ StringArrays resources →
      IsTranslatable (arr_xmlTranslatable strArr) = true →
      Items strArr !! i = Some item →
      element files file content (withName item (itemName strArr i)).

(** How a run that started in the world [w] and has printed the
    warnings [ws] since has dated the entry that it made of the element
    [el] of [file]: by the history, where the provenance of [el] is
    found; otherwise by the clock, at the reading that goes with one of
    the warnings for the error of that provenance. *)
Definition datedBy `{!Env} (w : world) (ws : list error) (file content : string)
    (el entry : xmlStringResource) : Prop :=
  match provenance file content (Value el) with
  | inr t => entry = withLastModified el t
  | inl e =>
      ∃ n, ws !! n = Some e
           ∧ entry = withLastModified el (clock (ticks w + n))
  end.

(** The state [m], [w] of a run that started in the world [w0]: warnings
    were printed and the clock was read once for each, and every entry
    of [m] is made of an element of a catalog of its locale, stored
    under its name and dated as [datedBy] says. *)
Definition allDated `{!Env} (files : list string) (w0 : world)
    (m : localeStringsMap) (w : world) : Prop :=
  ∃ ws, stderr w = stderr w0 ++ ws ∧ ticks w = (ticks w0 + length ws)%nat
    ∧ ∀ locale k entry, lookupEntry m locale k = Some entry →
        ∃ file content el,
          element files file content el
          ∧ locale = getLocaleForValuesFile file ∧ k = Name el
          ∧ datedBy w0 ws file content el entry.

(** The error [e] is among the warnings printed between [w0] and [w]. *)
Definition warned (w0 w : world) (e : error) : Prop :=
  ∃ ws, stderr w = stderr w0 ++ ws ∧ e ∈ ws.

(** ** A small project

    Three catalogs, of the canonical locale and of the locales [fr] and
    [de], with the answers of the outside world for them. The functions
    on paths are those of [path/filepath] on clean relative paths, the
    trimming is that of [strings.TrimSpace] on ASCII text. *)
Module Demo.

Definition quote : string := String "034" EmptyString.
Definition lines (l : list string) : string :=
  String.concat (String newline EmptyString) l.

Definition stringTag (name value : string) : string :=
  "  <string name=" +:+ quote +:+ name +:+ quote +:+ ">" +:+ value +:+ "</string>".
Definition arrayTag (name : string) : string :=
  "  <string-array name=" +:+ quote +:+ name +:+ quote +:+ ">".
Definition itemTag (value : string) : string := "    <item>" +:+ value +:+ "</item>".

Definition defaultFile : string := "res/values/strings.xml".
Definition frFile : string := "res/values-fr/strings.xml".
Definition deFile : string := "res/values-de/strings.xml".
Definition files : list string := [defaultFile; frFile; deFile].

Definition defaultContent : string :=
  lines [ "<resources>";
          stringTag "app_name" "Demo";
          stringTag "title" "Welcome";
          "  <string name=" +:+ quote +:+ "build" +:+ quote
            +:+ " translatable=" +:+ quote +:+ "false" +:+ quote +:+ ">42</string>";
          arrayTag "colors";
          itemTag "Red";
          itemTag "Green";
          "  </string-array>";
          "</resources>" ].

Definition frContent : string :=
  lines [ "<resources>";
          stringTag "title" "Bienvenue";
          arrayTag "colors";
          itemTag "Rouge";
          itemTag "Vert";
          "  </string-array>";
          "</resources>" ].

Definition deContent : string :=
  lines [ "<resources>";
          stringTag "title" "Willkommen";
          arrayTag "colors";
          itemTag "Rot";
          "  </string-array>";
          "</resources>" ].

(** A parsed element, before [findTranslatableStrings] dates it: the
    zero [time.Time] stands as instant 0. *)
Definition parsed (name value translatable : string) : xmlStringResource :=
  {| Name := name; Value := value; LastModified := 0;
     str_xmlTranslatable := {| Translatable := translatable |} |}.
Definition parsedArray (name : string) (items : list string) : xmlStringArrayResource :=
  {| arr_Name := name; Items := (λ v, parsed "" v "") <$> items;
     arr_xmlTranslatable := {| Translatable := "" |} |}.

Definition defaultResources : xmlStringResources :=
  {| Strings := [parsed "app_name" "Demo" ""; parsed "title" "Welcome" "";
                 parsed "build" "42" "false"];
     StringArrays := [parsedArray "colors" ["Red"; "Green"]] |}.
Definition frResources : xmlStringResources :=
  {| Strings := [parsed "title" "Bienvenue" ""];
     StringArrays := [parsedArray "colors" ["Rouge"; "Vert"]] |}.
Definition deResources : xmlStringResources :=
  {| Strings := [parsed "title" "Willkommen" ""];
     StringArrays := [parsedArray "colors" ["Rot"]] |}.

Fixpoint splitLast (s : string) : option string * string :=
  match s with
  | EmptyString => (None, EmptyString)
  | String c s' =>
      match splitLast s' with
      | (Some d, b) => (Some (String c d), b)
      | (None, b) => if Ascii.eqb c "/" then (Some EmptyString, b)
                     else (None, String c b)
      end
  end.

Fixpoint trimLeft (s : string) : string :=
  match s with
  | EmptyString => EmptyString
  | String c s' => if Ascii.is_space c then trimLeft s' else s
  end.

Fixpoint trimRight (s : string) : string :=
  match s with
  | EmptyString => EmptyString
  | String c s' =>
      match trimRight s' with
      | EmptyString => if Ascii.is_space c then EmptyString else String c EmptyString
      | r => String c r
      end
  end.

Definition blame (lineStart lineCount : Z) : string :=
  "git blame -p -L " +:+ strconv.Itoa lineStart +:+ ",+"
    +:+ strconv.Itoa lineCount
    +:+ " strings.xml | grep committer-time | awk '{ print $2 }'".

(** The history: [title] of the canonical locale was edited after its
    French translation; git fails on line 4 of the German catalog. *)
Definition history : list (string * string * string) :=
  [ ("res/values", blame 2 1, "1600000000");
    ("res/values", blame 3 1, "1600000500");
    ("res/values", blame 6 1, "1600000000");
    ("res/values", blame 7 1, "1600000000");
    ("res/values-fr", blame 2 1, "1600000100");
    ("res/values-fr", blame 4 1, "1600000900");
    ("res/values-fr", blame 5 1, "1600000900");
    ("res/values-de", blame 2 1, "1600000900") ].

Fixpoint answer (h : list (string * string * string)) (dir command : string)
    : option string :=
  match h with
  | [] => None
  | (d, c, out) :: h' =>
      if String.eqb d dir && String.eqb c command
      then Some (out +:+ String newline EmptyString)
      else answer h' dir command
  end.

#[global] Instance env : Env := {|
  equalFoldUnicode := λ _ _, false;
  TrimSpace := λ s, trimRight (trimLeft s);
  Base := λ p, (splitLast p).2;
  Dir := λ p, default "." (splitLast p).1;
  ReadFile := λ p,
    if String.eqb p defaultFile then Some defaultContent
    else if String.eqb p frFile then Some frContent
    else if String.eqb p deFile then Some deContent
    else None;
  Unmarshal := λ c,
    if String.eqb c defaultContent then Some defaultResources
    else if String.eqb c frContent then Some frResources
    else if String.eqb c deContent then Some deResources
    else None;
  sh := answer history;
  clock := λ n, time.Unix 2000000000 (Z.of_nat n)
|}.

Definition world0 : world := {| stderr := []; ticks := 0 |}.

Definition dated (name value : string) (sec nsec : Z) : xmlStringResource :=
  {| Name := name; Value := value; LastModified := time.Unix sec nsec;
     str_xmlTranslatable := {| Translatable := "" |} |}.

(** The index of the project. *)
Definition defaultStrings : gmap string xmlStringResource :=
  list_to_map [ ("app_name", dated "app_name" "Demo" 1600000000 0);
                ("title", dated "title" "Welcome" 1600000500 0);
                ("colors[0]", dated "colors[0]" "Red" 1600000000 0);
                ("colors[1]", dated "colors[1]" "Green" 1600000000 0) ].
Definition frStrings : gmap string xmlStringResource :=
  list_to_map [ ("title", dated "title" "Bienvenue" 1600000100 0);
                ("colors[0]", dated "colors[0]" "Rouge" 1600000900 0);
                ("colors[1]", dated "colors[1]" "Vert" 1600000900 0) ].
Definition deStrings : gmap string xmlStringResource :=
  list_to_map [ ("title", dated "title" "Willkommen" 1600000900 0);
                ("colors[0]", dated "colors[0]" "Rot" 2000000000 0) ].
Definition index : localeStringsMap :=
  list_to_map [ ("default", defaultStrings); ("fr", frStrings); ("de", deStrings) ].

(** Two walks of the maps that differ in the order of the locales. *)
Definition walk1 : schedule :=
  {| outer := map_to_list defaultStrings; inner := λ _, ["default"; "de"; "fr"] |}.
Definition walk2 : schedule :=
  {| outer := map_to_list defaultStrings; inner := λ _, ["fr"; "default"; "de"] |}.

Definition record (name value : string) (missing outdated : list string)
    : stringResource :=
  {| res_Name := name; res_Value := value;
     MissingLocales := missing; OutdatedLocales := outdated |}.

End Demo.

(** ** The rest of main.go: rendering helpers, the locator, the whole run *)

(** More of package strings. *)
Module gostrings.

(** [Join(elems, sep)] *)
Fixpoint joinLoop (elems : list string) (sep : string) : string :=
  match elems with
  | [] => EmptyString
  | s :: rest => sep +:+ s +:+ joinLoop rest sep
  end.

Definition Join (elems : list string) (sep : string) : string :=
  match elems with
  | [] => EmptyString
  | [x] => x
  | x :: rest => x +:+ joinLoop rest sep
  end.

(** The loop of [Replace]: [for i := 0; i < n; i++ { j := start; ...;
    b.WriteString(s[start:j]); b.WriteString(new); start = j + len(old) };
    b.WriteString(s[start:])], on the text that is left from [start] on.
    With an empty [old] the match is before the first character, then
    after each character. [Index] finds [old] at every turn, since there
    are at most [Count(s, old)] turns. *)
Fixpoint replaceLoop (n : nat) (i0 : bool) (s old new : string) : string :=
  match n with
  | O => s
  | S n' =>
      let j :=
        match old with
        | EmptyString =>
            Some (if i0 then O else utf8.DecodeRuneInString_size s)
        | _ => strings.indexNat s old
        end in
      match j with
      | Some j =>
          str_take j s +:+ new
            +:+ replaceLoop n' false (str_drop (j + String.length old) s) old new
      | None => s
      end
  end.

(** [Replace(s, old, new, n)] *)
Definition Replace (s old new : string) (n : Z) : string :=
  if String.eqb old new || (n =? 0) then s
  else
    let m := strings.Count s old in
    if m =? 0 then s
    else
      let n := if (n <? 0) || (m <? n) then m else n in
      replaceLoop (Z.to_nat n) true s old new.

Definition ReplaceAll (s old new : string) : string := Replace s old new (-1).

End gostrings.

(** [filepath.Ext], with [/] as the separator of paths:
    [for i := len(path) - 1; i >= 0 && !os.IsPathSeparator(path[i]); i--
       { if path[i] == '.' { return path[i:] } }; return ""].
    [n] is [i + 1]. *)
Fixpoint extLoop (path : string) (n : nat) : string :=
  match n with
  | O => EmptyString
  | S i =>
      match String.get i path with
      | Some c =>
          if Ascii.eqb c "/" then EmptyString
          else if Ascii.eqb c "." then str_drop i path
          else extLoop path i
      | None => EmptyString
      end
  end.

Definition filepath_Ext (path : string) : string :=
  extLoop path (String.length path).

Definition doNotTranslateFileName : string := "donottranslate.xml".

(** main.go, 226-233 *)
Definition isValuesFile `{!Env} (path : string) : bool :=
  if String.eqb doNotTranslateFileName (Base path) then false
  else
    let parent := Base (Dir path) in
    strings.HasPrefix parent "values"
    && EqualFold equalFoldUnicode ".xml" (filepath_Ext path).

(** main.go, 75-81 and 84-90 *)
Definition MissingLocalesString (res : stringResource) : string :=
  match MissingLocales res with
  | [] => "-"
  | _ => gostrings.Join (MissingLocales res) ", "
  end.

Definition OutdatedLocalesString (res : stringResource) : string :=
  match OutdatedLocales res with
  | [] => "-"
  | _ => gostrings.Join (OutdatedLocales res) ", "
  end.

Definition carriageReturn : ascii := "013"%char.

(** main.go, 414-416: the value, made fit for one line. *)
Definition escapeValue (value : string) : string :=
  let value := gostrings.ReplaceAll value "%" "%25" in
  let value := gostrings.ReplaceAll value (String carriageReturn EmptyString) "%0D" in
  gostrings.ReplaceAll value (String newline EmptyString) "%0A".

(** main.go, 413-418: the text that [fmt.Printf] writes to the standard
    output. *)
Definition setGitHubActionsOutput (key value : string) : string :=
  "::set-output name=" +:+ key +:+ "::" +:+ escapeValue value
    +:+ String newline EmptyString.

(** What the reader of the workflow command does with the value: the
    three escapes, undone. *)
Fixpoint unescapeValue (s : string) : string :=
  match s with
  | EmptyString => EmptyString
  | String "%" (String "2" (String "5" rest)) => String "%" (unescapeValue rest)
  | String "%" (String "0" (String "D" rest)) =>
      String carriageReturn (unescapeValue rest)
  | String "%" (String "0" (String "A" rest)) => String newline (unescapeValue rest)
  | String c rest => String c (unescapeValue rest)
  end.

(** main.go, 132-164: from the catalogs to the report. [walk] is the
    order in which the runtime walks the maps of the index it is given. *)
Definition mainFrom `{!Env} (valuesFiles : list string)
    (walk : localeStringsMap → schedule) : M (list stringResource) :=
  localeStrings <- findTranslatableStrings valuesFiles ;;
  match mainReport localeStrings (walk localeStrings) with
  | inl e => throw e
  | inr report => ret report
  end.

(** *** The locator *)

(** A directory tree, as [ioutil.ReadDir] shows it: the entries of a
    directory in the order of their names; [None] for a directory that
    [ReadDir] cannot read. A symbolic link is a file ([IsDir] is false
    for it), so the tree is finite. *)
#[warnings="-register-all"] Inductive fsNode :=
  | fsFile (name : string)
  | fsDir (name : string) (entries : option (list fsNode)).

Definition fsName (file : fsNode) : string :=
  match file with
  | fsFile name => name
  | fsDir name _ => name
  end.

(** The world of the locator. *)
Class Locator := {
  (** [filepath.Join] of a directory and a name *)
  filepath_Join : string → string → string;
  (** [filepath.Rel]; [None] when it returns an error. *)
  filepath_Rel : string → string → option string;
  (** [exec.Command("git", args...)] run in directory [dir]: whether
      [cmd.Run] returns no error. *)
  git : string → list string → bool
}.

(** "unable to read directory %s" *)
Inductive locateError := errReadDir (path : string).

(** main.go, 322-335 *)
Definition isGitIgnored `{!Locator} (workingDir file : string) : bool :=
  match filepath_Rel workingDir file with
  | None => false
  | Some relFilePath => git workingDir ["check-ignore"; relFilePath]
  end.

(** main.go, 199-217: one turn of the loop over the entries of the
    directory [path], and in it the call of [findValuesFiles] on a
    subdirectory, whose loop is [loop]. The result is what the turn adds
    to [valuesFiles]. *)
Fixpoint visitEntry `{!Env} `{!Locator} (path : string) (file : fsNode)
    : locateError + list string :=
  let filePath := filepath_Join path (fsName file) in
  if isGitIgnored path filePath then inr []
  else
    match file with
    | fsDir _ None => inl (errReadDir filePath)
    | fsDir _ (Some files) =>
        (fix loop (files : list fsNode) (valuesFiles : list string)
           : locateError + list string :=
           match files with
           | [] => inr valuesFiles
           | file :: files' =>
               match visitEntry filePath file with
               | inl err => inl err
               | inr moreValuesFiles => loop files' (valuesFiles ++ moreValuesFiles)
               end
           end) files []
    | fsFile _ => if isValuesFile filePath then inr [filePath] else inr []
    end.

Fixpoint entriesLoop `{!Env} `{!Locator} (path : string) (files : list fsNode)
    (valuesFiles : list string) : locateError + list string :=
  match files with
  | [] => inr valuesFiles
  | file :: files' =>
      match visitEntry path file with
      | inl err => inl err
      | inr moreValuesFiles => entriesLoop path files' (valuesFiles ++ moreValuesFiles)
      end
  end.

(** main.go, 192-220, on the directory [path] whose entries are
    [entries]. *)
Definition findValuesFiles `{!Env} `{!Locator} (path : string)
    (entries : option (list fsNode)) : locateError + list string :=
  match entries with
  | None => inl (errReadDir path)
  | Some files => entriesLoop path files []
  end.

(** A file of the tree that the walk reaches: no directory on the way to
    it, nor the file itself, is ignored. [reaches path files p] holds for
    the path [p] of such a file below the directory [path]. *)
Inductive reaches `{!Locator} : string → list fsNode → string → Prop :=
  | reaches_file path files name :
      fsFile name ∈ files →
      isGitIgnored path (filepath_Join path name) = false →
      reaches path files (filepath_Join path name)
  | reaches_dir path files name subfiles p :
      fsDir name (Some subfiles) ∈ files →
      isGitIgnored path (filepath_Join path name) = false →
      reaches (filepath_Join path name) subfiles p →
      reaches path files p.

(** A directory that cannot be read, and that the walk reaches. *)
Inductive reachesUnreadable `{!Locator} : string → list fsNode → string → Prop :=
  | unreadable_here path files name :
      fsDir name None ∈ files →
      isGitIgnored path (filepath_Join path name) = false →
      reachesUnreadable path files (filepath_Join path name)
  | unreadable_below path files name subfiles p :
      fsDir name (Some subfiles) ∈ files →
      isGitIgnored path (filepath_Join path name) = false →
      reachesUnreadable (filepath_Join path name) subfiles p →
      reachesUnreadable path files p.

(** A text without any comma. *)
Definition commaFree (x : string) : Prop := strings.CountString x "," = 0.

(** A text in which every byte [c] has become the text [new]. *)
Fixpoint substByte (c : ascii) (new s : string) : string :=
  match s with
  | EmptyString => EmptyString
  | String x s' =>
      if Ascii.eqb x c then new +:+ substByte c new s'
      else String x (substByte c new s')
  end.

(** A catalog of [locale] with at least one string or string-array,
    translatable or not. *)
Definition hasElements `{!Env} (file locale : string) : Prop :=
  ∃ content resources,
    ReadFile file = Some content ∧ Unmarshal content = Some resources
    ∧ getLocaleForValuesFile file = locale
    ∧ (0 < length (Strings resources) + length (StringArrays resources))%nat.

(** From [w] to [w'] some warnings were printed, and the clock was read
    once for each of them. *)
Definition warnsPerClock (w w' : world) : Prop :=
  ∃ ws, stderr w' = stderr w ++ ws ∧ ticks w' = (ticks w + length ws)%nat.

(** [m'] has the locales of [m], perhaps more, and an entry wherever [m]
    has one. *)
Definition keeps (m m' : localeStringsMap) : Prop :=
  (∀ locale, is_Some (m !! locale) → is_Some (m' !! locale))
  ∧ ∀ locale k, is_Some (lookupEntry m locale k) → is_Some (lookupEntry m' locale k).

(** ... and no locale more. *)
Definition extends (m m' : localeStringsMap) : Prop :=
  keeps m m' ∧ ∀ locale, is_Some (m' !! locale) → is_Some (m !! locale).

(** The command of line 427, for [file] and a line span. *)
Definition blameCommand `{!Env} (file : string) (lineStart lineCount : Z) : string :=
  "git blame -p -L " +:+ strconv.Itoa lineStart +:+ ",+"
    +:+ strconv.Itoa lineCount +:+ " " +:+ Base file
    +:+ " | grep committer-time | awk '{ print $2 }'".

(** A turn of the loop for [file] adds the paths of the accepted files
    that the walk reaches through [file]. *)
Definition turnFinds `{!Env} `{!Locator} (file : fsNode) : Prop :=
  ∀ path l, visitEntry path file = inr l →
    ∀ p, p ∈ l ↔ reaches path [file] p ∧ isValuesFile p = true.

(** A turn of the loop for [file] fails exactly when the walk reaches
    through [file] a directory that cannot be read, and then with the
    error of such a directory. *)
Definition turnFails `{!Env} `{!Locator} (file : fsNode) : Prop :=
  ∀ path,
    (∀ e, visitEntry path file = inl e →
       ∃ p, e = errReadDir p ∧ reachesUnreadable path [file] p)
    ∧ ((∃ p, reachesUnreadable path [file] p) → ∃ e, visitEntry path file = inl e).

(** ASCII text, and its letters in lower case. *)
Fixpoint isASCII (s : string) : Prop :=
  match s with
  | EmptyString => True
  | String c s' => byteZ c < utf8.RuneSelf ∧ isASCII s'
  end.

Definition lowerByte (c : ascii) : ascii :=
  if (byteZ "A" <=? byteZ c) && (byteZ c <=? byteZ "Z")
  then ascii_of_N (N_of_ascii c + 32) else c.

Fixpoint lowerASCII (s : string) : string :=
  match s with
  | EmptyString => EmptyString
  | String c s' => String (lowerByte c) (lowerASCII s')
  end.

(** A second world for the small project: the history answers every
    question with three commits, or, for line 3, with nothing. *)
Module Demo2.

Definition env : Env := {|
  equalFoldUnicode := λ _ _, false;
  TrimSpace := @TrimSpace Demo.env;
  Base := @Base Demo.env;
  Dir := @Dir Demo.env;
  ReadFile := @ReadFile Demo.env;
  Unmarshal := @Unmarshal Demo.env;
  sh := λ dir command,
    if String.eqb command (Demo.blame 3 1) then Some (String newline EmptyString)
    else Some (Demo.lines ["1600000000"; "1600000700"; "1500000000"; ""]);
  clock := @clock Demo.env
|}.

(** A tree around the three catalogs; git ignores [build]. *)
Definition tree : list fsNode :=
  [ fsDir "build" (Some [ fsDir "values" (Some [ fsFile "generated.xml" ]) ]);
    fsDir "res"
      (Some [ fsDir "layout" (Some [ fsFile "main.xml" ]);
              fsDir "values"
                (Some [ fsFile "donottranslate.xml"; fsFile "notes.txt";
                        fsFile "strings.xml" ]);
              fsDir "values-de" (Some [ fsFile "strings.xml" ]);
              fsDir "values-fr" (Some [ fsFile "strings.XML" ]) ]);
    fsFile "values.xml" ].

Definition locator : Locator := {|
  filepath_Join := λ dir name,
    if String.eqb dir "." then name else dir +:+ "/" +:+ name;
  filepath_Rel := λ dir file, Some (@Base Demo.env file);
  git := λ dir args,
    match args with
    | [_; rel] => String.eqb rel "build"
    | _ => false
    end
|}.

Definition locked : list fsNode :=
  [ fsDir "res" (Some [ fsDir "values" None ]) ].

(** The walk [Demo.walk1], its canonical entries in the opposite order. *)
Definition walk3 : schedule :=
  {| outer := reverse (map_to_list Demo.defaultStrings);
     inner := λ _, ["default"; "de"; "fr"] |}.

End Demo2.

(** A third project: one catalog, whose collection [units] is
    translatable and holds an item that is itself marked
    [translatable="false"]. *)
Module Demo3.

Definition unitsFile : string := "res/values/units.xml".

Definition unitsContent : string :=
  Demo.lines [ "<resources>";
               Demo.arrayTag "units";
               "    <item translatable=" +:+ Demo.quote +:+ "false" +:+ Demo.quote
                 +:+ ">kg</item>";
               "  </string-array>";
               "</resources>" ].

Definition unitsResources : xmlStringResources :=
  {| Strings := [];
     StringArrays :=
       [ {| arr_Name := "units"; Items := [Demo.parsed "" "kg" "false"];
            arr_xmlTranslatable := {| Translatable := "" |} |} ] |}.

Definition env : Env := {|
  equalFoldUnicode := λ _ _, false;
  TrimSpace := @TrimSpace Demo.env;
  Base := @Base Demo.env;
  Dir := @Dir Demo.env;
  ReadFile := λ p, if String.eqb p unitsFile then Some unitsContent else None;
  Unmarshal := λ c, if String.eqb c unitsContent then Some unitsResources else None;
  sh := λ dir command, Some ("1600000000" +:+ String newline EmptyString);
  clock := @clock Demo.env
|}.

(** The entry that the parse makes of the item. *)
Definition kg : xmlStringResource :=
  {| Name := "units[0]"; Value := "kg"; LastModified := time.Unix 1600000000 0;
     str_xmlTranslatable := {| Translatable := "false" |} |}.

Definition index : localeStringsMap :=
  list_to_map [ ("default", list_to_map [ ("units[0]", kg) ]) ].

End Demo3.

(** ** Facts about byte strings *)
Section StringFacts.

Implicit Types s t pre post sub : string.

Lemma append_nil_r s : s +:+ "" = s.
Proof. induction s; simpl; congruence. Qed.

Lemma length_append s t :
  String.length (s +:+ t) = (String.length s + String.length t)%nat.
Proof. induction s; simpl; congruence. Qed.

Lemma str_take_app pre t : str_take (String.length pre) (pre +:+ t) = pre.
Proof. induction pre as [|c pre IH]; simpl; [done | by rewrite IH]. Qed.

Lemma str_drop_app pre t : str_drop (String.length pre) (pre +:+ t) = t.
Proof. induction pre as [|c pre IH]; simpl; [done | by rewrite IH]. Qed.

Lemma str_drop_add n m s : str_drop (n + m) s = str_drop m (str_drop n s).
Proof.
  revert s. induction n as [|n IH]; intros s; simpl; [done|].
  destruct s; simpl; [by destruct m | apply IH].
Qed.

Lemma str_take_drop n s : str_take n s +:+ str_drop n s = s.
Proof.
  revert s. induction n as [|n IH]; intros s; simpl; [done|].
  destruct s; simpl; [done | by rewrite IH].
Qed.

Lemma HasPrefix_spec s p : strings.HasPrefix s p = true ↔ ∃ r, s = p +:+ r.
Proof.
  revert s. induction p as [|c p IH]; intros s; simpl.
  - split; [intros _; by exists s | done].
  - destruct s as [|x s].
    + split; [done | by intros [r Hr]].
    + destruct (Ascii.eqb_spec x c) as [->|Hne].
      * rewrite IH. split; intros [r Hr]; exists r; congruence.
      * split; [done | intros [r Hr]; congruence].
Qed.

Lemma indexNat_Some s sub i :
  strings.indexNat s sub = Some i →
  first_occurrence sub s (str_take i s) (str_drop (i + String.length sub) s)
  ∧ String.length (str_take i s) = i.
Proof.
  revert i. induction s as [|c s IH]; intros i; simpl.
  - destruct sub; simpl; [|done]. intros [= <-]. split; [|done].
    split; [done|]. intros; simpl; lia.
  - destruct (strings.HasPrefix (String c s) sub) eqn:Hp.
    + intros [= <-]. apply HasPrefix_spec in Hp as [r Hr].
      split; [|done]. split; [|intros; simpl; lia].
      unfold occurrence. simpl. rewrite Hr at 2.
      by rewrite str_drop_app.
    + destruct (strings.indexNat s sub) as [j|] eqn:Hj; [|done].
      intros [= <-]. destruct (IH j eq_refl) as [[Hocc Hmin] Hlen].
      split; [|simpl; congruence]. split.
      * unfold occurrence in *. simpl. congruence.
      * intros pre' post' Hocc'. unfold occurrence in Hocc'.
        destruct pre' as [|x pre'].
        { simpl in Hocc'. assert (strings.HasPrefix (String c s) sub = true)
            by (apply HasPrefix_spec; eauto). congruence. }
        simpl in Hocc'. injection Hocc' as -> Hs.
        specialize (Hmin pre' post' Hs). simpl. lia.
Qed.

Lemma indexNat_None s sub :
  strings.indexNat s sub = None → ∀ pre post, ¬ occurrence sub s pre post.
Proof.
  induction s as [|c s IH]; simpl.
  - destruct sub; [done|]. intros _ pre post Hocc. unfold occurrence in Hocc.
    destruct pre; simpl in Hocc; discriminate.
  - destruct (strings.HasPrefix (String c s) sub) eqn:Hp; [done|].
    destruct (strings.indexNat s sub) eqn:Hj; [done|]. intros _ pre post Hocc.
    unfold occurrence in Hocc. destruct pre as [|x pre].
    + simpl in Hocc. assert (strings.HasPrefix (String c s) sub = true)
        by (apply HasPrefix_spec; eauto). congruence.
    + simpl in Hocc. injection Hocc as -> Hs. by eapply IH.
Qed.

(** An occurrence has a first one, which [Index] finds. *)
Lemma occurrence_indexNat sub s pre post :
  occurrence sub s pre post → ∃ i, strings.indexNat s sub = Some i.
Proof.
  intros Hocc. destruct (strings.indexNat s sub) eqn:Hi; [eauto|].
  by eapply indexNat_None in Hi.
Qed.

Lemma first_occurrence_unique sub s pre post pre' post' :
  first_occurrence sub s pre post → first_occurrence sub s pre' post' →
  pre = pre' ∧ post = post'.
Proof.
  intros [H1 M1] [H2 M2].
  assert (String.length pre = String.length pre') as Hlen.
  { specialize (M1 _ _ H2). specialize (M2 _ _ H1). lia. }
  unfold occurrence in *.
  assert (pre = pre') as <-.
  { rewrite <- (str_take_app pre (sub +:+ post)), <- H1, Hlen, H2.
    apply str_take_app. }
  split; [done|].
  assert (str_drop (String.length pre + String.length sub) s = post) as <-.
  { rewrite str_drop_add, H1, !str_drop_app. done. }
  rewrite str_drop_add, H2, !str_drop_app. done.
Qed.

Lemma CountString_newlines s : strings.CountString s newline = newlines s.
Proof.
  induction s as [|c s IH]; simpl; [done|].
  rewrite IH. destruct (Ascii.eqb c newline); lia.
Qed.

Lemma Count_newline s : strings.Count s (String newline EmptyString) = newlines s.
Proof. apply CountString_newlines. Qed.

Lemma newlines_nonneg s : 0 ≤ newlines s.
Proof. induction s as [|c s IH]; simpl; [done|]. destruct (Ascii.eqb c newline); lia. Qed.

Lemma length_str_drop n s :
  String.length (str_drop n s) = (String.length s - n)%nat.
Proof.
  revert s. induction n as [|n IH]; intros s; simpl; [lia|].
  destruct s; simpl; [done | apply IH].
Qed.

Lemma occurrence_length sub s pre post :
  occurrence sub s pre post →
  String.length s = (String.length pre + String.length sub + String.length post)%nat.
Proof. intros ->. rewrite !length_append. lia. Qed.

(** *** Fuel *)

Lemma indexNat_nil sub : sub ≠ "" → strings.indexNat "" sub = None.
Proof. by destruct sub. Qed.

(** Any fuel from [len(s)] on gives [Count] the same value: the loop
    of the library terminates, and the model follows it to its end. *)
Lemma countLoop_enough f1 f2 s sub n :
  sub ≠ "" → (String.length s ≤ f1)%nat → (String.length s ≤ f2)%nat →
  strings.countLoop f1 s sub n = strings.countLoop f2 s sub n.
Proof.
  intros Hsub. revert f2 s n.
  induction f1 as [|f1 IH]; intros f2 s n H1 H2.
  - destruct s; [|simpl in H1; lia].
    destruct f2; cbn [strings.countLoop]; [done|]. by rewrite indexNat_nil.
  - destruct f2 as [|f2].
    + destruct s; [|simpl in H2; lia].
      cbn [strings.countLoop]. by rewrite indexNat_nil.
    + cbn [strings.countLoop]. destruct (strings.indexNat s sub) as [i|] eqn:Hi; [|done].
      apply indexNat_Some in Hi as [[Hocc _] _].
      apply occurrence_length in Hocc.
      assert (0 < String.length sub)%nat by (destruct sub; simpl; [done|lia]).
      apply IH; rewrite length_str_drop; lia.
Qed.

Lemma countLoop_ge fuel s sub n : n ≤ strings.countLoop fuel s sub n.
Proof.
  revert s n. induction fuel as [|f IH]; intros s n; cbn [strings.countLoop]; [lia|].
  destruct (strings.indexNat s sub); [|lia].
  etrans; [|apply IH]. lia.
Qed.

Lemma CountString_nonneg s c : 0 ≤ strings.CountString s c.
Proof. induction s as [|x s IH]; simpl; [done|]. destruct (Ascii.eqb x c); lia. Qed.

Lemma CountString_app s t c :
  strings.CountString (s +:+ t) c = strings.CountString s c + strings.CountString t c.
Proof. induction s as [|x s IH]; simpl; [done|]. rewrite IH. lia. Qed.

(** A separator that occurs is counted. *)
Lemma Count_pos s sub i :
  sub ≠ "" → strings.indexNat s sub = Some i → 1 ≤ strings.Count s sub.
Proof.
  intros Hsub Hi. pose proof Hi as Hi'.
  apply indexNat_Some in Hi' as [[Hocc _] _].
  destruct sub as [|c [|d sub]]; [done| |].
  - unfold strings.Count. rewrite Hocc, !CountString_app. simpl.
    rewrite Ascii.eqb_refl.
    pose proof (CountString_nonneg (str_take i s) c).
    pose proof (CountString_nonneg (str_drop (i + 1) s) c). lia.
  - unfold strings.Count. apply occurrence_length in Hocc.
    destruct (String.length s) as [|f] eqn:Hlen; [simpl in Hocc; lia|].
    cbn [strings.countLoop]. rewrite Hi. etrans; [|apply countLoop_ge]. lia.
Qed.

Lemma splitLoop_cons n s sep sepSave :
  ∃ c cs, strings.splitLoop n s sep sepSave = c :: cs.
Proof.
  destruct n; cbn [strings.splitLoop]; [eauto|].
  destruct (strings.indexNat s sep); eauto.
Qed.

(** [Split] on a separator that occurs: the first chunk is the text
    before the first occurrence, and there is a second chunk. *)
Lemma Split_found s sep i :
  sep ≠ "" → strings.indexNat s sep = Some i →
  ∃ c1 cs, strings.Split s sep = str_take i s :: c1 :: cs.
Proof.
  intros Hsep Hi. pose proof (Count_pos _ _ _ Hsep Hi) as Hc.
  pose proof Hi as Hi'. apply indexNat_Some in Hi' as [[Hocc _] _].
  apply occurrence_length in Hocc.
  assert (0 < String.length sep)%nat by (destruct sep; simpl; [done|lia]).
  unfold strings.Split, strings.genSplit. simpl.
  destruct sep as [|c sep]; [done|].
  set (n := if len s + 1 <? strings.Count s (String c sep) + 1
            then len s + 1 else strings.Count s (String c sep) + 1).
  assert (2 ≤ n) as Hn.
  { subst n. unfold len. destruct (_ <? _); lia. }
  destruct (Z.to_nat (n - 1)) as [|k] eqn:Hk; [lia|].
  cbn [strings.splitLoop]. rewrite Hi.
  destruct (splitLoop_cons k (str_drop (i + String.length (String c sep)) s)
              (String c sep) 0) as (c1 & cs & ->).
  rewrite Nat.add_0_r. eauto.
Qed.

Lemma Split_not_found s sep :
  sep ≠ "" → strings.indexNat s sep = None → strings.Split s sep = [s].
Proof.
  intros Hsep Hi. unfold strings.Split, strings.genSplit. simpl.
  destruct sep as [|c sep]; [done|].
  destruct (Z.to_nat _); cbn [strings.splitLoop]; [done|]. by rewrite Hi.
Qed.

End StringFacts.

(** ** Facts about line spans *)
Section LineFacts.

Implicit Types s pre rest term : string.

(** Skipping as many lines as [pre] has newlines leaves the tail of the
    last line of [pre] and everything after [pre]. *)
Lemma skipLines_app pre rest :
  ∃ a, skipLines (Z.to_nat (newlines pre)) (pre +:+ rest) = a +:+ rest
       ∧ newlines a = 0.
Proof.
  induction pre as [|c pre (a & IH & Ha)]; simpl.
  - exists "". split; [by destruct rest | done].
  - pose proof (newlines_nonneg pre) as Hnn.
    destruct (Ascii.eqb c newline) eqn:Hc.
    + replace (Z.to_nat (1 + newlines pre)) with (S (Z.to_nat (newlines pre))) by lia.
      simpl. eauto.
    + destruct (Z.to_nat (newlines pre)) as [|n] eqn:Hn.
      * exists (String c pre). simpl. rewrite Hc. split; [done | lia].
      * simpl. eauto.
Qed.

Lemma takeLines_no_newline a n rest :
  newlines a = 0 → (0 < n)%nat → takeLines n (a +:+ rest) = a +:+ takeLines n rest.
Proof.
  intros Ha Hn. induction a as [|c a IH]; simpl in *; [done|].
  pose proof (newlines_nonneg a).
  destruct (Ascii.eqb c newline); [lia|].
  destruct n; [lia|]. by rewrite IH.
Qed.

Lemma takeLines_term term rest :
  takeLines (S (Z.to_nat (newlines term))) (term +:+ rest)
  = term +:+ takeLines 1 rest.
Proof.
  induction term as [|c term IH]; simpl; [done|].
  pose proof (newlines_nonneg term).
  destruct (Ascii.eqb c newline) eqn:Hc.
  - replace (Z.to_nat (1 + newlines term)) with (S (Z.to_nat (newlines term))) by lia.
    by rewrite IH.
  - by rewrite IH.
Qed.

Lemma takeLines_one_no_newline rest : newlines (takeLines 1 rest) = 0.
Proof.
  induction rest as [|c rest IH]; simpl; [done|].
  destruct (Ascii.eqb c newline) eqn:Hc; simpl; [done|]. by rewrite Hc.
Qed.

(** The lines from that of the end of [pre] on, as many as [term]
    spans, are [term], widened to whole lines. *)
Lemma extractLines_occurrence pre term post :
  ∃ a b,
    extractLines (pre +:+ term +:+ post) (1 + newlines pre) (1 + newlines term)
    = a +:+ term +:+ b
    ∧ newlines a = 0 ∧ newlines b = 0.
Proof.
  unfold extractLines.
  destruct (skipLines_app pre (term +:+ post)) as (a & Hskip & Ha).
  exists a, (takeLines 1 post).
  replace (1 + newlines pre - 1) with (newlines pre) by lia.
  pose proof (newlines_nonneg term).
  replace (Z.to_nat (1 + newlines term)) with (S (Z.to_nat (newlines term))) by lia.
  rewrite Hskip, takeLines_no_newline, takeLines_term by (done || lia).
  auto using takeLines_one_no_newline.
Qed.

Lemma lineTail_cons c pre :
  lineTail (String c pre)
  = if Ascii.eqb c newline then lineTail pre
    else if newlines pre =? 0 then String c pre else lineTail pre.
Proof.
  unfold lineTail. cbn [newlines]. pose proof (newlines_nonneg pre) as Hnn.
  destruct (Ascii.eqb c newline) eqn:Hc.
  - replace (Z.to_nat (1 + newlines pre)) with (S (Z.to_nat (newlines pre))) by lia.
    cbn [skipLines]. by rewrite Hc.
  - destruct (Z.eqb_spec (newlines pre) 0) as [->|Hne]; [done|].
    destruct (Z.to_nat (newlines pre)) as [|n] eqn:Hn; [lia|].
    cbn [skipLines]. by rewrite Hc.
Qed.

Lemma lineTail_no_newline pre : newlines (lineTail pre) = 0.
Proof.
  induction pre as [|c pre IH]; [done|]. rewrite lineTail_cons.
  destruct (Ascii.eqb c newline) eqn:Hc; [done|].
  destruct (Z.eqb_spec (newlines pre) 0) as [H0|Hne]; [|done].
  simpl. by rewrite Hc.
Qed.

(** Skipping as many lines as [pre] has newlines leaves the tail of the
    last line of [pre], and everything after [pre]. *)
Lemma skipLines_lineTail pre rest :
  skipLines (Z.to_nat (newlines pre)) (pre +:+ rest) = lineTail pre +:+ rest.
Proof.
  induction pre as [|c pre IH]; [by destruct rest|].
  rewrite lineTail_cons. cbn [newlines String.append].
  pose proof (newlines_nonneg pre) as Hnn.
  destruct (Ascii.eqb c newline) eqn:Hc.
  - replace (Z.to_nat (1 + newlines pre)) with (S (Z.to_nat (newlines pre))) by lia.
    cbn [skipLines]. by rewrite Hc.
  - destruct (Z.eqb_spec (newlines pre) 0) as [H0|Hne].
    + rewrite H0. done.
    + destruct (Z.to_nat (newlines pre)) as [|n] eqn:Hn; [lia|].
      cbn [skipLines]. by rewrite Hc.
Qed.

(** The lines of an occurrence, in full: the occurrence with the rest
    of its first line before it and the rest of its last line after
    it. *)
Lemma extractLines_cut pre term post :
  extractLines (pre +:+ term +:+ post) (1 + newlines pre) (1 + newlines term)
  = lineTail pre +:+ term +:+ lineHead post.
Proof.
  unfold extractLines, lineHead.
  replace (1 + newlines pre - 1) with (newlines pre) by lia.
  pose proof (newlines_nonneg term).
  replace (Z.to_nat (1 + newlines term)) with (S (Z.to_nat (newlines term))) by lia.
  rewrite skipLines_lineTail, takeLines_no_newline, takeLines_term
    by (apply lineTail_no_newline || lia).
  done.
Qed.

Lemma newlines_snoc p : newlines (p +:+ String newline EmptyString) = 1 + newlines p.
Proof.
  induction p as [|d p IH]; [done|]. cbn [String.append newlines]. rewrite IH.
  destruct (Ascii.eqb d newline); lia.
Qed.

Lemma startsLine_cons c pre :
  startsLine (String c pre)
  ↔ (c = newline ∧ pre = "") ∨ (pre ≠ "" ∧ startsLine pre).
Proof.
  unfold startsLine. split.
  - intros [?|[[|d p] Hp]]; [done|..].
    + injection Hp as -> ->. by left.
    + injection Hp as -> ->. right. split; [by destruct p|]. right. by exists p.
  - intros [[-> ->]|[Hne [?|[p ->]]]]; [|done|].
    + right. by exists "".
    + right. by exists (String c p).
Qed.

Lemma lineTail_empty pre : lineTail pre = "" ↔ startsLine pre.
Proof.
  induction pre as [|c pre IH]; [by split; [left|]|].
  rewrite lineTail_cons, startsLine_cons.
  destruct (Ascii.eqb_spec c newline) as [->|Hc].
  - rewrite IH. split.
    + intros Hs. destruct pre; [by left|]. by right.
    + intros [[_ ->]|[_ Hs]]; [by left | done].
  - destruct (Z.eqb_spec (newlines pre) 0) as [H0|Hne].
    + split; [done|]. intros [[? _]|[Hpre [?|[p ->]]]]; [done..|].
      rewrite newlines_snoc in H0. pose proof (newlines_nonneg p). lia.
    + rewrite IH. split.
      * intros Hs. right. split; [|done]. by intros ->.
      * by intros [[? _]|[_ Hs]].
Qed.

Lemma lineHead_empty post : lineHead post = "" ↔ endsLine post.
Proof.
  unfold lineHead, endsLine. destruct post as [|c post]; simpl.
  - split; [by left | done].
  - destruct (Ascii.eqb_spec c newline) as [->|Hc].
    + split; [|done]. intros _. right. by exists post.
    + split; [done|]. by intros [?|[q [= -> _]]].
Qed.

(** The text of the lines of an occurrence is the occurrence itself
    exactly when the occurrence fills its lines. *)
Lemma cut_exact pre term post :
  lineTail pre +:+ term +:+ lineHead post = term ↔ startsLine pre ∧ endsLine post.
Proof.
  rewrite <- lineTail_empty, <- lineHead_empty. split.
  - intros Heq. apply (f_equal String.length) in Heq.
    rewrite !length_append in Heq.
    destruct (lineTail pre), (lineHead post); simpl in Heq; (done || lia).
  - intros [-> ->]. simpl. by rewrite append_nil_r.
Qed.

End LineFacts.

(** ** Facts about UTF-8 sequences *)
Section RuneFacts.

Lemma DecodeRuneInString_size_pos c s :
  (1 ≤ utf8.DecodeRuneInString_size (String c s))%nat.
Proof. unfold utf8.DecodeRuneInString_size. repeat case_match; lia. Qed.

Lemma runeCountLoop_ge fuel s n : n ≤ utf8.runeCountLoop fuel s n.
Proof.
  revert s n. induction fuel as [|f IH]; intros s n; simpl; [lia|].
  destruct s; [lia|]. etrans; [|apply IH]. lia.
Qed.

(** Any fuel from [len(s)] on gives [RuneCountInString] the same
    value. *)
Lemma runeCountLoop_enough f1 f2 s n :
  (String.length s ≤ f1)%nat → (String.length s ≤ f2)%nat →
  utf8.runeCountLoop f1 s n = utf8.runeCountLoop f2 s n.
Proof.
  revert f2 s n. induction f1 as [|f1 IH]; intros f2 s n H1 H2.
  - destruct s; [|simpl in H1; lia]. by destruct f2.
  - destruct f2 as [|f2].
    + destruct s; [done | simpl in H2; lia].
    + cbn [utf8.runeCountLoop]. destruct s as [|c s]; [done|].
      pose proof (DecodeRuneInString_size_pos c s).
      apply IH; rewrite length_str_drop; simpl in *; lia.
Qed.

(** A text has two characters or more when something follows its
    first character. *)
Lemma RuneCountInString_two s :
  2 ≤ utf8.RuneCountInString s ↔ s ≠ "" ∧ firstCharacter s ≠ s.
Proof.
  unfold utf8.RuneCountInString, firstCharacter. destruct s as [|c s].
  - simpl. split; [lia | by intros [? _]].
  - pose proof (DecodeRuneInString_size_pos c s) as Hpos.
    cbn [String.length utf8.runeCountLoop].
    set (sz := utf8.DecodeRuneInString_size (String c s)) in *.
    pose proof (str_take_drop sz (String c s)) as Htd.
    pose proof (length_str_drop sz (String c s)) as Hlen.
    destruct (str_drop sz (String c s)) as [|d r] eqn:Hd.
    + rewrite append_nil_r in Htd.
      assert (utf8.runeCountLoop (String.length s) "" (0 + 1) = 1) as ->
        by (by destruct (String.length s)).
      split; [lia | by intros [_ ?]].
    + split; [|intros _].
      * intros _. split; [done|]. intros Heq. rewrite Heq in Htd.
        apply (f_equal String.length) in Htd.
        rewrite length_append in Htd. simpl in Htd. lia.
      * simpl in Hlen. destruct (String.length s) as [|f]; [lia|].
        cbn [utf8.runeCountLoop]. etrans; [|apply runeCountLoop_ge]. lia.
Qed.

Lemma explodeLoop_cons k s : ∃ c cs, strings.explodeLoop k s = c :: cs.
Proof. destruct k; simpl; eauto. Qed.

End RuneFacts.

(** ** getLineRange *)
Section GetLineRange.

Implicit Types fileContent searchTerm pre post : string.

Lemma getLineRange_found fileContent searchTerm i :
  searchTerm ≠ "" → strings.indexNat fileContent searchTerm = Some i →
  getLineRange fileContent searchTerm
  = inr (1 + newlines (str_take i fileContent), 1 + newlines searchTerm).
Proof.
  intros Hne Hi. unfold getLineRange.
  destruct (Split_found _ _ _ Hne Hi) as (c1 & cs & ->).
  by rewrite !Count_newline.
Qed.

Lemma getLineRange_not_found fileContent searchTerm :
  searchTerm ≠ "" → strings.indexNat fileContent searchTerm = None →
  getLineRange fileContent searchTerm = inl (errNotFound searchTerm).
Proof.
  intros Hne Hi. unfold getLineRange. by rewrite Split_not_found.
Qed.

(** C2. For a non-empty [searchTerm]: when it does not occur in the
    content, [getLineRange] fails with the not-found error; when it
    occurs, it has a first occurrence, and [getLineRange] returns as
    start 1 plus the number of newlines before that occurrence and as
    count 1 plus the number of newlines of [searchTerm]. *)
Theorem getLineRange_first_occurrence fileContent searchTerm :
  searchTerm ≠ "" →
  ((∀ pre post, ¬ occurrence searchTerm fileContent pre post) →
     getLineRange fileContent searchTerm = inl (errNotFound searchTerm))
  ∧ (∀ pre post, occurrence searchTerm fileContent pre post →
       ∃ pre1 post1, first_occurrence searchTerm fileContent pre1 post1)
  ∧ (∀ pre post, first_occurrence searchTerm fileContent pre post →
       getLineRange fileContent searchTerm
       = inr (1 + newlines pre, 1 + newlines searchTerm)).
Proof.
  intros Hne. split; [|split].
  - intros Hno. apply getLineRange_not_found; [done|].
    destruct (strings.indexNat fileContent searchTerm) as [i|] eqn:Hi; [|done].
    apply indexNat_Some in Hi as [[Hocc _] _]. by apply Hno in Hocc.
  - intros pre post Hocc.
    destruct (occurrence_indexNat _ _ _ _ Hocc) as [i Hi].
    apply indexNat_Some in Hi as [Hfirst _]. eauto.
  - intros pre post Hfirst.
    destruct (occurrence_indexNat _ _ _ _ (proj1 Hfirst)) as [i Hi].
    rewrite (getLineRange_found _ _ i) by done.
    apply indexNat_Some in Hi as [Hfirst' _].
    by destruct (first_occurrence_unique _ _ _ _ _ _ Hfirst Hfirst') as [-> _].
Qed.

(** With the empty [searchTerm], [Split] cuts the content into its
    characters. *)
Lemma getLineRange_empty fileContent :
  getLineRange fileContent ""
  = if 2 <=? utf8.RuneCountInString fileContent
    then inr (1 + newlines (firstCharacter fileContent), 1)
    else inl (errNotFound "").
Proof.
  unfold getLineRange, strings.Split, strings.genSplit, strings.explode.
  cbn [Z.eqb Z.ltb Z.compare orb].
  set (l := utf8.RuneCountInString fileContent).
  destruct (Z.leb_spec l 0) as [Hl|Hl].
  { destruct (Z.leb_spec 2 l); [lia | done]. }
  destruct (Z.to_nat (l - 1)) as [|k] eqn:Hk.
  { cbn [strings.explodeLoop]. destruct (Z.leb_spec 2 l); [lia | done]. }
  cbn [strings.explodeLoop].
  destruct (explodeLoop_cons k
              (str_drop (utf8.DecodeRuneInString_size fileContent) fileContent))
    as (c1 & cs & ->).
  destruct (Z.leb_spec 2 l); [|lia].
  rewrite Count_newline. reflexivity.
Qed.

(** The occurrence at which [getLineRange] cuts the content is one
    occurrence, whatever [searchTerm] is. *)
Lemma cutAt_unique fileContent searchTerm pre1 post1 pre2 post2 :
  cutAt searchTerm fileContent pre1 post1 →
  cutAt searchTerm fileContent pre2 post2 →
  pre1 = pre2 ∧ post1 = post2.
Proof.
  intros [Hne1 He1] [Hne2 He2].
  destruct (decide (searchTerm = "")) as [Heq|Hne].
  - destruct (He1 Heq) as [-> Hc1], (He2 Heq) as [-> Hc2]. split; [done|].
    remember (firstCharacter fileContent) as s eqn:Hs. clear Hs.
    rewrite Hc1 in Hc2. clear -Hc2.
    induction s as [|c s IH]; simpl in Hc2; [done|]. injection Hc2 as Hc2. auto.
  - exact (first_occurrence_unique _ _ _ _ _ _ (Hne1 Hne) (Hne2 Hne)).
Qed.

(** C3, as amended. For a [searchTerm] that is a contiguous slice of
    the content: if it is not empty, [getLineRange] returns a span; and
    whenever [getLineRange] returns a span, it is the span of the lines
    of one occurrence of [searchTerm], the one at which the content is
    cut: the text of these lines is that occurrence with the rest of
    its first line before it and the rest of its last line after it,
    neither of which holds a newline; so the text of the span is
    [searchTerm] itself exactly when that occurrence starts at the
    start of a line and ends at the end of a line. *)
Theorem getLineRange_span_contains fileContent searchTerm pre post :
  occurrence searchTerm fileContent pre post →
  (searchTerm ≠ "" →
     ∃ start count, getLineRange fileContent searchTerm = inr (start, count))
  ∧ (∀ start count,
       getLineRange fileContent searchTerm = inr (start, count) →
       (∃ pre1 post1, cutAt searchTerm fileContent pre1 post1)
       ∧ ∀ pre1 post1, cutAt searchTerm fileContent pre1 post1 →
           occurrence searchTerm fileContent pre1 post1
           ∧ start = 1 + newlines pre1 ∧ count = 1 + newlines searchTerm
           ∧ extractLines fileContent start count
             = lineTail pre1 +:+ searchTerm +:+ lineHead post1
           ∧ newlines (lineTail pre1) = 0 ∧ newlines (lineHead post1) = 0
           ∧ (extractLines fileContent start count = searchTerm
              ↔ startsLine pre1 ∧ endsLine post1)).
Proof.
  intros Hocc.
  destruct (occurrence_indexNat _ _ _ _ Hocc) as [i Hi].
  split.
  - intros Hne. rewrite (getLineRange_found _ _ i) by done. eauto.
  - intros start count Hrange.
    assert (∃ pre0 post0,
              cutAt searchTerm fileContent pre0 post0
              ∧ fileContent = pre0 +:+ searchTerm +:+ post0
              ∧ start = 1 + newlines pre0 ∧ count = 1 + newlines searchTerm)
      as (pre0 & post0 & Hcut & Hc & -> & ->).
    { destruct (decide (searchTerm = "")) as [->|Hne].
      - rewrite getLineRange_empty in Hrange.
        destruct (2 <=? utf8.RuneCountInString fileContent); [|done].
        injection Hrange as <- <-.
        exists (firstCharacter fileContent),
          (str_drop (utf8.DecodeRuneInString_size fileContent) fileContent).
        assert (fileContent
                = firstCharacter fileContent
                  +:+ str_drop (utf8.DecodeRuneInString_size fileContent) fileContent)
          as Htd by (symmetry; apply str_take_drop).
        split_and!; [by split|done..].
      - rewrite (getLineRange_found _ _ i) in Hrange by done.
        injection Hrange as <- <-.
        apply indexNat_Some in Hi as [Hfirst _].
        exists (str_take i fileContent),
          (str_drop (i + String.length searchTerm) fileContent).
        split_and!; [by split|apply Hfirst|done..]. }
    split; [by eauto|]. intros pre1 post1 Hcut1.
    destruct (cutAt_unique _ _ _ _ _ _ Hcut1 Hcut) as [-> ->].
    rewrite Hc at 2 3. rewrite extractLines_cut.
    split_and!; [done..|apply lineTail_no_newline|apply takeLines_one_no_newline|].
    apply cut_exact.
Qed.


End GetLineRange.

(** ** getLocaleForValuesFile *)
Section Locale.
Context `{!Env}.

Lemma SplitN_2_found s sep i :
  sep ≠ "" → strings.indexNat s sep = Some i →
  strings.SplitN s sep 2 = [str_take i s; str_drop (i + String.length sep) s].
Proof.
  intros Hsep Hi. pose proof Hi as Hi'.
  apply indexNat_Some in Hi' as [[Hocc _] _]. apply occurrence_length in Hocc.
  assert (0 < String.length sep)%nat by (destruct sep; simpl; [done|lia]).
  unfold strings.SplitN, strings.genSplit. cbn [Z.eqb Z.ltb Z.compare].
  destruct sep as [|c sep]; [done|].
  destruct (Z.ltb_spec (len s + 1) 2) as [Hlt|_]; [unfold len in Hlt; lia|].
  change (Z.to_nat (2 - 1)) with 1%nat. cbn [strings.splitLoop].
  by rewrite Hi, Nat.add_0_r.
Qed.

Lemma SplitN_not_found s sep n :
  sep ≠ "" → strings.indexNat s sep = None → n ≠ 0 →
  strings.SplitN s sep n = [s].
Proof.
  intros Hsep Hi Hn. unfold strings.SplitN, strings.genSplit.
  destruct (Z.eqb_spec n 0); [done|]. destruct sep; [done|].
  destruct (Z.to_nat _); cbn [strings.splitLoop]; [done|]. by rewrite Hi.
Qed.

Lemma EqualFold_values_tag tag :
  EqualFold equalFoldUnicode ("values-" +:+ tag) "values" = false.
Proof. reflexivity. Qed.

(** C5. The locale of a catalog file is derived from the name of its
    parent directory: [values] gives the canonical locale [default];
    [values-<tag>] gives [<tag>], all that follows the first hyphen; a
    name without any hyphen, such as [valuesFoo], gives [default]. *)
Theorem getLocaleForValuesFile_cases (path : string) :
  (Base (Dir path) = "values" → getLocaleForValuesFile path = "default")
  ∧ (∀ tag, Base (Dir path) = "values-" +:+ tag →
       getLocaleForValuesFile path = tag)
  ∧ ((∀ pre post, ¬ occurrence "-" (Base (Dir path)) pre post) →
       getLocaleForValuesFile path = "default").
Proof.
  unfold getLocaleForValuesFile. split; [|split].
  - by intros ->.
  - intros tag ->. rewrite EqualFold_values_tag.
    by rewrite (SplitN_2_found _ _ 6).
  - intros Hno. destruct (EqualFold _ _ _); [done|].
    rewrite SplitN_not_found; [done..| |done].
    destruct (strings.indexNat (Base (Dir path)) "-") as [i|] eqn:Hi; [|done].
    apply indexNat_Some in Hi as [[Hocc _] _]. by apply Hno in Hocc.
Qed.

End Locale.

(** ** sort.Sort *)
Section Sorting.

Lemma Less_true a b : Less a b = true → nameLe a b.
Proof.
  unfold Less, nameLe, String.le, String.ltb, String.leb.
  by destruct (String.compare _ _).
Qed.

Lemma Less_false a b : Less a b = false → nameLe b a.
Proof.
  unfold Less, nameLe, String.le, String.ltb, String.leb.
  rewrite (String.compare_antisym (res_Name a) (res_Name b)).
  by destruct (String.compare (res_Name b) (res_Name a)).
Qed.

Lemma insertSorted_Permutation x l : insertSorted x l ≡ₚ x :: l.
Proof.
  induction l as [|y l IH]; simpl; [done|].
  destruct (Less x y); [done|]. rewrite IH. apply Permutation_swap.
Qed.

Lemma sort_Sort_Permutation l : sort_Sort l ≡ₚ l.
Proof.
  unfold sort_Sort.
  assert (∀ acc, fold_left (λ acc x, insertSorted x acc) l acc ≡ₚ acc ++ l) as H.
  { induction l as [|x l IH]; intros acc; simpl.
    - by rewrite app_nil_r.
    - rewrite IH, insertSorted_Permutation. simpl. apply Permutation_middle. }
  apply H.
Qed.

Lemma insertSorted_Sorted x l :
  Sorted nameLe l → Sorted nameLe (insertSorted x l).
Proof.
  induction 1 as [|y l Hs IH Hhd]; simpl.
  - by repeat constructor.
  - destruct (Less x y) eqn:HL.
    + repeat constructor; [done..|]. by apply Less_true.
    + constructor; [done|]. apply Less_false in HL.
      destruct l as [|z l]; simpl; [by constructor|].
      destruct (Less x z); constructor; [done|]. by inversion Hhd.
Qed.

Lemma sort_Sort_Sorted l : Sorted nameLe (sort_Sort l).
Proof.
  unfold sort_Sort.
  assert (∀ acc, Sorted nameLe acc →
            Sorted nameLe (fold_left (λ acc x, insertSorted x acc) l acc)) as H.
  { induction l as [|x l IH]; intros acc Hacc; simpl; [done|].
    by apply IH, insertSorted_Sorted. }
  apply H. constructor.
Qed.

Lemma Sorted_adjacent {A} (R : relation A) (l : list A) (i : nat) a b :
  Sorted R l → l !! i = Some a → l !! S i = Some b → R a b.
Proof.
  intros Hs. revert i. induction Hs as [|x l Hs IH Hhd]; intros i; [done|].
  destruct i as [|i]; simpl.
  - intros [= ->] Hb. destruct Hhd; simplify_eq/=. done.
  - apply IH.
Qed.

Lemma Sorted_nameLe_names l : Sorted nameLe l → Sorted String.le (res_Name <$> l).
Proof.
  induction 1 as [|x l Hs IH Hhd]; simpl; constructor; [done|].
  destruct Hhd; simpl; by constructor.
Qed.

End Sorting.

(** ** The report of main *)
Section Report.
Context `{!Env}.

Implicit Types (localeStrings : localeStringsMap) (str : xmlStringResource)
  (sch : schedule) (locales : list string) (r : stringResource).

Lemma strResourceOf_eq localeStrings locales str :
  strResourceOf localeStrings locales str
  = {| res_Name := Name str; res_Value := TrimSpace (Value str);
       MissingLocales := filter (λ l, isMissing localeStrings str l = true) locales;
       OutdatedLocales := filter (λ l, isOutdated localeStrings str l = true) locales |}.
Proof.
  unfold strResourceOf.
  assert (∀ n v ms os,
    fold_left (localeBody localeStrings str) locales
      {| res_Name := n; res_Value := v; MissingLocales := ms; OutdatedLocales := os |}
    = {| res_Name := n; res_Value := v;
         MissingLocales :=
           ms ++ filter (λ l, isMissing localeStrings str l = true) locales;
         OutdatedLocales :=
           os ++ filter (λ l, isOutdated localeStrings str l = true) locales |})
    as Hfold.
  { induction locales as [|l locales IH]; intros n v ms os; simpl.
    - by rewrite !app_nil_r.
    - unfold localeBody at 2. rewrite !filter_cons. unfold isMissing, isOutdated.
      destruct (lookupEntry localeStrings l (Name str)) as [e|]; simpl.
      + destruct (time.Before (LastModified e) (LastModified str)); simpl.
        * rewrite IH. by rewrite <- app_assoc.
        * by rewrite IH.
      + rewrite IH. by rewrite <- app_assoc. }
  apply Hfold.
Qed.

(** The unsorted report: the records of the canonical entries, in the
    order of the outer loop, without those that flag no locale. *)
Lemma reportLoop_eq localeStrings sch l acc :
  fold_left (reportBody localeStrings sch) l acc
  = acc ++ filter flagged (recordOf localeStrings sch <$> l).
Proof.
  revert acc. induction l as [|kv l IH]; intros acc; simpl.
  - by rewrite app_nil_r.
  - rewrite IH, filter_cons. unfold reportBody. fold (recordOf localeStrings sch kv).
    destruct (recordOf localeStrings sch kv) as [n v ms os]; unfold flagged; simpl.
    destruct ms, os; simpl; by rewrite <- ?app_assoc.
Qed.

Lemma mainReport_eq localeStrings defaultStrings sch :
  localeStrings !! defaultLocale = Some defaultStrings →
  mainReport localeStrings sch
  = inr (sort_Sort (filter flagged (recordOf localeStrings sch <$> outer sch))).
Proof. intros Hd. unfold mainReport. by rewrite Hd, reportLoop_eq. Qed.

Lemma elem_of_report localeStrings sch r :
  r ∈ sort_Sort (filter flagged (recordOf localeStrings sch <$> outer sch))
  ↔ flagged r ∧ ∃ kv, kv ∈ outer sch ∧ r = recordOf localeStrings sch kv.
Proof.
  rewrite sort_Sort_Permutation, list_elem_of_filter, list_elem_of_fmap.
  split; intros [Hfl (kv & Hkv1 & Hkv2)]; eauto.
Qed.

Lemma elem_of_keys localeStrings locale :
  locale ∈ (map_to_list localeStrings).*1 ↔ is_Some (localeStrings !! locale).
Proof.
  rewrite list_elem_of_fmap. split.
  - intros ([k m] & -> & Hin). apply elem_of_map_to_list in Hin. by eexists.
  - intros [m Hm]. exists (locale, m). split; [done|].
    by apply elem_of_map_to_list.
Qed.

Lemma lookupEntry_Some localeStrings locale entries name :
  localeStrings !! locale = Some entries →
  lookupEntry localeStrings locale name = entries !! name.
Proof. intros Hl. unfold lookupEntry. by rewrite Hl. Qed.

(** C1. With the canonical locale in the index, [main] builds for every
    canonical entry one record, whose lists hold, in the order of the
    walk over the index and once each, the locales that have no entry
    of that name ([missing]) and those whose entry is last modified
    strictly before the canonical one ([outdated]); a locale that has
    the entry, not older, is in neither list. The report holds the
    records of which at least one list is not empty, and no other. *)
Theorem mainReport_classifies localeStrings defaultStrings sch :
  localeStrings !! defaultLocale = Some defaultStrings →
  valid_schedule localeStrings defaultStrings sch →
  ∃ report,
    mainReport localeStrings sch = inr report
    ∧ (∀ r, r ∈ report →
         ∃ k str, defaultStrings !! k = Some str
                  ∧ r = recordOf localeStrings sch (k, str))
    ∧ ∀ k str, defaultStrings !! k = Some str →
        let r := recordOf localeStrings sch (k, str) in
        res_Name r = Name str
        ∧ MissingLocales r
          = filter (λ l, isMissing localeStrings str l = true) (inner sch k)
        ∧ OutdatedLocales r
          = filter (λ l, isOutdated localeStrings str l = true) (inner sch k)
        ∧ NoDup (MissingLocales r) ∧ NoDup (OutdatedLocales r)
        ∧ (∀ locale, locale ∈ MissingLocales r ++ OutdatedLocales r →
             is_Some (localeStrings !! locale))
        ∧ (∀ locale entries, localeStrings !! locale = Some entries →
             match entries !! Name str with
             | None => locale ∈ MissingLocales r ∧ locale ∉ OutdatedLocales r
             | Some localeStr =>
                 (locale ∉ MissingLocales r)
                 ∧ (locale ∈ OutdatedLocales r
                    ↔ LastModified localeStr < LastModified str)
             end)
        ∧ (r ∈ report ↔ ¬ (MissingLocales r = [] ∧ OutdatedLocales r = [])).
Proof.
  intros Hd [Houter Hinner]. eexists. split; [by eapply mainReport_eq|].
  split.
  - intros r (_ & [k str] & Hin & ->)%elem_of_report.
    rewrite Houter in Hin. apply elem_of_map_to_list in Hin. eauto.
  - intros k str Hk r.
    assert (NoDup (inner sch k)) as Hnd
      by (rewrite Hinner; apply NoDup_fst_map_to_list).
    assert (∀ l, l ∈ inner sch k ↔ is_Some (localeStrings !! l)) as Hkeys
      by (intros l; rewrite Hinner; apply elem_of_keys).
    assert (r = {| res_Name := Name str; res_Value := TrimSpace (Value str);
                   MissingLocales :=
                     filter (λ l, isMissing localeStrings str l = true) (inner sch k);
                   OutdatedLocales :=
                     filter (λ l, isOutdated localeStrings str l = true) (inner sch k) |})
      as Hr by apply strResourceOf_eq.
    split_and!.
    + by rewrite Hr.
    + by rewrite Hr.
    + by rewrite Hr.
    + rewrite Hr. by apply NoDup_filter.
    + rewrite Hr. by apply NoDup_filter.
    + rewrite Hr. cbn [MissingLocales OutdatedLocales].
      intros l [[_ ?]%list_elem_of_filter|[_ ?]%list_elem_of_filter]%elem_of_app;
        by apply Hkeys.
    + intros locale entries Hl. rewrite Hr. cbn [MissingLocales OutdatedLocales].
      assert (locale ∈ inner sch k) as Hin by (apply Hkeys; eauto).
      pose proof (lookupEntry_Some _ _ _ (Name str) Hl) as Hlk.
      destruct (entries !! Name str) as [e|] eqn:He;
        rewrite !list_elem_of_filter; unfold isMissing, isOutdated; rewrite Hlk.
      * split; [by intros [? _]|]. unfold time.Before. rewrite Z.ltb_lt. tauto.
      * split; [done | by intros [? _]].
    + rewrite elem_of_report. unfold flagged. split.
      * intros [Hfl _]. tauto.
      * intros Hne. split.
        { destruct (MissingLocales r); [|by left].
          destruct (OutdatedLocales r); [|by right]. tauto. }
        exists (k, str). split; [|done].
        rewrite Houter. by apply elem_of_map_to_list.
Qed.

(** C7. The report is in ascending order of entry names: the name of a
    record is at most the name of the record after it, in the order of
    Go's comparison of strings. *)
Theorem mainReport_sorted localeStrings sch report :
  mainReport localeStrings sch = inr report →
  ∀ i a b, report !! i = Some a → report !! S i = Some b →
    String.leb (res_Name a) (res_Name b) = true.
Proof.
  unfold mainReport. destruct (localeStrings !! defaultLocale); [|done].
  intros [= <-] i a b Ha Hb. apply Is_true_true.
  eapply (Sorted_adjacent nameLe); [apply sort_Sort_Sorted | done..].
Qed.

(** C9. The computation of the report fails if and only if the index
    has no key [default], and then with the error of the missing
    default locale; with that key it returns a report. *)
Theorem mainReport_fails_iff localeStrings sch :
  (localeStrings !! defaultLocale = None
     ↔ ∃ e, mainReport localeStrings sch = inl e)
  ∧ (localeStrings !! defaultLocale = None
     → mainReport localeStrings sch = inl errNoDefaultLocale)
  ∧ (is_Some (localeStrings !! defaultLocale)
     → ∃ report, mainReport localeStrings sch = inr report).
Proof.
  unfold mainReport. destruct (localeStrings !! defaultLocale) eqn:Hd.
  - split_and!; [|done|eauto]. split; [done | by intros [e ?]].
  - split_and!; [|done|by intros [? ?]]. split; eauto.
Qed.

(** *** Two runs on one index *)

Lemma recordOf_sameRecord localeStrings sch1 sch2 k str :
  inner sch1 k ≡ₚ inner sch2 k →
  sameRecord (recordOf localeStrings sch1 (k, str))
             (recordOf localeStrings sch2 (k, str)).
Proof.
  intros Hp. unfold recordOf, sameRecord. cbn [fst snd].
  rewrite !strResourceOf_eq. cbn [res_Name res_Value MissingLocales OutdatedLocales].
  split_and!; [done..| |]; by rewrite Hp.
Qed.

Lemma sameRecord_flagged a b : sameRecord a b → flagged a → flagged b.
Proof.
  intros (_ & _ & Hm & Ho) [Hfl|Hfl]; [left|right]; intros Hnil.
  - rewrite Hnil in Hm. by apply Permutation_nil_r in Hm.
  - rewrite Hnil in Ho. by apply Permutation_nil_r in Ho.
Qed.

Lemma recordOf_name localeStrings sch kv :
  res_Name (recordOf localeStrings sch kv) = Name kv.2.
Proof. unfold recordOf. by rewrite strResourceOf_eq. Qed.

(** In an index keyed by name, the name of a record tells its entry. *)
Lemma keyed_name_inj (defaultStrings : gmap string xmlStringResource) kv1 kv2 :
  keyedByName defaultStrings →
  kv1 ∈ map_to_list defaultStrings → kv2 ∈ map_to_list defaultStrings →
  Name kv1.2 = Name kv2.2 → kv1 = kv2.
Proof.
  destruct kv1 as [k1 s1], kv2 as [k2 s2]. intros Hkey. simpl.
  intros H1%elem_of_map_to_list H2%elem_of_map_to_list Hn.
  rewrite (Hkey _ _ H1), (Hkey _ _ H2) in Hn. subst k2.
  rewrite H1 in H2. by injection H2 as ->.
Qed.

Lemma report_names_NoDup localeStrings defaultStrings sch :
  keyedByName defaultStrings → outer sch ≡ₚ map_to_list defaultStrings →
  NoDup (res_Name <$>
           sort_Sort (filter flagged (recordOf localeStrings sch <$> outer sch))).
Proof.
  intros Hkey Houter. rewrite sort_Sort_Permutation.
  assert (∀ x y, x ∈ outer sch → y ∈ outer sch →
            res_Name (recordOf localeStrings sch x)
            = res_Name (recordOf localeStrings sch y) → x = y) as Hinj.
  { intros x y Hx Hy. rewrite !recordOf_name. rewrite Houter in Hx, Hy.
    by apply (keyed_name_inj defaultStrings). }
  apply NoDup_fmap_2_strong.
  - intros x y [_ (kx & -> & Hx)%list_elem_of_fmap]%list_elem_of_filter
      [_ (ky & -> & Hy)%list_elem_of_fmap]%list_elem_of_filter Hn.
    f_equal. by apply Hinj.
  - apply NoDup_filter, NoDup_fmap_2_strong.
    + intros x y Hx Hy Heq. apply Hinj; [done..|]. by rewrite Heq.
    + rewrite Houter. apply NoDup_map_to_list.
Qed.

Lemma report_names_incl localeStrings defaultStrings sch1 sch2 n :
  valid_schedule localeStrings defaultStrings sch1 →
  valid_schedule localeStrings defaultStrings sch2 →
  n ∈ res_Name <$>
        sort_Sort (filter flagged (recordOf localeStrings sch1 <$> outer sch1)) →
  n ∈ res_Name <$>
        sort_Sort (filter flagged (recordOf localeStrings sch2 <$> outer sch2)).
Proof.
  intros [Ho1 Hi1] [Ho2 Hi2].
  intros (r & -> & [Hfl ([k str] & Hkv & ->)]%elem_of_report)%list_elem_of_fmap.
  assert (sameRecord (recordOf localeStrings sch1 (k, str))
                     (recordOf localeStrings sch2 (k, str))) as Hsame
    by (apply recordOf_sameRecord; by rewrite Hi1, Hi2).
  apply list_elem_of_fmap. exists (recordOf localeStrings sch2 (k, str)).
  split; [by destruct Hsame|]. apply elem_of_report.
  split; [by eapply sameRecord_flagged|].
  exists (k, str). split; [|done]. by rewrite Ho2, <- Ho1.
Qed.

(** C6, as amended. Two runs of the computation on one index, itself
    keyed by name, whatever the orders in which the runtime walks the
    maps, give reports of the same records in the same order; a record
    has in both runs the same name, the same value and the same
    missing and outdated locales, whose order within each list may
    differ. *)
Theorem mainReport_two_runs localeStrings defaultStrings sch1 sch2 :
  localeStrings !! defaultLocale = Some defaultStrings →
  keyedByName defaultStrings →
  valid_schedule localeStrings defaultStrings sch1 →
  valid_schedule localeStrings defaultStrings sch2 →
  ∃ report1 report2,
    mainReport localeStrings sch1 = inr report1
    ∧ mainReport localeStrings sch2 = inr report2
    ∧ Forall2 sameRecord report1 report2.
Proof.
  intros Hd Hkey Hv1 Hv2. do 2 eexists.
  split; [by eapply mainReport_eq|]. split; [by eapply mainReport_eq|].
  set (report1 := sort_Sort (filter flagged (recordOf localeStrings sch1 <$> outer sch1))).
  set (report2 := sort_Sort (filter flagged (recordOf localeStrings sch2 <$> outer sch2))).
  assert (res_Name <$> report1 = res_Name <$> report2) as Hnames.
  { apply (Sorted_unique String.le).
    - apply Sorted_nameLe_names, sort_Sort_Sorted.
    - apply Sorted_nameLe_names, sort_Sort_Sorted.
    - apply NoDup_Permutation.
      + eapply report_names_NoDup; [done | apply Hv1].
      + eapply report_names_NoDup; [done | apply Hv2].
      + intros n. split; by eapply report_names_incl. }
  apply Forall2_same_length_lookup. split.
  { apply (f_equal length) in Hnames. by rewrite !length_fmap in Hnames. }
  intros i a b Ha Hb.
  assert (res_Name a = res_Name b) as Hn.
  { apply (f_equal (λ l, l !! i)) in Hnames.
    rewrite !list_lookup_fmap, Ha, Hb in Hnames. by injection Hnames. }
  apply list_elem_of_lookup_2, elem_of_report in Ha as [_ ([k1 s1] & Hin1 & ->)].
  apply list_elem_of_lookup_2, elem_of_report in Hb as [_ ([k2 s2] & Hin2 & ->)].
  destruct Hv1 as [Ho1 Hi1], Hv2 as [Ho2 Hi2].
  rewrite !recordOf_name in Hn. rewrite Ho1 in Hin1. rewrite Ho2 in Hin2.
  pose proof (keyed_name_inj _ _ _ Hkey Hin1 Hin2 Hn) as [= -> ->].
  apply recordOf_sameRecord. by rewrite Hi1, Hi2.
Qed.

End Report.

(** ** Loops with effects *)
Section Loops.
Context {A St : Type}.

Lemma foldM_inv (f : St → A → M St) (I : St → Prop) (l : list A) :
  (∀ s x w s' w', x ∈ l → I s → f s x w = (inr s', w') → I s') →
  ∀ s w s' w', I s → foldM f l s w = (inr s', w') → I s'.
Proof.
  induction l as [|a l IH]; intros Hstep s w s' w' Hs; simpl.
  - by intros [= <- <-].
  - unfold bind. destruct (f s a w) as [[e|s1] w1] eqn:Hf; [done|].
    apply IH.
    + intros ????? Hin. apply Hstep. by right.
    + eapply Hstep; [by left | done..].
Qed.

Lemma foldMi_inv (f : St → nat → A → M St) (I : St → Prop) (l : list A) i0 :
  (∀ s j x w s' w', l !! j = Some x → I s →
     f s (i0 + j)%nat x w = (inr s', w') → I s') →
  ∀ s w s' w', I s → foldMi f i0 l s w = (inr s', w') → I s'.
Proof.
  revert i0. induction l as [|a l IH]; intros i0 Hstep s w s' w' Hs; simpl.
  - by intros [= <- <-].
  - unfold bind. destruct (f s i0 a w) as [[e|s1] w1] eqn:Hf; [done|].
    apply IH.
    + intros s2 j x w2 s3 w3 Hj. specialize (Hstep s2 (S j) x w2 s3 w3 Hj).
      by replace (i0 + S j)%nat with (S i0 + j)%nat in Hstep by lia.
    + eapply (Hstep s 0%nat a); [done..|]. by rewrite Nat.add_0_r.
Qed.

(** A loop whose every turn returns, returns. *)
Lemma foldM_total (f : St → A → M St) (I : St → Prop) (l : list A) :
  (∀ s x w, x ∈ l → I s → ∃ s' w', f s x w = (inr s', w') ∧ I s') →
  ∀ s w, I s → ∃ s' w', foldM f l s w = (inr s', w') ∧ I s'.
Proof.
  induction l as [|a l IH]; intros Hstep s w Hs; simpl.
  - by exists s, w.
  - unfold bind. destruct (Hstep s a w) as (s1 & w1 & -> & Hs1); [by left|done|].
    apply IH; [|done]. intros ??? Hin. apply Hstep. by right.
Qed.

Lemma foldMi_total (f : St → nat → A → M St) (I : St → Prop) (l : list A) i0 :
  (∀ s i x w, I s → ∃ s' w', f s i x w = (inr s', w') ∧ I s') →
  ∀ s w, I s → ∃ s' w', foldMi f i0 l s w = (inr s', w') ∧ I s'.
Proof.
  intros Hstep. revert i0. induction l as [|a l IH]; intros i0 s w Hs; simpl.
  - by exists s, w.
  - unfold bind. destruct (Hstep s i0 a w) as (s1 & w1 & -> & Hs1); [done|].
    by apply IH.
Qed.

End Loops.

(** ** findTranslatableStrings *)
Section Parsing.
Context `{!Env}.

Implicit Types (strResources : localeStringsMap) (str : xmlStringResource)
  (strArr : xmlStringArrayResource) (w : world).

Lemma IsTranslatable_false_literal (res : xmlTranslatable) :
  Translatable res = "false" → IsTranslatable res = false.
Proof. unfold IsTranslatable. by intros ->. Qed.

(** What one turn of the loop over the flat strings does, in full. *)
Lemma stringBody_eq file content locale strResources entries str w :
  strResources !! locale = Some entries →
  stringBody file content locale strResources str w
  = if IsTranslatable (str_xmlTranslatable str) then
      match provenance file content (Value str) with
      | inr t =>
          (inr (<[locale := <[Name str := withLastModified str t]> entries]>
                  strResources), w)
      | inl e =>
          (inr (<[locale :=
                   <[Name str := withLastModified str (clock (ticks w))]> entries]>
                  strResources),
           afterFallback e w)
      end
    else (inr strResources, w).
Proof.
  intros Hl. unfold stringBody.
  destruct (IsTranslatable (str_xmlTranslatable str)); simpl; [|done].
  destruct (provenance file content (Value str)) as [e|t];
    unfold bind, ret, warn, Now, assignEntry; simpl; by rewrite Hl.
Qed.

Lemma itemBody_eq file content locale strArr strResources entries i item w :
  strResources !! locale = Some entries →
  let named := withName item (itemName strArr i) in
  itemBody file content locale strArr strResources i item w
  = match provenance file content (Value item) with
    | inr t =>
        (inr (<[locale := <[itemName strArr i := withLastModified named t]> entries]>
                strResources), w)
    | inl e =>
        (inr (<[locale :=
                 <[itemName strArr i := withLastModified named (clock (ticks w))]>
                   entries]> strResources),
         afterFallback e w)
    end.
Proof.
  intros Hl named. unfold itemBody. cbn [withName Value].
  destruct (provenance file content (Value item)) as [e|t];
    unfold bind, ret, warn, Now, assignEntry; simpl; by rewrite Hl.
Qed.

(** The three ways in which the provenance of a text fails. *)
Lemma provenance_not_found file content v e :
  getLineRange content v = inl e → provenance file content v = inl e.
Proof. unfold provenance. by intros ->. Qed.

Lemma getLastModifiedTime_run_failed file lineStart lineCount :
  sh (Dir file)
     ("git blame -p -L " +:+ strconv.Itoa lineStart +:+ ",+"
        +:+ strconv.Itoa lineCount +:+ " " +:+ Base file
        +:+ " | grep committer-time | awk '{ print $2 }'") = None →
  getLastModifiedTime file lineStart lineCount
  = inl (errLastModified file lineStart lineCount RunFailed).
Proof. unfold getLastModifiedTime. by intros ->. Qed.

Lemma latestLoop_bad file lineStart lineCount lines latest timestampStr ne :
  timestampStr ∈ lines → strconv.ParseInt10 timestampStr = inl ne →
  ∃ e, latestLoop file lineStart lineCount lines latest = inl e.
Proof.
  intros Hin Hbad. revert latest.
  induction lines as [|l lines IH]; intros latest; [by inversion Hin|].
  simpl. destruct (strconv.ParseInt10 l) as [ne'|ts] eqn:Hl; [eauto|].
  apply IH. inversion Hin; subst; [congruence | done].
Qed.

Lemma getLastModifiedTime_bad_timestamp file lineStart lineCount stdout timestampStr ne :
  sh (Dir file)
     ("git blame -p -L " +:+ strconv.Itoa lineStart +:+ ",+"
        +:+ strconv.Itoa lineCount +:+ " " +:+ Base file
        +:+ " | grep committer-time | awk '{ print $2 }'") = Some stdout →
  timestampStr ∈ strings.Split (TrimSpace stdout) (String newline EmptyString) →
  strconv.ParseInt10 timestampStr = inl ne →
  ∃ e, getLastModifiedTime file lineStart lineCount = inl e.
Proof.
  intros Hsh Hin Hbad. unfold getLastModifiedTime. rewrite Hsh.
  destruct (latestLoop_bad file lineStart lineCount _ 0 _ _ Hin Hbad) as [e ->].
  eauto.
Qed.

(** *** Where the entries of the index come from *)

Lemma allFromCatalog_insert files strResources locale entries k e :
  allFromCatalog files strResources →
  strResources !! locale = Some entries →
  fromCatalog files locale k e →
  allFromCatalog files (<[locale := <[k := e]> entries]> strResources).
Proof.
  intros Hall Hl He locale' entries' k' e' Hl' He'.
  destruct (decide (locale' = locale)) as [->|Hne].
  - rewrite lookup_insert_eq in Hl'. injection Hl' as <-.
    destruct (decide (k' = k)) as [->|Hnk].
    + rewrite lookup_insert_eq in He'. by injection He' as <-.
    + rewrite lookup_insert_ne in He' by done. by eapply Hall.
  - rewrite lookup_insert_ne in Hl' by done. by eapply Hall.
Qed.

Lemma allFromCatalog_ensure files strResources locale :
  allFromCatalog files strResources →
  allFromCatalog files (<[locale := ∅]> strResources).
Proof.
  intros Hall locale' entries' k' e' Hl' He'.
  destruct (decide (locale' = locale)) as [->|Hne].
  - rewrite lookup_insert_eq in Hl'. injection Hl' as <-. by rewrite lookup_empty in He'.
  - rewrite lookup_insert_ne in Hl' by done. by eapply Hall.
Qed.

Lemma stringBody_nil_map file content locale strResources str w :
  strResources !! locale = None →
  IsTranslatable (str_xmlTranslatable str) = true →
  ∃ w', stringBody file content locale strResources str w = (inl panicNilMap, w').
Proof.
  intros Hl Htr. unfold stringBody. rewrite Htr. simpl.
  destruct (provenance file content (Value str));
    unfold bind, ret, warn, Now, assignEntry; simpl; rewrite Hl; eauto.
Qed.

Lemma itemBody_nil_map file content locale strArr strResources i item w :
  strResources !! locale = None →
  ∃ w', itemBody file content locale strArr strResources i item w
        = (inl panicNilMap, w').
Proof.
  intros Hl. unfold itemBody. cbn [withName Value].
  destruct (provenance file content (Value item));
    unfold bind, ret, warn, Now, assignEntry; simpl; rewrite Hl; eauto.
Qed.

Lemma stringBody_inv files file content resources strResources str w strResources' w' :
  file ∈ files → ReadFile file = Some content →
  Unmarshal content = Some resources → str ∈ Strings resources →
  allFromCatalog files strResources →
  stringBody file content (getLocaleForValuesFile file) strResources str w
    = (inr strResources', w') →
  allFromCatalog files strResources'.
Proof.
  intros Hf Hr Hu Hin Hall Hstep.
  destruct (IsTranslatable (str_xmlTranslatable str)) eqn:Htr.
  - destruct (strResources !! getLocaleForValuesFile file) as [entries|] eqn:Hl.
    + rewrite (stringBody_eq _ _ _ _ entries) in Hstep by done. rewrite Htr in Hstep.
      destruct (provenance file content (Value str)); injection Hstep as <- <-;
        (apply allFromCatalog_insert; [done..|by eapply from_string]).
    + destruct (stringBody_nil_map file content _ _ str w Hl Htr) as [w1 Hp].
      congruence.
  - unfold stringBody in Hstep. rewrite Htr in Hstep. by injection Hstep as <- <-.
Qed.

Lemma itemBody_inv files file content resources strArr strResources i item w
    strResources' w' :
  file ∈ files → ReadFile file = Some content →
  Unmarshal content = Some resources → strArr ∈ StringArrays resources →
  IsTranslatable (arr_xmlTranslatable strArr) = true →
  Items strArr !! i = Some item →
  allFromCatalog files strResources →
  itemBody file content (getLocaleForValuesFile file) strArr strResources i item w
    = (inr strResources', w') →
  allFromCatalog files strResources'.
Proof.
  intros Hf Hr Hu Hin Htr Hi Hall Hstep.
  destruct (strResources !! getLocaleForValuesFile file) as [entries|] eqn:Hl.
  - rewrite (itemBody_eq _ _ _ _ _ entries) in Hstep by done.
    destruct (provenance file content (Value item)); injection Hstep as <- <-;
      (apply allFromCatalog_insert; [done..|by eapply from_item]).
  - destruct (itemBody_nil_map file content _ strArr _ i item w Hl) as [w1 Hp].
    congruence.
Qed.

Lemma arrayBody_inv files file content resources strResources strArr w strResources' w' :
  file ∈ files → ReadFile file = Some content →
  Unmarshal content = Some resources → strArr ∈ StringArrays resources →
  allFromCatalog files strResources →
  arrayBody file content (getLocaleForValuesFile file) strResources strArr w
    = (inr strResources', w') →
  allFromCatalog files strResources'.
Proof.
  intros Hf Hr Hu Hin Hall. unfold arrayBody.
  destruct (IsTranslatable (arr_xmlTranslatable strArr)) eqn:Htr; simpl.
  - apply (foldMi_inv _ (allFromCatalog files)); [|done].
    intros s j x w1 s1 w2 Hj Hs. by eapply itemBody_inv.
  - by intros [= <- <-].
Qed.

Lemma fileBody_inv files file strResources w strResources' w' :
  file ∈ files → allFromCatalog files strResources →
  fileBody strResources file w = (inr strResources', w') →
  allFromCatalog files strResources'.
Proof.
  intros Hf Hall. unfold fileBody.
  destruct (ReadFile file) as [content|] eqn:Hr; [|done].
  destruct (Unmarshal content) as [resources|] eqn:Hu; [|done].
  set (s0 := match strResources !! getLocaleForValuesFile file with
             | Some _ => strResources | None => _ end).
  assert (allFromCatalog files s0) as Hs0.
  { subst s0. destruct (strResources !! getLocaleForValuesFile file); [done|].
    destruct (0 <? _)%nat; [by apply allFromCatalog_ensure | done]. }
  unfold bind.
  destruct (foldM _ (Strings resources) s0 w) as [[e|s1] w1] eqn:Hs; [done|].
  intros Harr.
  eapply (foldM_inv _ (allFromCatalog files)); [| |exact Harr].
  - intros. by eapply arrayBody_inv.
  - eapply (foldM_inv _ (allFromCatalog files)); [| |exact Hs]; [|done].
    intros. by eapply stringBody_inv.
Qed.

Lemma findTranslatableStrings_inv files w strResources w' :
  findTranslatableStrings files w = (inr strResources, w') →
  allFromCatalog files strResources.
Proof.
  unfold findTranslatableStrings.
  apply (foldM_inv _ (allFromCatalog files)).
  - intros. by eapply fileBody_inv.
  - intros ???? Hl. by rewrite lookup_empty in Hl.
Qed.

Lemma fromCatalog_keyed files locale k e : fromCatalog files locale k e → Name e = k.
Proof. by destruct 1. Qed.

(** The index that [findTranslatableStrings] returns is keyed by name. *)
Lemma findTranslatableStrings_keyed files w strResources w' locale entries :
  findTranslatableStrings files w = (inr strResources, w') →
  strResources !! locale = Some entries → keyedByName entries.
Proof.
  intros Hrun Hl k e He. eapply fromCatalog_keyed.
  by eapply findTranslatableStrings_inv.
Qed.

(** *** The parse goes on *)

Lemma stringBody_total file content locale strResources str w :
  is_Some (strResources !! locale) →
  ∃ strResources' w',
    stringBody file content locale strResources str w = (inr strResources', w')
    ∧ is_Some (strResources' !! locale).
Proof.
  intros [entries Hl]. rewrite (stringBody_eq _ _ _ _ entries) by done.
  destruct (IsTranslatable _); [|by eauto].
  destruct (provenance _ _ _); do 2 eexists; (split; [done|]);
    by rewrite lookup_insert_eq.
Qed.

Lemma itemBody_total file content locale strArr strResources i item w :
  is_Some (strResources !! locale) →
  ∃ strResources' w',
    itemBody file content locale strArr strResources i item w = (inr strResources', w')
    ∧ is_Some (strResources' !! locale).
Proof.
  intros [entries Hl]. rewrite (itemBody_eq _ _ _ _ _ entries) by done.
  destruct (provenance _ _ _); do 2 eexists; (split; [done|]);
    by rewrite lookup_insert_eq.
Qed.

Lemma arrayBody_total file content locale strResources strArr w :
  is_Some (strResources !! locale) →
  ∃ strResources' w',
    arrayBody file content locale strResources strArr w = (inr strResources', w')
    ∧ is_Some (strResources' !! locale).
Proof.
  intros Hl. unfold arrayBody. destruct (IsTranslatable _); simpl; [|by eauto].
  apply (foldMi_total _ (λ s, is_Some (s !! locale))); [|done].
  intros. by apply itemBody_total.
Qed.

Lemma fileBody_total strResources file content resources w :
  ReadFile file = Some content → Unmarshal content = Some resources →
  ∃ strResources' w', fileBody strResources file w = (inr strResources', w').
Proof.
  intros Hr Hu. unfold fileBody. rewrite Hr, Hu.
  set (locale := getLocaleForValuesFile file).
  set (s0 := match strResources !! locale with
             | Some _ => strResources | None => _ end).
  destruct (Strings resources) as [|str strs] eqn:Hstrs;
    [destruct (StringArrays resources) as [|arr arrs] eqn:Harrs|].
  - simpl. unfold bind, ret. eauto.
  - assert (is_Some (s0 !! locale)) as Hs0.
    { subst s0. destruct (strResources !! locale) eqn:Hl; [by rewrite Hl|].
      simpl. by rewrite lookup_insert_eq. }
    cbn [foldM]. unfold bind at 1, ret at 1.
    destruct (foldM_total (arrayBody file content locale)
                (λ s, is_Some (s !! locale)) (arr :: arrs)
                ltac:(intros; by apply arrayBody_total) s0 w Hs0)
      as (s1 & w1 & Hrun & _).
    eauto.
  - assert (is_Some (s0 !! locale)) as Hs0.
    { subst s0. destruct (strResources !! locale) eqn:Hl; [by rewrite Hl|].
      simpl. by rewrite lookup_insert_eq. }
    destruct (foldM_total (stringBody file content locale)
                (λ s, is_Some (s !! locale)) (str :: strs)
                ltac:(intros; by apply stringBody_total) s0 w Hs0)
      as (s1 & w1 & Hrun1 & Hs1).
    destruct (foldM_total (arrayBody file content locale)
                (λ s, is_Some (s !! locale)) (StringArrays resources)
                ltac:(intros; by apply arrayBody_total) s1 w1 Hs1)
      as (s2 & w2 & Hrun2 & _).
    unfold bind at 1. rewrite Hrun1. eauto.
Qed.

(** With every catalog readable and well-formed,
    [findTranslatableStrings] returns an index: no failure of a
    provenance, and no assignment into a missing map, stops it. *)
Lemma findTranslatableStrings_total files w :
  (∀ file, file ∈ files →
     ∃ content resources,
       ReadFile file = Some content ∧ Unmarshal content = Some resources) →
  ∃ strResources w', findTranslatableStrings files w = (inr strResources, w').
Proof.
  intros Hok. unfold findTranslatableStrings.
  destruct (foldM_total fileBody (λ _, True) files) with (s := (∅ : localeStringsMap)) (w := w)
    as (s1 & w1 & Hrun & _); [|done|eauto].
  intros s file w0 Hin _. destruct (Hok file Hin) as (content & resources & Hr & Hu).
  destruct (fileBody_total s file content resources w0 Hr Hu) as (s' & w' & ->).
  eauto.
Qed.

(** C4, as amended. A flat string marked non-translatable, and a
    collection marked non-translatable with all its items, never go
    into the index: [translatable="false"] makes [IsTranslatable]
    false; the loop skips a flat string that is not translatable, and a
    collection that is not translatable with all its items, leaving the
    index as it was; and every entry of the index that
    [findTranslatableStrings] returns comes from a translatable flat
    string or from an item of a translatable collection of one of the
    catalogs. The attribute of an item itself is not looked at: an
    entry of the index that is marked non-translatable is an item,
    marked so itself, of a translatable collection. *)
Theorem nonTranslatable_never_indexed :
  (∀ res, Translatable res = "false" → IsTranslatable res = false)
  ∧ (∀ file content locale strResources str w,
       IsTranslatable (str_xmlTranslatable str) = false →
       stringBody file content locale strResources str w = (inr strResources, w))
  ∧ (∀ file content locale strResources strArr w,
       IsTranslatable (arr_xmlTranslatable strArr) = false →
       arrayBody file content locale strResources strArr w = (inr strResources, w))
  ∧ (∀ files w strResources w' locale entries k e,
       findTranslatableStrings files w = (inr strResources, w') →
       strResources !! locale = Some entries → entries !! k = Some e →
       fromCatalog files locale k e)
  ∧ (∀ files w strResources w' locale entries k e,
       findTranslatableStrings files w = (inr strResources, w') →
       strResources !! locale = Some entries → entries !! k = Some e →
       IsTranslatable (str_xmlTranslatable e) = false →
       ∃ file content resources strArr i item t,
         file ∈ files ∧ ReadFile file = Some content
         ∧ Unmarshal content = Some resources
         ∧ strArr ∈ StringArrays resources
         ∧ IsTranslatable (arr_xmlTranslatable strArr) = true
         ∧ Items strArr !! i = Some item
         ∧ IsTranslatable (str_xmlTranslatable item) = false
         ∧ locale = getLocaleForValuesFile file ∧ k = itemName strArr i
         ∧ e = withLastModified (withName item (itemName strArr i)) t).
Proof.
  split_and!.
  - apply IsTranslatable_false_literal.
  - intros * Htr. unfold stringBody. by rewrite Htr.
  - intros * Htr. unfold arrayBody. by rewrite Htr.
  - intros * Hrun Hl He. by eapply findTranslatableStrings_inv.
  - intros * Hrun Hl He Hno.
    pose proof (findTranslatableStrings_inv _ _ _ _ Hrun _ _ _ _ Hl He) as Hfrom.
    destruct Hfrom as [file content resources str t Hf Hr Hu Hin Htr
                      |file content resources strArr i item t Hf Hr Hu Hin Htr Hi].
    + cbn [withLastModified str_xmlTranslatable] in Hno. congruence.
    + cbn [withLastModified withName str_xmlTranslatable] in Hno.
      exists file, content, resources, strArr, i, item, t. by split_and!.
Qed.

End Parsing.

(** ** The small project, run *)
Section DemoRun.
Import Demo.

Example getLineRange_Green :
  getLineRange defaultContent "Green" = inr (7, 1).
Proof. reflexivity. Qed.

Example getLineRange_two_lines :
  getLineRange defaultContent
    ("Red</item>" +:+ String newline EmptyString +:+ "    <item>Green")
  = inr (6, 2).
Proof. reflexivity. Qed.

(** U+00E9 is one character of two bytes. *)
Example getLineRange_one_character :
  utf8.RuneCountInString (String "195" (String "169" EmptyString)) = 1
  ∧ getLineRange (String "195" (String "169" EmptyString)) ""
    = inl (errNotFound "").
Proof. split; reflexivity. Qed.

Example locales_of_directories :
  getLocaleForValuesFile "res/values/strings.xml" = "default"
  ∧ getLocaleForValuesFile "res/values-fr/strings.xml" = "fr"
  ∧ getLocaleForValuesFile "res/values-zh-rCN/strings.xml" = "zh-rCN"
  ∧ getLocaleForValuesFile "res/valuesFoo/strings.xml" = "default"
  ∧ getLocaleForValuesFile "res/VALUES/strings.xml" = "default".
Proof. repeat split; reflexivity. Qed.

(** [IsTranslatable] folds the case of the attribute. *)
Example IsTranslatable_cases :
  IsTranslatable {| Translatable := "false" |} = false
  ∧ IsTranslatable {| Translatable := "FALSE" |} = false
  ∧ IsTranslatable {| Translatable := "" |} = true
  ∧ IsTranslatable {| Translatable := "true" |} = true.
Proof. repeat split; reflexivity. Qed.

(** [time.Unix] on the timestamp of a commit, and on the greatest
    timestamp that [ParseInt] accepts, where the seconds wrap. *)
Example Unix_cases :
  time.Unix 1600000000 0 = 1600000000 * 1000000000
  ∧ time.Before (time.Unix (2 ^ 63 - 1) 0) (time.Unix 0 0) = true.
Proof. split; reflexivity. Qed.

(** The parse of the three catalogs: [build] is left out, the item of
    the German catalog whose history git cannot read is dated by the
    clock, with a warning. *)
Example findTranslatableStrings_demo :
  findTranslatableStrings files world0
  = (inr index,
     {| stderr := [errLastModified deFile 4 1 RunFailed]; ticks := 1 |}).
Proof. vm_compute. reflexivity. Qed.

Example mainReport_demo :
  mainReport index walk1
  = inr [ record "app_name" "Demo" ["de"; "fr"] [];
          record "colors[1]" "Green" ["de"] [];
          record "title" "Welcome" [] ["fr"] ].
Proof. vm_compute. reflexivity. Qed.

Example mainReport_no_default :
  mainReport (delete "default" index) walk1 = inl errNoDefaultLocale.
Proof. vm_compute. reflexivity. Qed.

End DemoRun.

(** ** Instances of the theorems, and what the specification gets wrong *)

Lemma mainReport_classifies_witness :
  Demo.index !! defaultLocale = Some Demo.defaultStrings
  ∧ valid_schedule Demo.index Demo.defaultStrings Demo.walk1
  ∧ ∃ report,
      mainReport Demo.index Demo.walk1 = inr report
      ∧ ∀ r, r ∈ report →
          ∃ k str, Demo.defaultStrings !! k = Some str
                   ∧ r = recordOf Demo.index Demo.walk1 (k, str).
Proof.
  assert (Demo.index !! defaultLocale = Some Demo.defaultStrings) as Hd
    by (vm_compute; reflexivity).
  assert (valid_schedule Demo.index Demo.defaultStrings Demo.walk1) as Hv.
  { split; [reflexivity|]. intros k. apply (bool_decide_unpack _). vm_compute. exact I. }
  split; [exact Hd|]. split; [exact Hv|].
  destruct (mainReport_classifies Demo.index Demo.defaultStrings Demo.walk1 Hd Hv)
    as (report & Hrun & Hfrom & _).
  exists report. split; [exact Hrun | exact Hfrom].
Defined.

Lemma getLineRange_first_occurrence_witness :
  "Demo" ≠ ""
  ∧ ∃ pre post,
      first_occurrence "Demo" Demo.defaultContent pre post
      ∧ getLineRange Demo.defaultContent "Demo"
        = inr (1 + newlines pre, 1 + newlines "Demo").
Proof.
  assert ("Demo" ≠ "") as Hne by discriminate.
  split; [exact Hne|].
  destruct (getLineRange_first_occurrence Demo.defaultContent "Demo" Hne)
    as (_ & Hex & Hfirst).
  destruct (Hex (str_take 38 Demo.defaultContent) (str_drop 42 Demo.defaultContent))
    as (pre & post & Hpp); [vm_compute; reflexivity|].
  exists pre, post. split; [exact Hpp | exact (Hfirst pre post Hpp)].
Defined.

Lemma getLineRange_span_contains_witness :
  occurrence "Demo" (Demo.lines ["<resources>"; "Demo"; "</resources>"])
    ("<resources>" +:+ String newline EmptyString)
    (String newline "</resources>")
  ∧ getLineRange (Demo.lines ["<resources>"; "Demo"; "</resources>"]) "Demo"
    = inr (2, 1)
  ∧ cutAt "Demo" (Demo.lines ["<resources>"; "Demo"; "</resources>"])
      ("<resources>" +:+ String newline EmptyString)
      (String newline "</resources>")
  ∧ extractLines (Demo.lines ["<resources>"; "Demo"; "</resources>"]) 2 1 = "Demo".
Proof.
  set (content := Demo.lines ["<resources>"; "Demo"; "</resources>"]).
  set (pre := "<resources>" +:+ String newline EmptyString).
  set (post := String newline "</resources>").
  assert (occurrence "Demo" content pre post) as Hocc by reflexivity.
  assert (getLineRange content "Demo" = inr (2, 1)) as Hrange by reflexivity.
  assert (cutAt "Demo" content pre post) as Hcut.
  { split; [intros _|discriminate].
    exact (proj1 (indexNat_Some content "Demo" 12 eq_refl)). }
  split; [exact Hocc|]. split; [exact Hrange|]. split; [exact Hcut|].
  destruct (proj2 (getLineRange_span_contains _ _ _ _ Hocc) 2 1 Hrange)
    as [_ Hall].
  destruct (Hall pre post Hcut) as (_ & _ & _ & _ & _ & _ & Hexact).
  apply Hexact. split; right; [by exists "<resources>" | by exists "</resources>"].
Defined.

(** C3 as the specification states it fails: the span of [Demo] in a
    line that holds more than [Demo] is that whole line; and the empty
    text, a slice of every content, has no span in a content of one
    character. *)
Lemma getLineRange_span_not_exact :
  (occurrence "Demo" "<string>Demo</string>" "<string>" "</string>"
   ∧ getLineRange "<string>Demo</string>" "Demo" = inr (1, 1)
   ∧ extractLines "<string>Demo</string>" 1 1 = "<string>Demo</string>"
   ∧ extractLines "<string>Demo</string>" 1 1 ≠ "Demo")
  ∧ (occurrence "" "a" "" "a" ∧ getLineRange "a" "" = inl (errNotFound "")).
Proof. repeat split; (reflexivity || discriminate). Qed.

(** C4 as the specification states it fails: the item [kg] of the
    third project is marked [translatable="false"], its collection is
    not; the parse stores the item under the name [units[0]], with its
    mark. *)
Lemma nonTranslatable_item_indexed :
  @ReadFile Demo3.env Demo3.unitsFile = Some Demo3.unitsContent
  ∧ @Unmarshal Demo3.env Demo3.unitsContent = Some Demo3.unitsResources
  ∧ @findTranslatableStrings Demo3.env [Demo3.unitsFile] Demo.world0
    = (inr Demo3.index, Demo.world0)
  ∧ lookupEntry Demo3.index "default" "units[0]" = Some Demo3.kg
  ∧ Translatable (str_xmlTranslatable Demo3.kg) = "false"
  ∧ @IsTranslatable Demo3.env (str_xmlTranslatable Demo3.kg) = false
  ∧ ¬ (∀ locale k e,
         lookupEntry Demo3.index locale k = Some e →
         @IsTranslatable Demo3.env (str_xmlTranslatable e) = true).
Proof.
  split_and!; try (vm_compute; reflexivity).
  intros Hall. specialize (Hall "default" "units[0]" Demo3.kg eq_refl).
  vm_compute in Hall. discriminate.
Qed.

Lemma mainReport_two_runs_witness :
  Demo.index !! defaultLocale = Some Demo.defaultStrings
  ∧ keyedByName Demo.defaultStrings
  ∧ valid_schedule Demo.index Demo.defaultStrings Demo.walk1
  ∧ valid_schedule Demo.index Demo.defaultStrings Demo.walk2
  ∧ ∃ report1 report2,
      mainReport Demo.index Demo.walk1 = inr report1
      ∧ mainReport Demo.index Demo.walk2 = inr report2
      ∧ Forall2 sameRecord report1 report2.
Proof.
  assert (Demo.index !! defaultLocale = Some Demo.defaultStrings) as Hd
    by (vm_compute; reflexivity).
  assert (keyedByName Demo.defaultStrings) as Hkey.
  { eapply (findTranslatableStrings_keyed Demo.files Demo.world0); [|exact Hd].
    vm_compute. reflexivity. }
  assert (valid_schedule Demo.index Demo.defaultStrings Demo.walk1) as Hv1.
  { split; [reflexivity|]. intros k. apply (bool_decide_unpack _). vm_compute. exact I. }
  assert (valid_schedule Demo.index Demo.defaultStrings Demo.walk2) as Hv2.
  { split; [reflexivity|]. intros k. apply (bool_decide_unpack _). vm_compute. exact I. }
  split; [exact Hd|]. split; [exact Hkey|]. split; [exact Hv1|]. split; [exact Hv2|].
  exact (mainReport_two_runs Demo.index Demo.defaultStrings Demo.walk1 Demo.walk2
           Hd Hkey Hv1 Hv2).
Defined.

(** C6 as the specification states it fails: two runs on the index of the
    small project, which walk its locales in different orders, list the
    locales that miss [app_name] in different orders. *)
Lemma mainReport_order_differs :
  valid_schedule Demo.index Demo.defaultStrings Demo.walk1
  ∧ valid_schedule Demo.index Demo.defaultStrings Demo.walk2
  ∧ mainReport Demo.index Demo.walk1
    = inr [ Demo.record "app_name" "Demo" ["de"; "fr"] [];
            Demo.record "colors[1]" "Green" ["de"] [];
            Demo.record "title" "Welcome" [] ["fr"] ]
  ∧ mainReport Demo.index Demo.walk2
    = inr [ Demo.record "app_name" "Demo" ["fr"; "de"] [];
            Demo.record "colors[1]" "Green" ["de"] [];
            Demo.record "title" "Welcome" [] ["fr"] ]
  ∧ mainReport Demo.index Demo.walk1 ≠ mainReport Demo.index Demo.walk2.
Proof.
  split_and!.
  - split; [reflexivity|]. intros k. apply (bool_decide_unpack _). vm_compute. exact I.
  - split; [reflexivity|]. intros k. apply (bool_decide_unpack _). vm_compute. exact I.
  - vm_compute. reflexivity.
  - vm_compute. reflexivity.
  - vm_compute. discriminate.
Qed.

Lemma mainReport_sorted_witness :
  mainReport Demo.index Demo.walk1
  = inr [ Demo.record "app_name" "Demo" ["de"; "fr"] [];
          Demo.record "colors[1]" "Green" ["de"] [];
          Demo.record "title" "Welcome" [] ["fr"] ]
  ∧ ∀ i a b,
      [ Demo.record "app_name" "Demo" ["de"; "fr"] [];
        Demo.record "colors[1]" "Green" ["de"] [];
        Demo.record "title" "Welcome" [] ["fr"] ] !! i = Some a →
      [ Demo.record "app_name" "Demo" ["de"; "fr"] [];
        Demo.record "colors[1]" "Green" ["de"] [];
        Demo.record "title" "Welcome" [] ["fr"] ] !! S i = Some b →
      String.leb (res_Name a) (res_Name b) = true.
Proof.
  assert (mainReport Demo.index Demo.walk1
          = inr [ Demo.record "app_name" "Demo" ["de"; "fr"] [];
                  Demo.record "colors[1]" "Green" ["de"] [];
                  Demo.record "title" "Welcome" [] ["fr"] ]) as Hrun
    by (vm_compute; reflexivity).
  split; [exact Hrun|].
  exact (mainReport_sorted Demo.index Demo.walk1 _ Hrun).
Defined.

(** ** Further properties of the program *)

(** *** getLineRange: the span lies in the file *)
Section SpanBounds.

Lemma newlines_append s t : newlines (s +:+ t) = newlines s + newlines t.
Proof.
  induction s as [|c s IH]; simpl; [done|].
  rewrite IH. destruct (Ascii.eqb c newline); lia.
Qed.

Lemma newlines_take_le n s : newlines (str_take n s) ≤ newlines s.
Proof.
  rewrite <- (str_take_drop n s) at 2. rewrite newlines_append.
  pose proof (newlines_nonneg (str_drop n s)). lia.
Qed.

(** X1. A span that [getLineRange] returns names lines of the content:
    its first line is at least 1, it has at least one line, and its last
    line is at most the number of lines of the content, one more than
    its newlines. *)
Theorem getLineRange_span_in_file fileContent searchTerm start count :
  getLineRange fileContent searchTerm = inr (start, count) →
  1 ≤ start ∧ 1 ≤ count ∧ start + count - 1 ≤ 1 + newlines fileContent.
Proof.
  destruct (decide (searchTerm = "")) as [->|Hne].
  - rewrite getLineRange_empty.
    destruct (2 <=? utf8.RuneCountInString fileContent); [|done].
    intros [= <- <-]. unfold firstCharacter.
    pose proof (newlines_take_le (utf8.DecodeRuneInString_size fileContent) fileContent).
    pose proof (newlines_nonneg
                  (str_take (utf8.DecodeRuneInString_size fileContent) fileContent)).
    lia.
  - destruct (strings.indexNat fileContent searchTerm) as [i|] eqn:Hi.
    + rewrite (getLineRange_found _ _ i) by done. intros [= <- <-].
      apply indexNat_Some in Hi as [[Hocc _] _]. unfold occurrence in Hocc.
      pose proof (f_equal newlines Hocc) as Hn. rewrite !newlines_append in Hn.
      pose proof (newlines_nonneg (str_take i fileContent)).
      pose proof (newlines_nonneg searchTerm).
      pose proof (newlines_nonneg
                    (str_drop (i + String.length searchTerm) fileContent)).
      lia.
    + by rewrite getLineRange_not_found.
Qed.

End SpanBounds.

(** *** getLastModifiedTime: the latest commit *)
Section LatestCommit.
Context `{!Env}.

Lemma latestLoop_ok file lineStart lineCount lines tss latest :
  Forall2 (λ l ts, strconv.ParseInt10 l = inr ts) lines tss →
  ∃ m, latestLoop file lineStart lineCount lines latest = inr m
       ∧ latest ≤ m ∧ (∀ ts, ts ∈ tss → ts ≤ m) ∧ (m = latest ∨ m ∈ tss).
Proof.
  intros Hall. revert latest.
  induction Hall as [|l ts lines tss Hl Hall IH]; intros latest; simpl.
  - exists latest. split_and!; [done|lia| |by left]. by intros ? ?%elem_of_nil.
  - rewrite Hl.
    destruct (IH (if latest <? ts then ts else latest)) as (m & -> & Hle & Hmax & Hin).
    exists m. split; [done|].
    destruct (Z.ltb_spec latest ts); split_and!; try lia.
    + intros x [->|?]%elem_of_cons; [lia | by apply Hmax].
    + destruct Hin as [->|?]; right; [by left | by right].
    + intros x [->|?]%elem_of_cons; [lia | by apply Hmax].
    + destruct Hin as [->|?]; [by left | right; by right].
Qed.

(** X2. When the command succeeds and every line of its trimmed output
    is a timestamp, [getLastModifiedTime] returns the time of the
    greatest of them, whatever their order, and the time 0 of the Unix
    epoch when none of them is positive. *)
Theorem getLastModifiedTime_latest file lineStart lineCount stdout tss :
  sh (Dir file) (blameCommand file lineStart lineCount) = Some stdout →
  Forall2 (λ l ts, strconv.ParseInt10 l = inr ts)
    (strings.Split (TrimSpace stdout) (String newline EmptyString)) tss →
  ∃ m, getLastModifiedTime file lineStart lineCount = inr (time.Unix m 0)
       ∧ 0 ≤ m ∧ (∀ ts, ts ∈ tss → ts ≤ m) ∧ (m = 0 ∨ m ∈ tss).
Proof.
  intros Hsh Hall. unfold getLastModifiedTime. fold (blameCommand file lineStart lineCount).
  rewrite Hsh.
  destruct (latestLoop_ok file lineStart lineCount _ _ 0 Hall) as (m & -> & ? & ? & ?).
  eauto.
Qed.

(** X3. When the command succeeds and prints nothing but white space,
    [getLastModifiedTime] fails: the empty output is one empty line,
    which is no timestamp. *)
Theorem getLastModifiedTime_no_output file lineStart lineCount stdout :
  sh (Dir file) (blameCommand file lineStart lineCount) = Some stdout →
  TrimSpace stdout = "" →
  getLastModifiedTime file lineStart lineCount
  = inl (errLastModified file lineStart lineCount
           (BadTimestamp strconv.ErrSyntax "")).
Proof.
  intros Hsh Htrim. unfold getLastModifiedTime.
  fold (blameCommand file lineStart lineCount). by rewrite Hsh, Htrim.
Qed.

End LatestCommit.

(** *** More on loops with effects *)
Section MoreLoops.
Context {A St : Type}.

Lemma foldM_app (f : St → A → M St) (l1 l2 : list A) (s : St) (w : world) :
  foldM f (l1 ++ l2) s w = bind (foldM f l1 s) (foldM f l2) w.
Proof.
  revert s w. induction l1 as [|a l1 IH]; intros s w; simpl.
  - reflexivity.
  - unfold bind in *. destruct (f s a w) as [[e|s1] w1]; [done|]. apply IH.
Qed.

(** What every turn does to the world, the loop does, whatever its
    outcome. *)
Lemma foldM_world (f : St → A → M St) (R : relation world) `{!PreOrder R}
    (l : list A) :
  (∀ s x w r w', f s x w = (r, w') → R w w') →
  ∀ s w r w', foldM f l s w = (r, w') → R w w'.
Proof.
  intros Hstep. induction l as [|a l IH]; intros s w r w'; simpl.
  - by intros [= <- <-].
  - unfold bind. destruct (f s a w) as [[e|s1] w1] eqn:Hf.
    + intros [= <- <-]. by eapply Hstep.
    + intros Hrest. etrans; [by eapply Hstep | by eapply IH].
Qed.

Lemma foldMi_world (f : St → nat → A → M St) (R : relation world) `{!PreOrder R}
    (l : list A) :
  (∀ s i x w r w', f s i x w = (r, w') → R w w') →
  ∀ i0 s w r w', foldMi f i0 l s w = (r, w') → R w w'.
Proof.
  intros Hstep. induction l as [|a l IH]; intros i0 s w r w'; simpl.
  - by intros [= <- <-].
  - unfold bind. destruct (f s i0 a w) as [[e|s1] w1] eqn:Hf.
    + intros [= <- <-]. by eapply Hstep.
    + intros Hrest. etrans; [by eapply Hstep | by eapply IH].
Qed.

(** What a turn establishes for its element, and later turns keep, holds
    for every element when the loop returns. *)
Lemma foldM_each (f : St → A → M St) (Q : A → St → Prop) (R : relation St)
    `{!PreOrder R} (l : list A) :
  (∀ s x w s' w', x ∈ l → f s x w = (inr s', w') → R s s' ∧ Q x s') →
  (∀ x s s', Q x s → R s s' → Q x s') →
  ∀ s w s' w', foldM f l s w = (inr s', w') → R s s' ∧ ∀ x, x ∈ l → Q x s'.
Proof.
  intros Hstep Hkeep. induction l as [|a l IH]; intros s w s' w'; simpl.
  - intros [= <- <-]. split; [done|]. by intros ? ?%elem_of_nil.
  - unfold bind. destruct (f s a w) as [[e|s1] w1] eqn:Hf; [done|]. intros Hrest.
    destruct (Hstep s a w s1 w1) as [HR HQ]; [by left|done|].
    destruct (IH (λ s x w s' w' Hin, Hstep s x w s' w' (list_elem_of_further _ _ _ Hin))
                s1 w1 s' w' Hrest) as [HR' HQ'].
    split; [by etrans|].
    intros x [->|Hin]%elem_of_cons; [by eapply Hkeep | by apply HQ'].
Qed.

Lemma foldMi_each (f : St → nat → A → M St) (Q : nat → A → St → Prop)
    (R : relation St) `{!PreOrder R} (l : list A) :
  (∀ s i x w s' w', f s i x w = (inr s', w') → R s s' ∧ Q i x s') →
  (∀ i x s s', Q i x s → R s s' → Q i x s') →
  ∀ i0 s w s' w', foldMi f i0 l s w = (inr s', w') →
    R s s' ∧ ∀ j x, l !! j = Some x → Q (i0 + j)%nat x s'.
Proof.
  intros Hstep Hkeep. induction l as [|a l IH]; intros i0 s w s' w'; simpl.
  - intros [= <- <-]. split; [done|]. by intros ? ? ?.
  - unfold bind. destruct (f s i0 a w) as [[e|s1] w1] eqn:Hf; [done|]. intros Hrest.
    destruct (Hstep s i0 a w s1 w1 Hf) as [HR HQ].
    destruct (IH (S i0) s1 w1 s' w' Hrest) as [HR' HQ'].
    split; [by etrans|].
    intros [|j] x Hj; simpl in Hj.
    + injection Hj as <-. rewrite Nat.add_0_r. by eapply Hkeep.
    + replace (i0 + S j)%nat with (S i0 + j)%nat by lia. by apply HQ'.
Qed.

(** An invariant of the state and the world together. *)
Lemma foldM_inv2 (f : St → A → M St) (I : St → world → Prop) (l : list A) :
  (∀ s x w s' w', x ∈ l → I s w → f s x w = (inr s', w') → I s' w') →
  ∀ s w s' w', I s w → foldM f l s w = (inr s', w') → I s' w'.
Proof.
  induction l as [|a l IH]; intros Hstep s w s' w' Hs; simpl.
  - by intros [= <- <-].
  - unfold bind. destruct (f s a w) as [[e|s1] w1] eqn:Hf; [done|].
    apply IH.
    + intros ????? Hin. apply Hstep. by right.
    + eapply Hstep; [by left | done..].
Qed.

Lemma foldMi_inv2 (f : St → nat → A → M St) (I : St → world → Prop)
    (l : list A) i0 :
  (∀ s j x w s' w', l !! j = Some x → I s w →
     f s (i0 + j)%nat x w = (inr s', w') → I s' w') →
  ∀ s w s' w', I s w → foldMi f i0 l s w = (inr s', w') → I s' w'.
Proof.
  revert i0. induction l as [|a l IH]; intros i0 Hstep s w s' w' Hs; simpl.
  - by intros [= <- <-].
  - unfold bind. destruct (f s i0 a w) as [[e|s1] w1] eqn:Hf; [done|].
    apply IH.
    + intros s2 j x w2 s3 w3 Hj. specialize (Hstep s2 (S j) x w2 s3 w3 Hj).
      by replace (i0 + S j)%nat with (S i0 + j)%nat in Hstep by lia.
    + eapply (Hstep s 0%nat a); [done..|]. by rewrite Nat.add_0_r.
Qed.

(** What a turn does to the world for its element, [w0] being the
    world in which the run started, and what later turns keep, holds
    for every element when the loop returns. *)
Lemma foldM_each_world (f : St → A → M St) (R : relation world) `{!PreOrder R}
    (Q : A → world → Prop) (w0 : world) (l : list A) :
  (∀ s x w r w', f s x w = (r, w') → R w w') →
  (∀ s x w s' w', x ∈ l → R w0 w → f s x w = (inr s', w') → Q x w') →
  (∀ x w w', Q x w → R w w' → Q x w') →
  ∀ s w s' w', R w0 w → foldM f l s w = (inr s', w') → ∀ x, x ∈ l → Q x w'.
Proof.
  intros Hw Hstep Hkeep. induction l as [|a l IH]; intros s w s' w' H0; simpl.
  - intros _ x Hx. by apply elem_of_nil in Hx.
  - unfold bind. destruct (f s a w) as [[e|s1] w1] eqn:Hf; [done|]. intros Hrest.
    pose proof (Hw _ _ _ _ _ Hf) as H1.
    intros x [->|Hin]%elem_of_cons.
    + eapply Hkeep; [eapply Hstep; [by left|done..]|].
      by eapply (foldM_world f R l Hw).
    + eapply (IH (λ s x w s' w' Hx, Hstep s x w s' w' (list_elem_of_further _ _ _ Hx)));
        [|done..]. by etrans.
Qed.

Lemma foldMi_each_world (f : St → nat → A → M St) (R : relation world)
    `{!PreOrder R} (Q : nat → A → world → Prop) (w0 : world) (l : list A) :
  (∀ s i x w r w', f s i x w = (r, w') → R w w') →
  (∀ s i x w s' w', R w0 w → f s i x w = (inr s', w') → Q i x w') →
  (∀ i x w w', Q i x w → R w w' → Q i x w') →
  ∀ i0 s w s' w', R w0 w → foldMi f i0 l s w = (inr s', w') →
    ∀ j x, l !! j = Some x → Q (i0 + j)%nat x w'.
Proof.
  intros Hw Hstep Hkeep. induction l as [|a l IH]; intros i0 s w s' w' H0; simpl.
  - by intros _ j x ?.
  - unfold bind. destruct (f s i0 a w) as [[e|s1] w1] eqn:Hf; [done|]. intros Hrest.
    pose proof (Hw _ _ _ _ _ _ Hf) as H1.
    intros [|j] x Hj; simpl in Hj.
    + injection Hj as <-. rewrite Nat.add_0_r.
      eapply Hkeep; [by eapply Hstep|]. by eapply (foldMi_world f R l Hw).
    + replace (i0 + S j)%nat with (S i0 + j)%nat by lia.
      eapply IH; [|done..]. by etrans.
Qed.

End MoreLoops.

(** *** findTranslatableStrings: what the index holds *)
Section IndexContents.
Context `{!Env}.

Implicit Types (strResources : localeStringsMap) (str : xmlStringResource)
  (strArr : xmlStringArrayResource) (w : world).

#[local] Instance keeps_preorder : PreOrder keeps.
Proof.
  split.
  - by split.
  - intros m1 m2 m3 [H1 H1'] [H2 H2']. split; eauto.
Qed.

#[local] Instance extends_preorder : PreOrder extends.
Proof.
  split.
  - intros m. split; [reflexivity | done].
  - intros m1 m2 m3 [H1 H1'] [H2 H2']. split; [by etrans | eauto].
Qed.

Lemma insert_extends strResources locale entries k e :
  strResources !! locale = Some entries →
  extends strResources (<[locale := <[k := e]> entries]> strResources)
  ∧ is_Some (lookupEntry (<[locale := <[k := e]> entries]> strResources) locale k).
Proof.
  intros Hl. split; [split; [split|]|].
  - intros loc Hloc. destruct (decide (loc = locale)) as [->|Hne].
    + by rewrite lookup_insert_eq.
    + by rewrite lookup_insert_ne.
  - intros loc k'. unfold lookupEntry. destruct (decide (loc = locale)) as [->|Hne].
    + rewrite lookup_insert_eq, Hl. simpl.
      destruct (decide (k' = k)) as [->|Hnk].
      * by rewrite lookup_insert_eq.
      * by rewrite lookup_insert_ne.
    + by rewrite lookup_insert_ne.
  - intros loc. destruct (decide (loc = locale)) as [->|Hne].
    + by rewrite Hl.
    + by rewrite lookup_insert_ne.
  - unfold lookupEntry. rewrite lookup_insert_eq. simpl. by rewrite lookup_insert_eq.
Qed.

Lemma stringBody_extends file content locale strResources str w strResources' w' :
  stringBody file content locale strResources str w = (inr strResources', w') →
  extends strResources strResources'
  ∧ (IsTranslatable (str_xmlTranslatable str) = true →
       is_Some (lookupEntry strResources' locale (Name str))).
Proof.
  intros Hstep. destruct (IsTranslatable (str_xmlTranslatable str)) eqn:Htr.
  - destruct (strResources !! locale) as [entries|] eqn:Hl.
    + rewrite (stringBody_eq _ _ _ _ entries) in Hstep by done. rewrite Htr in Hstep.
      destruct (provenance file content (Value str)); injection Hstep as <- <-;
        (split; [by apply insert_extends | intros _; by apply insert_extends]).
    + destruct (stringBody_nil_map file content _ _ str w Hl Htr) as [w1 Hp].
      congruence.
  - unfold stringBody in Hstep. rewrite Htr in Hstep. injection Hstep as <- <-.
    split; [reflexivity | done].
Qed.

Lemma itemBody_extends file content locale strArr strResources i item w
    strResources' w' :
  itemBody file content locale strArr strResources i item w = (inr strResources', w') →
  extends strResources strResources'
  ∧ is_Some (lookupEntry strResources' locale (itemName strArr i)).
Proof.
  intros Hstep. destruct (strResources !! locale) as [entries|] eqn:Hl.
  - rewrite (itemBody_eq _ _ _ _ _ entries) in Hstep by done.
    destruct (provenance file content (Value item)); injection Hstep as <- <-;
      by apply insert_extends.
  - destruct (itemBody_nil_map file content _ strArr _ i item w Hl) as [w1 Hp].
    congruence.
Qed.

Lemma extends_lookupEntry strResources strResources' locale k :
  is_Some (lookupEntry strResources locale k) → extends strResources strResources' →
  is_Some (lookupEntry strResources' locale k).
Proof. intros Hk [[_ Hkeep] _]. by apply Hkeep. Qed.

Lemma arrayBody_extends file content locale strResources strArr w strResources' w' :
  arrayBody file content locale strResources strArr w = (inr strResources', w') →
  extends strResources strResources'
  ∧ (IsTranslatable (arr_xmlTranslatable strArr) = true →
       ∀ i item, Items strArr !! i = Some item →
         is_Some (lookupEntry strResources' locale (itemName strArr i))).
Proof.
  unfold arrayBody. destruct (IsTranslatable (arr_xmlTranslatable strArr)); simpl.
  - intros Hloop.
    destruct (foldMi_each (itemBody file content locale strArr)
                (λ i _ s, is_Some (lookupEntry s locale (itemName strArr i)))
                extends (Items strArr)) with (i0 := 0%nat) (s := strResources) (w := w)
                (s' := strResources') (w' := w') as [Hext Hall]; try done.
    + intros. by eapply itemBody_extends.
    + intros. by eapply extends_lookupEntry.
  - intros [= <- <-]. split; [reflexivity | done].
Qed.

Lemma ensure_keeps strResources locale :
  strResources !! locale = None → keeps strResources (<[locale := ∅]> strResources).
Proof.
  intros Hl. split.
  - intros loc Hloc. destruct (decide (loc = locale)) as [->|Hne].
    + by rewrite lookup_insert_eq.
    + by rewrite lookup_insert_ne.
  - intros loc k. unfold lookupEntry. destruct (decide (loc = locale)) as [->|Hne].
    + rewrite Hl. simpl. by intros [? ?].
    + by rewrite lookup_insert_ne.
Qed.

Lemma fromCatalog_singleton files locale k e :
  fromCatalog files locale k e →
  ∃ file, file ∈ files ∧ fromCatalog [file] locale k e.
Proof.
  destruct 1 as [file ???? Hin|file ?????? Hin]; exists file; (split; [done|]).
  - eapply from_string; [by left | done..].
  - eapply from_item; [by left | done..].
Qed.

(** What the turn of the loop for one catalog does to the index. *)
Lemma fileBody_spec strResources file w strResources' w' :
  fileBody strResources file w = (inr strResources', w') →
  keeps strResources strResources'
  ∧ (∀ locale, is_Some (strResources' !! locale) →
       is_Some (strResources !! locale) ∨ hasElements file locale)
  ∧ (∀ locale, hasElements file locale → is_Some (strResources' !! locale))
  ∧ (∀ locale k e, fromCatalog [file] locale k e →
       is_Some (lookupEntry strResources' locale k)).
Proof.
  unfold fileBody.
  destruct (ReadFile file) as [content|] eqn:Hr; [|done].
  destruct (Unmarshal content) as [resources|] eqn:Hu; [|done].
  set (locale := getLocaleForValuesFile file).
  set (s0 := match strResources !! locale with
             | Some _ => strResources | None => _ end).
  unfold bind.
  destruct (foldM _ (Strings resources) s0 w) as [[e|s1] w1] eqn:Hs; [done|].
  intros Harr.
  destruct (foldM_each (stringBody file content locale)
              (λ str s, IsTranslatable (str_xmlTranslatable str) = true →
                        is_Some (lookupEntry s locale (Name str)))
              extends (Strings resources)) with (s := s0) (w := w) (s' := s1) (w' := w1)
    as [Hext1 Hstrs]; [| |done|].
  { intros. by eapply stringBody_extends. }
  { intros x s s' Hx Hext Htr. eapply extends_lookupEntry; eauto. }
  destruct (foldM_each (arrayBody file content locale)
              (λ strArr s, IsTranslatable (arr_xmlTranslatable strArr) = true →
                 ∀ i item, Items strArr !! i = Some item →
                   is_Some (lookupEntry s locale (itemName strArr i)))
              extends (StringArrays resources))
    with (s := s1) (w := w1) (s' := strResources') (w' := w')
    as [Hext2 Harrs]; [| |done|].
  { intros. by eapply arrayBody_extends. }
  { intros x s s' Hx Hext Htr i item Hi. eapply extends_lookupEntry; eauto. }
  assert (extends s0 strResources') as [Hkeep Hback] by (by etrans).
  assert (keeps strResources s0) as Hk0.
  { subst s0. destruct (strResources !! locale) eqn:Hl; [reflexivity|].
    destruct (0 <? _)%nat; [by apply ensure_keeps | reflexivity]. }
  split_and!.
  - by etrans.
  - intros loc Hloc%Hback. subst s0.
    destruct (strResources !! locale) eqn:Hl; [by left|].
    destruct (0 <? _)%nat eqn:Hcount; [|by left].
    destruct (decide (loc = locale)) as [->|Hne].
    + right. exists content, resources. split_and!; [done..|]. by apply Nat.ltb_lt.
    + left. by rewrite lookup_insert_ne in Hloc.
  - intros loc (content' & resources' & Hr' & Hu' & <- & Hcount).
    rewrite Hr in Hr'. injection Hr' as <-. rewrite Hu in Hu'. injection Hu' as <-.
    apply Hkeep. subst s0. fold locale.
    destruct (strResources !! locale) eqn:Hl; [by rewrite Hl|].
    apply Nat.ltb_lt in Hcount. rewrite Hcount. by rewrite lookup_insert_eq.
  - intros loc k e Hfrom.
    inversion Hfrom as [f c r str t Hf Hr' Hu' Hin Htr
                       |f c r strArr i item t Hf Hr' Hu' Hin Htr Hi]; subst.
    + apply list_elem_of_singleton in Hf as ->.
      rewrite Hr in Hr'. injection Hr' as <-. rewrite Hu in Hu'. injection Hu' as <-.
      eapply extends_lookupEntry; [|exact Hext2]. by apply Hstrs.
    + apply list_elem_of_singleton in Hf as ->.
      rewrite Hr in Hr'. injection Hr' as <-. rewrite Hu in Hu'. injection Hu' as <-.
      by eapply Harrs.
Qed.

Lemma findTranslatableStrings_contents files w strResources w' :
  findTranslatableStrings files w = (inr strResources, w') →
  (∀ locale, is_Some (strResources !! locale)
             ↔ ∃ file, file ∈ files ∧ hasElements file locale)
  ∧ (∀ locale k, is_Some (lookupEntry strResources locale k)
                 ↔ ∃ e, fromCatalog files locale k e).
Proof.
  intros Hrun. pose proof Hrun as Hinv%findTranslatableStrings_inv.
  unfold findTranslatableStrings in Hrun.
  assert (∀ locale, is_Some (strResources !! locale) →
                    ∃ file, file ∈ files ∧ hasElements file locale) as Hkeys.
  { eapply (foldM_inv fileBody
              (λ s, ∀ locale, is_Some (s !! locale) →
                              ∃ file, file ∈ files ∧ hasElements file locale));
      [| |exact Hrun].
    - intros s file w0 s' w0' Hin Hs Hstep locale Hloc.
      apply fileBody_spec in Hstep as (_ & Hnew & _).
      destruct (Hnew locale Hloc) as [?|?]; eauto.
    - intros locale. rewrite lookup_empty. by intros [? ?]. }
  destruct (foldM_each fileBody
              (λ file s, (∀ locale, hasElements file locale → is_Some (s !! locale))
                         ∧ ∀ locale k e, fromCatalog [file] locale k e →
                             is_Some (lookupEntry s locale k))
              keeps files) with (s := (∅ : localeStringsMap)) (w := w)
              (s' := strResources) (w' := w')
    as [_ Hall]; [| |done|].
  { intros s file w0 s' w0' Hin Hstep.
    apply fileBody_spec in Hstep as (? & _ & ? & ?). done. }
  { intros file s s' [Hq1 Hq2] [Hk1 Hk2]. split; eauto. }
  split.
  - intros locale. split; [apply Hkeys|].
    intros (file & Hin & Hel). by apply (Hall file Hin).
  - intros locale k. split.
    + intros [e He]. exists e. unfold lookupEntry in He.
      destruct (strResources !! locale) as [entries|] eqn:Hl; [|done].
      by eapply Hinv.
    + intros [e (file & Hin & Hfrom)%fromCatalog_singleton].
      by eapply (Hall file Hin).
Qed.

(** X5. The locales of the index that [findTranslatableStrings] returns
    are exactly the locales of the catalogs that hold at least one
    string or string-array: an element that is not translatable counts,
    and a catalog without any element adds no locale. *)
Theorem findTranslatableStrings_locales files w strResources w' :
  findTranslatableStrings files w = (inr strResources, w') →
  ∀ locale, is_Some (strResources !! locale)
            ↔ ∃ file, file ∈ files ∧ hasElements file locale.
Proof. intros Hrun. by apply findTranslatableStrings_contents in Hrun as [? _]. Qed.

(** X6. The index that [findTranslatableStrings] returns has an entry
    under a name in a locale exactly when a catalog of that locale holds
    a translatable flat string of that name, or a translatable
    collection of which the name is that of an item: nothing
    translatable is lost. *)
Theorem findTranslatableStrings_names files w strResources w' :
  findTranslatableStrings files w = (inr strResources, w') →
  ∀ locale k, is_Some (lookupEntry strResources locale k)
              ↔ ∃ e, fromCatalog files locale k e.
Proof. intros Hrun. by apply findTranslatableStrings_contents in Hrun as [_ ?]. Qed.

(** X4. The first catalog that cannot be read, or whose markup cannot be
    parsed, ends [findTranslatableStrings] with the error of that
    catalog, in the world that the catalogs before it have left: the
    catalogs after it are not looked at. *)
Theorem findTranslatableStrings_first_failure good bad rest w :
  (∀ file, file ∈ good →
     ∃ content resources,
       ReadFile file = Some content ∧ Unmarshal content = Some resources) →
  (ReadFile bad = None
   ∨ ∃ content, ReadFile bad = Some content ∧ Unmarshal content = None) →
  ∃ strResources w',
    findTranslatableStrings good w = (inr strResources, w')
    ∧ findTranslatableStrings (good ++ bad :: rest) w
      = (inl (match ReadFile bad with
              | None => errReadFile bad
              | Some _ => errParseXML bad
              end), w').
Proof.
  intros Hgood Hbad.
  destruct (findTranslatableStrings_total good w Hgood) as (s1 & w1 & Hrun).
  exists s1, w1. split; [done|].
  unfold findTranslatableStrings in *. rewrite foldM_app. unfold bind at 1.
  rewrite Hrun. cbn [foldM]. unfold bind, fileBody.
  destruct Hbad as [->|(content & -> & ->)]; done.
Qed.

(** *** Warnings and the clock *)

#[local] Instance warnsPerClock_preorder : PreOrder warnsPerClock.
Proof.
  split.
  - intros w. exists []. by rewrite app_nil_r, Nat.add_0_r.
  - intros w1 w2 w3 (ws1 & Hs1 & Ht1) (ws2 & Hs2 & Ht2). exists (ws1 ++ ws2).
    rewrite Hs2, Hs1, Ht2, Ht1, length_app, <- app_assoc. split; [done | lia].
Qed.

Lemma fallback_warnsPerClock e w : warnsPerClock w (afterFallback e w).
Proof. exists [e]. simpl. split; [done | lia]. Qed.

Lemma stringBody_world file content locale strResources str w r w' :
  stringBody file content locale strResources str w = (r, w') → warnsPerClock w w'.
Proof.
  unfold stringBody. destruct (IsTranslatable _); simpl.
  - destruct (provenance file content (Value str));
      unfold bind, ret, warn, Now, assignEntry; simpl;
      destruct (strResources !! locale); intros [= <- <-];
      (reflexivity || apply fallback_warnsPerClock).
  - intros [= <- <-]. reflexivity.
Qed.

Lemma itemBody_world file content locale strArr strResources i item w r w' :
  itemBody file content locale strArr strResources i item w = (r, w') →
  warnsPerClock w w'.
Proof.
  unfold itemBody. cbn [withName Value].
  destruct (provenance file content (Value item));
    unfold bind, ret, warn, Now, assignEntry; simpl;
    destruct (strResources !! locale); intros [= <- <-];
    (reflexivity || apply fallback_warnsPerClock).
Qed.

Lemma arrayBody_world file content locale strResources strArr w r w' :
  arrayBody file content locale strResources strArr w = (r, w') → warnsPerClock w w'.
Proof.
  unfold arrayBody. destruct (IsTranslatable _); simpl.
  - apply (foldMi_world _ warnsPerClock). intros. by eapply itemBody_world.
  - intros [= <- <-]. reflexivity.
Qed.

Lemma fileBody_world strResources file w r w' :
  fileBody strResources file w = (r, w') → warnsPerClock w w'.
Proof.
  unfold fileBody.
  destruct (ReadFile file) as [content|]; [|intros [= <- <-]; reflexivity].
  destruct (Unmarshal content) as [resources|]; [|intros [= <- <-]; reflexivity].
  unfold bind.
  destruct (foldM _ (Strings resources) _ w) as [[e|s1] w1] eqn:Hs.
  - intros [= <- <-]. eapply (foldM_world _ warnsPerClock); [|exact Hs].
    intros. by eapply stringBody_world.
  - intros Harr. etrans.
    + eapply (foldM_world _ warnsPerClock); [|exact Hs].
      intros. by eapply stringBody_world.
    + eapply (foldM_world _ warnsPerClock); [|exact Harr].
      intros. by eapply arrayBody_world.
Qed.

(** X7. Whatever its outcome, [findTranslatableStrings] only adds
    warnings to the standard error, and reads the clock once for each
    warning, no more: an entry is dated by the clock only with a warning
    that says why. *)
Theorem findTranslatableStrings_warns_per_clock files w r w' :
  findTranslatableStrings files w = (r, w') →
  ∃ ws, stderr w' = stderr w ++ ws ∧ ticks w' = (ticks w + length ws)%nat.
Proof.
  unfold findTranslatableStrings.
  apply (foldM_world fileBody warnsPerClock). intros. by eapply fileBody_world.
Qed.

(** *** Recovery from a provenance that fails *)

Lemma lookupEntry_insert strResources locale entries k e loc k' :
  strResources !! locale = Some entries →
  lookupEntry (<[locale := <[k := e]> entries]> strResources) loc k'
  = if decide (loc = locale ∧ k' = k) then Some e
    else lookupEntry strResources loc k'.
Proof.
  intros Hl. unfold lookupEntry. destruct (decide (loc = locale)) as [->|Hne].
  - rewrite lookup_insert_eq, Hl. simpl. destruct (decide (k' = k)) as [->|Hnk].
    + rewrite lookup_insert_eq. by rewrite decide_True.
    + rewrite lookup_insert_ne by done. rewrite decide_False; [done|]. by intros [_ ?].
  - rewrite lookup_insert_ne by done. rewrite decide_False; [done|]. by intros [? _].
Qed.

Lemma element_fromCatalog files file content el t :
  element files file content el →
  fromCatalog files (getLocaleForValuesFile file) (Name el) (withLastModified el t).
Proof. destruct 1; [by eapply from_string | by eapply from_item]. Qed.

Lemma element_content files file content el :
  element files file content el → file ∈ files ∧ ReadFile file = Some content.
Proof. by destruct 1. Qed.

Lemma datedBy_more w0 ws ws' file content el entry :
  datedBy w0 ws file content el entry →
  datedBy w0 (ws ++ ws') file content el entry.
Proof.
  unfold datedBy. destruct (provenance file content (Value el)); [|done].
  intros (n & Hn & ->). exists n. split; [by apply lookup_app_l_Some | done].
Qed.

Lemma allDated_found files w0 strResources w file content el entries t :
  allDated files w0 strResources w →
  strResources !! getLocaleForValuesFile file = Some entries →
  element files file content el →
  provenance file content (Value el) = inr t →
  allDated files w0
    (<[getLocaleForValuesFile file := <[Name el := withLastModified el t]> entries]>
       strResources) w.
Proof.
  intros (ws & Hs & Ht & Hall) Hl Hel Hp. exists ws. split_and!; [done..|].
  intros locale k entry. rewrite lookupEntry_insert by done.
  destruct (decide _) as [[-> ->]|_]; [|by apply Hall].
  intros [= <-]. exists file, content, el. split_and!; [done..|].
  unfold datedBy. by rewrite Hp.
Qed.

Lemma allDated_fallback files w0 strResources w file content el entries e :
  allDated files w0 strResources w →
  strResources !! getLocaleForValuesFile file = Some entries →
  element files file content el →
  provenance file content (Value el) = inl e →
  allDated files w0
    (<[getLocaleForValuesFile file :=
         <[Name el := withLastModified el (clock (ticks w))]> entries]> strResources)
    (afterFallback e w).
Proof.
  intros (ws & Hs & Ht & Hall) Hl Hel Hp. exists (ws ++ [e]). split_and!.
  - simpl. by rewrite Hs, app_assoc.
  - simpl. rewrite Ht, length_app. simpl. lia.
  - intros locale k entry. rewrite lookupEntry_insert by done.
    destruct (decide _) as [[-> ->]|_].
    + intros [= <-]. exists file, content, el. split_and!; [done..|].
      unfold datedBy. rewrite Hp. exists (length ws).
      split; [by apply list_lookup_middle | by rewrite Ht].
    + intros Hk. destruct (Hall _ _ _ Hk) as (f & c & el' & ? & ? & ? & Hd).
      exists f, c, el'. split_and!; [done..|]. by apply datedBy_more.
Qed.

Lemma allDated_ensure files w0 strResources w locale :
  strResources !! locale = None →
  allDated files w0 strResources w →
  allDated files w0 (<[locale := ∅]> strResources) w.
Proof.
  intros Hl (ws & Hs & Ht & Hall). exists ws. split_and!; [done..|].
  intros loc k entry Hk. apply Hall. revert Hk. unfold lookupEntry.
  destruct (decide (loc = locale)) as [->|Hne].
  - rewrite lookup_insert_eq. simpl. by rewrite lookup_empty.
  - by rewrite lookup_insert_ne.
Qed.

Lemma stringBody_dated files w0 file content resources strResources str w
    strResources' w' :
  file ∈ files → ReadFile file = Some content →
  Unmarshal content = Some resources → str ∈ Strings resources →
  allDated files w0 strResources w →
  stringBody file content (getLocaleForValuesFile file) strResources str w
    = (inr strResources', w') →
  allDated files w0 strResources' w'.
Proof.
  intros Hf Hr Hu Hin Hall Hstep.
  destruct (IsTranslatable (str_xmlTranslatable str)) eqn:Htr.
  - destruct (strResources !! getLocaleForValuesFile file) as [entries|] eqn:Hl.
    + rewrite (stringBody_eq _ _ _ _ entries) in Hstep by done. rewrite Htr in Hstep.
      assert (element files file content str) as Hel by (by eapply element_string).
      destruct (provenance file content (Value str)) eqn:Hp; injection Hstep as <- <-.
      * by eapply allDated_fallback.
      * by eapply allDated_found.
    + destruct (stringBody_nil_map file content _ _ str w Hl Htr) as [w1 Hp].
      congruence.
  - unfold stringBody in Hstep. rewrite Htr in Hstep. by injection Hstep as <- <-.
Qed.

Lemma itemBody_dated files w0 file content resources strArr strResources i item w
    strResources' w' :
  file ∈ files → ReadFile file = Some content →
  Unmarshal content = Some resources → strArr ∈ StringArrays resources →
  IsTranslatable (arr_xmlTranslatable strArr) = true →
  Items strArr !! i = Some item →
  allDated files w0 strResources w →
  itemBody file content (getLocaleForValuesFile file) strArr strResources i item w
    = (inr strResources', w') →
  allDated files w0 strResources' w'.
Proof.
  intros Hf Hr Hu Hin Htr Hi Hall Hstep.
  destruct (strResources !! getLocaleForValuesFile file) as [entries|] eqn:Hl.
  - rewrite (itemBody_eq _ _ _ _ _ entries) in Hstep by done.
    assert (element files file content (withName item (itemName strArr i))) as Hel
      by (by eapply element_item).
    destruct (provenance file content (Value item)) eqn:Hp; injection Hstep as <- <-.
    + by apply (allDated_fallback files w0 strResources w file content
                  (withName item (itemName strArr i))).
    + by apply (allDated_found files w0 strResources w file content
                  (withName item (itemName strArr i))).
  - destruct (itemBody_nil_map file content _ strArr _ i item w Hl) as [w1 Hp].
    congruence.
Qed.

Lemma arrayBody_dated files w0 file content resources strResources strArr w
    strResources' w' :
  file ∈ files → ReadFile file = Some content →
  Unmarshal content = Some resources → strArr ∈ StringArrays resources →
  allDated files w0 strResources w →
  arrayBody file content (getLocaleForValuesFile file) strResources strArr w
    = (inr strResources', w') →
  allDated files w0 strResources' w'.
Proof.
  intros Hf Hr Hu Hin Hall. unfold arrayBody.
  destruct (IsTranslatable (arr_xmlTranslatable strArr)) eqn:Htr; simpl.
  - apply (foldMi_inv2 _ (allDated files w0)); [|done].
    intros s j x w1 s1 w2 Hj Hs. by eapply itemBody_dated.
  - by intros [= <- <-].
Qed.

Lemma fileBody_dated files w0 file strResources w strResources' w' :
  file ∈ files → allDated files w0 strResources w →
  fileBody strResources file w = (inr strResources', w') →
  allDated files w0 strResources' w'.
Proof.
  intros Hf Hall. unfold fileBody.
  destruct (ReadFile file) as [content|] eqn:Hr; [|done].
  destruct (Unmarshal content) as [resources|] eqn:Hu; [|done].
  set (s0 := match strResources !! getLocaleForValuesFile file with
             | Some _ => strResources | None => _ end).
  assert (allDated files w0 s0 w) as Hs0.
  { subst s0. destruct (strResources !! getLocaleForValuesFile file) eqn:Hl; [done|].
    destruct (0 <? _)%nat; [by apply allDated_ensure | done]. }
  unfold bind.
  destruct (foldM _ (Strings resources) s0 w) as [[e|s1] w1] eqn:Hs; [done|].
  intros Harr.
  eapply (foldM_inv2 _ (allDated files w0)); [| |exact Harr].
  - intros. by eapply arrayBody_dated.
  - eapply (foldM_inv2 _ (allDated files w0)); [| |exact Hs]; [|done].
    intros. by eapply stringBody_dated.
Qed.

Lemma findTranslatableStrings_dated files w strResources w' :
  findTranslatableStrings files w = (inr strResources, w') →
  allDated files w strResources w'.
Proof.
  unfold findTranslatableStrings. apply (foldM_inv2 _ (allDated files w)).
  - intros. by eapply fileBody_dated.
  - exists []. rewrite app_nil_r, Nat.add_0_r. split_and!; [done..|].
    intros locale k entry. unfold lookupEntry. by rewrite lookup_empty.
Qed.

Lemma warned_more w0 w w' e : warned w0 w e → warnsPerClock w w' → warned w0 w' e.
Proof.
  intros (ws & Hs & Hin) (ws' & Hs' & _). exists (ws ++ ws').
  split; [by rewrite Hs', Hs, app_assoc | apply elem_of_app; by left].
Qed.

Lemma fallback_warned w0 w e : warnsPerClock w0 w → warned w0 (afterFallback e w) e.
Proof.
  intros (ws & Hs & _). exists (ws ++ [e]). split.
  - simpl. by rewrite Hs, app_assoc.
  - apply elem_of_app. right. by apply list_elem_of_singleton.
Qed.

Lemma stringBody_warned file content locale strResources str w0 w strResources' w' e :
  warnsPerClock w0 w →
  stringBody file content locale strResources str w = (inr strResources', w') →
  IsTranslatable (str_xmlTranslatable str) = true →
  provenance file content (Value str) = inl e →
  warned w0 w' e.
Proof.
  intros H0 Hstep Htr Hp.
  destruct (strResources !! locale) as [entries|] eqn:Hl.
  - rewrite (stringBody_eq _ _ _ _ entries) in Hstep by done.
    rewrite Htr, Hp in Hstep. injection Hstep as <- <-. by apply fallback_warned.
  - destruct (stringBody_nil_map file content _ _ str w Hl Htr) as [w1 Hn].
    congruence.
Qed.

Lemma itemBody_warned file content locale strArr strResources i item w0 w
    strResources' w' e :
  warnsPerClock w0 w →
  itemBody file content locale strArr strResources i item w = (inr strResources', w') →
  provenance file content (Value item) = inl e →
  warned w0 w' e.
Proof.
  intros H0 Hstep Hp.
  destruct (strResources !! locale) as [entries|] eqn:Hl.
  - rewrite (itemBody_eq _ _ _ _ _ entries) in Hstep by done.
    rewrite Hp in Hstep. injection Hstep as <- <-. by apply fallback_warned.
  - destruct (itemBody_nil_map file content _ strArr _ i item w Hl) as [w1 Hn].
    congruence.
Qed.

Lemma arrayBody_warned file content locale strResources strArr w0 w strResources' w' :
  warnsPerClock w0 w →
  arrayBody file content locale strResources strArr w = (inr strResources', w') →
  IsTranslatable (arr_xmlTranslatable strArr) = true →
  ∀ i item e, Items strArr !! i = Some item →
    provenance file content (Value item) = inl e → warned w0 w' e.
Proof.
  intros H0 Hstep Htr i item e Hi Hp. unfold arrayBody in Hstep.
  rewrite Htr in Hstep. simpl in Hstep.
  eapply (foldMi_each_world (itemBody file content locale strArr) warnsPerClock
            (λ _ item w', ∀ e, provenance file content (Value item) = inl e →
                               warned w0 w' e) w0 (Items strArr));
    [| | |exact H0|exact Hstep|exact Hi|exact Hp].
  - intros. by eapply itemBody_world.
  - intros. by eapply itemBody_warned.
  - intros i1 x1 w2 w3 HQ HR; cbv beta in *; intros; eapply warned_more; eauto.
Qed.

Lemma fileBody_warned files w0 file strResources w strResources' w' content el e :
  warnsPerClock w0 w →
  fileBody strResources file w = (inr strResources', w') →
  element files file content el →
  provenance file content (Value el) = inl e →
  warned w0 w' e.
Proof.
  intros H0 Hstep Hel Hp. unfold fileBody in Hstep.
  destruct Hel as [file content resources str Hf Hr Hu Hin Htr
                  |file content resources strArr i item Hf Hr Hu Hin Htr Hi];
    rewrite Hr, Hu in Hstep; unfold bind in Hstep;
    destruct (foldM _ (Strings resources) _ w) as [[e1|s1] w1] eqn:Hs; try done.
  - eapply warned_more.
    + eapply (foldM_each_world (stringBody file content (getLocaleForValuesFile file))
                warnsPerClock
                (λ str w', IsTranslatable (str_xmlTranslatable str) = true →
                   ∀ e, provenance file content (Value str) = inl e → warned w0 w' e)
                w0 (Strings resources));
        [| | |exact H0|exact Hs|exact Hin|exact Htr|exact Hp].
      * intros. by eapply stringBody_world.
      * intros. by eapply stringBody_warned.
      * intros x1 w2 w3 HQ HR; cbv beta in *; intros; eapply warned_more; eauto.
    + eapply (foldM_world _ warnsPerClock); [|exact Hstep].
      intros. by eapply arrayBody_world.
  - assert (warnsPerClock w0 w1) as H1.
    { etrans; [exact H0|]. eapply (foldM_world _ warnsPerClock); [|exact Hs].
      intros. by eapply stringBody_world. }
    eapply (foldM_each_world (arrayBody file content (getLocaleForValuesFile file))
              warnsPerClock
              (λ strArr w', IsTranslatable (arr_xmlTranslatable strArr) = true →
                 ∀ i item e, Items strArr !! i = Some item →
                   provenance file content (Value item) = inl e → warned w0 w' e)
              w0 (StringArrays resources));
      [| | |exact H1|exact Hstep|exact Hin|exact Htr|exact Hi|exact Hp].
    + intros. by eapply arrayBody_world.
    + intros. by eapply arrayBody_warned.
    + intros x1 w2 w3 HQ HR; cbv beta in *; intros; eapply warned_more; eauto.
Qed.

Lemma findTranslatableStrings_warned files w strResources w' file content el e :
  findTranslatableStrings files w = (inr strResources, w') →
  element files file content el →
  provenance file content (Value el) = inl e →
  warned w w' e.
Proof.
  intros Hrun Hel Hp. unfold findTranslatableStrings in Hrun.
  pose proof (element_content _ _ _ _ Hel) as [Hf _].
  eapply (foldM_each_world fileBody warnsPerClock
            (λ file w', ∀ content el e, element files file content el →
               provenance file content (Value el) = inl e → warned w w' e)
            w files);
    [| | |reflexivity|exact Hrun|exact Hf|exact Hel|exact Hp].
  - intros. by eapply fileBody_world.
  - intros. by eapply fileBody_warned.
  - intros x1 w2 w3 HQ HR; cbv beta in *; intros; eapply warned_more; eauto.
Qed.

(** C8. When the provenance of an entry fails (its text is not found in
    the content, the command fails, or a timestamp does not parse), the
    entry gets the time of the clock as its last modification, the
    error is printed as a warning, the entry goes into the index, and
    the loop goes on with the next entry; the same holds for the items
    of a collection. And for the whole parse: with every catalog
    readable and well-formed, [findTranslatableStrings] returns an
    index, whatever provenance fails; every translatable element of
    every catalog, before or after a failure, has an entry under its
    name, and the error of every provenance that failed is among the
    warnings printed; every entry of the index is made of such an
    element and, where the provenance of that element fails, is dated
    by the reading of the clock that goes with a warning for that
    error; and the entry of an element that alone has its name in its
    locale is that element, dated so. *)
Theorem provenance_failure_recovered :
  (∀ file content v e,
     getLineRange content v = inl e → provenance file content v = inl e)
  ∧ (∀ file content v start count,
       getLineRange content v = inr (start, count) →
       sh (Dir file)
          ("git blame -p -L " +:+ strconv.Itoa start +:+ ",+"
             +:+ strconv.Itoa count +:+ " " +:+ Base file
             +:+ " | grep committer-time | awk '{ print $2 }'") = None →
       ∃ e, provenance file content v = inl e)
  ∧ (∀ file content v start count stdout timestampStr ne,
       getLineRange content v = inr (start, count) →
       sh (Dir file)
          ("git blame -p -L " +:+ strconv.Itoa start +:+ ",+"
             +:+ strconv.Itoa count +:+ " " +:+ Base file
             +:+ " | grep committer-time | awk '{ print $2 }'") = Some stdout →
       timestampStr ∈ strings.Split (TrimSpace stdout) (String newline EmptyString) →
       strconv.ParseInt10 timestampStr = inl ne →
       ∃ e, provenance file content v = inl e)
  ∧ (∀ file content locale strResources entries str e w,
       strResources !! locale = Some entries →
       IsTranslatable (str_xmlTranslatable str) = true →
       provenance file content (Value str) = inl e →
       stringBody file content locale strResources str w
       = (inr (<[locale :=
                  <[Name str := withLastModified str (clock (ticks w))]> entries]>
                 strResources),
          {| stderr := stderr w ++ [e]; ticks := S (ticks w) |}))
  ∧ (∀ file content locale strArr strResources entries i item e w,
       strResources !! locale = Some entries →
       provenance file content (Value item) = inl e →
       itemBody file content locale strArr strResources i item w
       = (inr (<[locale :=
                  <[itemName strArr i :=
                      withLastModified (withName item (itemName strArr i))
                        (clock (ticks w))]> entries]>
                 strResources),
          {| stderr := stderr w ++ [e]; ticks := S (ticks w) |}))
  ∧ (∀ files w,
       (∀ file, file ∈ files →
          ∃ content resources,
            ReadFile file = Some content ∧ Unmarshal content = Some resources) →
       ∃ strResources w' ws,
         findTranslatableStrings files w = (inr strResources, w')
         ∧ stderr w' = stderr w ++ ws ∧ ticks w' = (ticks w + length ws)%nat
         ∧ (∀ file content el, element files file content el →
              is_Some (lookupEntry strResources (getLocaleForValuesFile file) (Name el))
              ∧ ∀ e, provenance file content (Value el) = inl e → e ∈ ws)
         ∧ (∀ locale k entry, lookupEntry strResources locale k = Some entry →
              ∃ file content el,
                element files file content el
                ∧ locale = getLocaleForValuesFile file ∧ k = Name el
                ∧ datedBy w ws file content el entry)
         ∧ (∀ file content el e,
              element files file content el →
              provenance file content (Value el) = inl e →
              (∀ file' content' el',
                 element files file' content' el' →
                 getLocaleForValuesFile file' = getLocaleForValuesFile file →
                 Name el' = Name el → file' = file ∧ el' = el) →
              ∃ n, ws !! n = Some e
                   ∧ lookupEntry strResources (getLocaleForValuesFile file) (Name el)
                     = Some (withLastModified el (clock (ticks w + n))))).
Proof.
  split_and!.
  - apply provenance_not_found.
  - intros * Hr Hsh. unfold provenance. rewrite Hr.
    rewrite getLastModifiedTime_run_failed by done. eauto.
  - intros * Hr Hsh Hin Hbad. unfold provenance. rewrite Hr.
    by eapply getLastModifiedTime_bad_timestamp.
  - intros * Hl Htr Hp. rewrite (stringBody_eq _ _ _ _ entries) by done.
    by rewrite Htr, Hp.
  - intros * Hl Hp. rewrite (itemBody_eq _ _ _ _ _ entries) by done.
    by rewrite Hp.
  - intros files w Hok.
    destruct (findTranslatableStrings_total files w Hok) as (index & w' & Hrun).
    destruct (findTranslatableStrings_dated _ _ _ _ Hrun) as (ws & Hs & Ht & Hall).
    pose proof (findTranslatableStrings_contents _ _ _ _ Hrun) as [_ Hnames].
    assert (∀ file content el, element files file content el →
              is_Some (lookupEntry index (getLocaleForValuesFile file) (Name el)))
      as Hin.
    { intros file content el Hel. apply Hnames.
      eexists. exact (element_fromCatalog _ _ _ _ 0 Hel). }
    exists index, w', ws. split_and!; [done..| | |].
    + intros file content el Hel. split; [by eapply Hin|]. intros e Hp.
      destruct (findTranslatableStrings_warned _ _ _ _ _ _ _ _ Hrun Hel Hp)
        as (ws' & Hs' & He).
      rewrite Hs in Hs'. by apply app_inv_head in Hs' as ->.
    + exact Hall.
    + intros file content el e Hel Hp Huniq.
      destruct (Hin _ _ _ Hel) as [entry Hentry].
      destruct (Hall _ _ _ Hentry) as (file' & content' & el' & Hel' & Hloc & Hk & Hd).
      destruct (Huniq _ _ _ Hel') as [-> ->]; [done..|].
      destruct (element_content _ _ _ _ Hel) as [_ Hr].
      destruct (element_content _ _ _ _ Hel') as [_ Hr'].
      rewrite Hr in Hr'. injection Hr' as <-.
      unfold datedBy in Hd. rewrite Hp in Hd. destruct Hd as (n & Hn & ->).
      exists n. by split.
Qed.

End IndexContents.

(** *** The report: what it holds and what it does not depend on *)
Section ReportContents.
Context `{!Env}.

Implicit Types (localeStrings : localeStringsMap) (str : xmlStringResource)
  (sch : schedule) (r : stringResource).

Lemma filter_nil_not {B} (P : B → Prop) `{!∀ x, Decision (P x)} (l : list B) x :
  filter P l = [] → x ∈ l → ¬ P x.
Proof.
  intros Hnil Hin HP.
  assert (x ∈ filter P l) as Hx by (by apply list_elem_of_filter).
  rewrite Hnil in Hx. by apply elem_of_nil in Hx.
Qed.

Lemma sort_Sort_nil (l : list stringResource) : sort_Sort l = [] ↔ l = [].
Proof.
  split; [|by intros ->]. intros Hnil.
  apply Permutation_nil_r. rewrite <- Hnil. by rewrite sort_Sort_Permutation.
Qed.

Lemma outer_lookup localeStrings (defaultStrings : gmap string xmlStringResource)
    sch k str :
  valid_schedule localeStrings defaultStrings sch →
  (k, str) ∈ outer sch ↔ defaultStrings !! k = Some str.
Proof. intros [-> _]. apply elem_of_map_to_list. Qed.

Lemma inner_keys localeStrings (defaultStrings : gmap string xmlStringResource)
    sch k locale :
  valid_schedule localeStrings defaultStrings sch →
  locale ∈ inner sch k ↔ is_Some (localeStrings !! locale).
Proof. intros [_ Hi]. rewrite Hi. apply elem_of_keys. Qed.

(** X8. In the report of an index keyed by name, the canonical locale is
    in no list of any record: an entry is never missing from, nor older
    than, itself. *)
Theorem mainReport_default_not_flagged localeStrings defaultStrings sch report :
  localeStrings !! defaultLocale = Some defaultStrings →
  keyedByName defaultStrings →
  valid_schedule localeStrings defaultStrings sch →
  mainReport localeStrings sch = inr report →
  ∀ r, r ∈ report →
    (defaultLocale ∉ MissingLocales r) ∧ (defaultLocale ∉ OutdatedLocales r).
Proof.
  intros Hd Hkey Hv Hrun r Hr.
  rewrite (mainReport_eq _ _ _ Hd) in Hrun. injection Hrun as <-.
  apply elem_of_report in Hr as [_ ([k str] & Hin & ->)].
  apply (outer_lookup _ _ _ _ _ Hv) in Hin.
  unfold recordOf. cbn [fst snd]. rewrite strResourceOf_eq.
  cbn [MissingLocales OutdatedLocales]. rewrite !list_elem_of_filter.
  unfold isMissing, isOutdated.
  rewrite (lookupEntry_Some _ _ _ (Name str) Hd), (Hkey _ _ Hin), Hin.
  unfold time.Before. rewrite Z.ltb_irrefl. split; by intros [? _].
Qed.

(** X9. The report is empty exactly when every locale of the index has,
    for every entry of the canonical locale, an entry of the same name
    that is not older. *)
Theorem mainReport_empty_iff localeStrings defaultStrings sch :
  localeStrings !! defaultLocale = Some defaultStrings →
  valid_schedule localeStrings defaultStrings sch →
  mainReport localeStrings sch = inr []
  ↔ ∀ k str, defaultStrings !! k = Some str →
      ∀ locale entries, localeStrings !! locale = Some entries →
        ∃ localeStr, entries !! Name str = Some localeStr
                     ∧ LastModified str ≤ LastModified localeStr.
Proof.
  intros Hd Hv. rewrite (mainReport_eq _ _ _ Hd). split.
  - intros [= Hnil] k str Hk locale entries Hl.
    apply (proj1 (sort_Sort_nil _)) in Hnil.
    assert ((k, str) ∈ outer sch) as Hin by (by eapply outer_lookup).
    assert (locale ∈ inner sch k) as Hloc by (eapply inner_keys; eauto).
    assert (¬ flagged (recordOf localeStrings sch (k, str))) as Hnf.
    { eapply filter_nil_not; [exact Hnil|]. by apply list_elem_of_fmap_2. }
    unfold flagged, recordOf in Hnf. cbn [fst snd] in Hnf.
    rewrite strResourceOf_eq in Hnf. cbn [MissingLocales OutdatedLocales] in Hnf.
    destruct (filter (λ l, isMissing localeStrings str l = true) (inner sch k))
      as [|] eqn:Hm; [|by destruct Hnf; left].
    destruct (filter (λ l, isOutdated localeStrings str l = true) (inner sch k))
      as [|] eqn:Ho; [|by destruct Hnf; right].
    pose proof (filter_nil_not _ _ locale Hm Hloc) as Hnm.
    pose proof (filter_nil_not _ _ locale Ho Hloc) as Hno.
    unfold isMissing, isOutdated in Hnm, Hno.
    rewrite (lookupEntry_Some _ _ _ (Name str) Hl) in Hnm, Hno.
    destruct (entries !! Name str) as [e|]; [|done].
    exists e. split; [done|]. unfold time.Before in Hno.
    destruct (Z.ltb_spec (LastModified e) (LastModified str)); [done | lia].
  - intros Hall. f_equal. apply sort_Sort_nil, elem_of_nil_inv.
    intros r [Hfl ([k str] & -> & Hin)%list_elem_of_fmap]%list_elem_of_filter.
    apply (outer_lookup _ _ _ _ _ Hv) in Hin.
    unfold flagged, recordOf in Hfl. cbn [fst snd] in Hfl.
    rewrite strResourceOf_eq in Hfl. cbn [MissingLocales OutdatedLocales] in Hfl.
    assert (∀ locale, locale ∈ inner sch k →
              isMissing localeStrings str locale = false
              ∧ isOutdated localeStrings str locale = false) as Hfresh.
    { intros locale [entries Hl]%(inner_keys _ _ _ _ _ Hv).
      destruct (Hall k str Hin locale entries Hl) as (e & He & Hle).
      unfold isMissing, isOutdated.
      rewrite (lookupEntry_Some _ _ _ (Name str) Hl), He. split; [done|].
      unfold time.Before. apply Z.ltb_ge. lia. }
    destruct Hfl as [Hne|Hne]; apply Hne, elem_of_nil_inv;
      intros locale [HP Hloc]%list_elem_of_filter;
      destruct (Hfresh locale Hloc); congruence.
Qed.

Lemma report_names_eq localeStrings defaultStrings sch1 sch2 :
  keyedByName defaultStrings →
  valid_schedule localeStrings defaultStrings sch1 →
  valid_schedule localeStrings defaultStrings sch2 →
  res_Name <$> sort_Sort (filter flagged (recordOf localeStrings sch1 <$> outer sch1))
  = res_Name <$> sort_Sort (filter flagged (recordOf localeStrings sch2 <$> outer sch2)).
Proof.
  intros Hkey Hv1 Hv2. apply (Sorted_unique String.le).
  - apply Sorted_nameLe_names, sort_Sort_Sorted.
  - apply Sorted_nameLe_names, sort_Sort_Sorted.
  - apply NoDup_Permutation.
    + eapply report_names_NoDup; [done | apply Hv1].
    + eapply report_names_NoDup; [done | apply Hv2].
    + intros n. split; by eapply report_names_incl.
Qed.

(** X10. The report does not depend on the order in which the runtime
    walks the entries of the canonical locale: two runs on an index
    keyed by name, whose walks of the locales agree, return the same
    report. *)
Theorem mainReport_outer_order localeStrings defaultStrings sch1 sch2 :
  localeStrings !! defaultLocale = Some defaultStrings →
  keyedByName defaultStrings →
  valid_schedule localeStrings defaultStrings sch1 →
  valid_schedule localeStrings defaultStrings sch2 →
  (∀ k, inner sch1 k = inner sch2 k) →
  mainReport localeStrings sch1 = mainReport localeStrings sch2.
Proof.
  intros Hd Hkey Hv1 Hv2 Hinner.
  rewrite !(mainReport_eq _ _ _ Hd). f_equal.
  pose proof (report_names_eq _ _ _ _ Hkey Hv1 Hv2) as Hnames.
  apply list_eq_Forall2, Forall2_same_length_lookup. split.
  { apply (f_equal length) in Hnames. by rewrite !length_fmap in Hnames. }
  intros i a b Ha Hb.
  assert (res_Name a = res_Name b) as Hn.
  { apply (f_equal (λ l, l !! i)) in Hnames.
    rewrite !list_lookup_fmap, Ha, Hb in Hnames. by injection Hnames. }
  apply list_elem_of_lookup_2, elem_of_report in Ha as [_ ([k1 s1] & Hin1 & ->)].
  apply list_elem_of_lookup_2, elem_of_report in Hb as [_ ([k2 s2] & Hin2 & ->)].
  rewrite !recordOf_name in Hn.
  destruct Hv1 as [Ho1 _], Hv2 as [Ho2 _]. rewrite Ho1 in Hin1. rewrite Ho2 in Hin2.
  pose proof (keyed_name_inj _ _ _ Hkey Hin1 Hin2 Hn) as [= -> ->].
  unfold recordOf. cbn [fst snd]. by rewrite Hinner.
Qed.

(** X11. The report of an index keyed by name has at most one record for
    an entry of the canonical locale: the names of its records are
    pairwise different, each is the name of a canonical entry, of which
    the record shows the trimmed value, and there are no more records
    than canonical entries. *)
Theorem mainReport_one_record_per_entry localeStrings defaultStrings sch report :
  localeStrings !! defaultLocale = Some defaultStrings →
  keyedByName defaultStrings →
  valid_schedule localeStrings defaultStrings sch →
  mainReport localeStrings sch = inr report →
  NoDup (res_Name <$> report)
  ∧ (∀ r, r ∈ report →
       ∃ str, defaultStrings !! res_Name r = Some str
              ∧ res_Value r = TrimSpace (Value str))
  ∧ (length report ≤ size defaultStrings)%nat.
Proof.
  intros Hd Hkey Hv Hrun.
  rewrite (mainReport_eq _ _ _ Hd) in Hrun. injection Hrun as <-.
  assert (NoDup (res_Name <$>
            sort_Sort (filter flagged (recordOf localeStrings sch <$> outer sch))))
    as Hnd by (eapply report_names_NoDup; [done | apply Hv]).
  assert (∀ r, r ∈ sort_Sort (filter flagged (recordOf localeStrings sch <$> outer sch)) →
            ∃ str, defaultStrings !! res_Name r = Some str
                   ∧ res_Value r = TrimSpace (Value str)) as Hfrom.
  { intros r [_ ([k str] & Hin & ->)]%elem_of_report.
    apply (outer_lookup _ _ _ _ _ Hv) in Hin. exists str.
    unfold recordOf. cbn [fst snd]. rewrite strResourceOf_eq. cbn [res_Name res_Value].
    by rewrite (Hkey _ _ Hin). }
  split_and!; [done..|].
  rewrite <- (length_fmap res_Name), <- length_map_to_list,
    <- (length_fmap fst (map_to_list defaultStrings)).
  apply submseteq_length, NoDup_submseteq; [done|].
  intros n (r & -> & Hr)%list_elem_of_fmap.
  destruct (Hfrom r Hr) as (str & Hstr & _).
  apply list_elem_of_fmap. exists (res_Name r, str). split; [done|].
  by apply elem_of_map_to_list.
Qed.

(** X12. With every catalog readable and well-formed, the run from the
    catalogs to the report ends with the error of the missing default
    locale exactly when no catalog of the canonical locale holds any
    string or string-array, and returns a report otherwise. *)
Theorem mainFrom_default_locale valuesFiles walk w :
  (∀ file, file ∈ valuesFiles →
     ∃ content resources,
       ReadFile file = Some content ∧ Unmarshal content = Some resources) →
  ((∃ file, file ∈ valuesFiles ∧ hasElements file defaultLocale) →
     ∃ report w', mainFrom valuesFiles walk w = (inr report, w'))
  ∧ ((¬ ∃ file, file ∈ valuesFiles ∧ hasElements file defaultLocale) →
       ∃ w', mainFrom valuesFiles walk w = (inl errNoDefaultLocale, w')).
Proof.
  intros Hok.
  destruct (findTranslatableStrings_total valuesFiles w Hok) as (idx & w1 & Hrun).
  pose proof (proj1 (findTranslatableStrings_contents _ _ _ _ Hrun) defaultLocale)
    as Hkeys.
  unfold mainFrom, bind. rewrite Hrun. unfold mainReport. split.
  - intros [d Hd]%Hkeys. rewrite Hd. unfold ret. eauto.
  - intros Hno. destruct (idx !! defaultLocale) eqn:Hd.
    + destruct Hno. apply Hkeys. eauto.
    + unfold throw. eauto.
Qed.

End ReportContents.

(** *** Which files are catalogs, and of which locale *)
Section CatalogFiles.
Context `{!Env}.

Lemma EqualFold_values_prefix rest :
  EqualFold equalFoldUnicode ("values" +:+ rest) "values"
  = match rest with EmptyString => true | _ => false end.
Proof. by destruct rest. Qed.

(** X13. A file that [isValuesFile] accepts is not named
    [donottranslate.xml], and the name of its directory starts with
    [values]; its locale follows from the hyphens of that name alone:
    all that follows the first hyphen, be it empty, or [default] when
    there is no hyphen. *)
Theorem isValuesFile_locale (path : string) :
  isValuesFile path = true →
  Base path ≠ doNotTranslateFileName
  ∧ (∃ rest, Base (Dir path) = "values" +:+ rest)
  ∧ (∀ pre post, first_occurrence "-" (Base (Dir path)) pre post →
       getLocaleForValuesFile path = post)
  ∧ ((∀ pre post, ¬ occurrence "-" (Base (Dir path)) pre post) →
       getLocaleForValuesFile path = "default").
Proof.
  unfold isValuesFile.
  destruct (String.eqb_spec doNotTranslateFileName (Base path)) as [|Hname]; [done|].
  intros [[rest Hp]%HasPrefix_spec _]%andb_prop.
  split_and!; [done | by exists rest | |].
  - intros pre post Hfirst. unfold getLocaleForValuesFile.
    destruct (occurrence_indexNat _ _ _ _ (proj1 Hfirst)) as [i Hi].
    pose proof Hi as [Hfirst' _]%indexNat_Some.
    destruct (first_occurrence_unique _ _ _ _ _ _ Hfirst Hfirst') as [_ ->].
    rewrite (SplitN_2_found _ _ i) by done.
    rewrite Hp, EqualFold_values_prefix.
    destruct rest; [|by rewrite <- Hp]. rewrite Hp in Hi. discriminate Hi.
  - intros Hno. unfold getLocaleForValuesFile.
    destruct (EqualFold _ _ _); [done|].
    rewrite SplitN_not_found; [done..| |done].
    destruct (strings.indexNat (Base (Dir path)) "-") as [i|] eqn:Hi; [|done].
    apply indexNat_Some in Hi as [[Hocc _] _]. by apply Hno in Hocc.
Qed.

End CatalogFiles.

(** *** The attribute translatable, in any case of its letters *)
Section FoldASCII.

Lemma byteZ_inj a b : byteZ a = byteZ b → a = b.
Proof.
  unfold byteZ. intros Heq%N2Z.inj.
  rewrite <- (ascii_N_embedding a), <- (ascii_N_embedding b). by rewrite Heq.
Qed.

Lemma byteZ_range c : 0 ≤ byteZ c < 256.
Proof. unfold byteZ. pose proof (N_ascii_bounded c). lia. Qed.

Lemma byteZ_lowerByte c :
  byteZ (lowerByte c)
  = if (65 <=? byteZ c) && (byteZ c <=? 90) then byteZ c + 32 else byteZ c.
Proof.
  unfold lowerByte. change (byteZ "A") with 65. change (byteZ "Z") with 90.
  destruct ((65 <=? byteZ c) && (byteZ c <=? 90)) eqn:Hup; [|done].
  apply andb_prop in Hup as [?%Z.leb_le ?%Z.leb_le].
  unfold byteZ in *. rewrite N_ascii_embedding by lia. lia.
Qed.

Lemma lor_ascii a b : 0 ≤ a < 128 → 0 ≤ b < 128 → Z.lor a b < 128.
Proof.
  intros Ha Hb.
  destruct (decide (Z.lor a b = 0)) as [->|Hne]; [lia|].
  assert (0 ≤ Z.lor a b) by (apply Z.lor_nonneg; lia).
  change 128 with (2 ^ 7). apply Z.log2_lt_pow2; [lia|].
  rewrite Z.log2_lor by lia.
  destruct (decide (a = 0)) as [->|]; destruct (decide (b = 0)) as [->|];
    try (change (Z.log2 0) with 0);
    repeat match goal with
    | |- context [Z.log2 ?x] =>
        lazymatch x with 0 => fail | _ => idtac end;
        assert (Z.log2 x < 7) by (apply Z.log2_lt_pow2; lia);
        pose proof (Z.log2_nonneg x); generalize dependent (Z.log2 x); intros
    end; lia.
Qed.

(** On ASCII text [EqualFold] compares the texts with their letters in
    lower case; the Unicode tables are not looked at. *)
Lemma EqualFold_ASCII foldUnicode s t :
  isASCII s → isASCII t →
  EqualFold foldUnicode s t = true ↔ lowerASCII s = lowerASCII t.
Proof.
  revert t. induction s as [|a s IH]; intros [|b t]; simpl; try done.
  intros [Ha Hs] [Hb Ht].
  pose proof (byteZ_range a). pose proof (byteZ_range b).
  unfold utf8.RuneSelf in *.
  destruct (Z.leb_spec 128 (Z.lor (byteZ a) (byteZ b))) as [Hlor|_].
  { pose proof (lor_ascii (byteZ a) (byteZ b)). lia. }
  assert (lowerByte a = lowerByte b
          ↔ byteZ b = byteZ a
            ∨ (65 ≤ Z.min (byteZ a) (byteZ b) ≤ 90
               ∧ Z.max (byteZ a) (byteZ b) = Z.min (byteZ a) (byteZ b) + 32)) as Hlow.
  { split.
    - intros Heq%(f_equal byteZ). rewrite !byteZ_lowerByte in Heq.
      destruct (Z.leb_spec 65 (byteZ a)), (Z.leb_spec (byteZ a) 90),
        (Z.leb_spec 65 (byteZ b)), (Z.leb_spec (byteZ b) 90); simpl in Heq; lia.
    - intros Hor. apply byteZ_inj. rewrite !byteZ_lowerByte.
      destruct (Z.leb_spec 65 (byteZ a)), (Z.leb_spec (byteZ a) 90),
        (Z.leb_spec 65 (byteZ b)), (Z.leb_spec (byteZ b) 90); simpl; lia. }
  change (byteZ "A") with 65. change (byteZ "Z") with 90. change (byteZ "a") with 97.
  destruct (Z.eqb_spec (byteZ b) (byteZ a)) as [Heq|Hne].
  - rewrite IH by done. split; [intros ->; f_equal; apply Hlow; by left|].
    by intros [= _ ?].
  - destruct (Z.leb_spec 65 (Z.min (byteZ a) (byteZ b))),
      (Z.leb_spec (Z.min (byteZ a) (byteZ b)) 90),
      (Z.eqb_spec (Z.max (byteZ a) (byteZ b)) (Z.min (byteZ a) (byteZ b) + 97 - 65));
      simpl;
      try (split; [done|]; intros [= Hc%Hlow _]; lia).
    rewrite IH by done. split; [intros ->; f_equal; apply Hlow; lia|].
    by intros [= _ ?].
Qed.

(** X14. For an attribute written in ASCII, an element is not
    translatable exactly when the attribute is [false] in any case of
    its letters. *)
Theorem IsTranslatable_ASCII `{!Env} (res : xmlTranslatable) :
  isASCII (Translatable res) →
  IsTranslatable res = false ↔ lowerASCII (Translatable res) = "false".
Proof.
  intros Hascii. unfold IsTranslatable. rewrite negb_false_iff.
  rewrite EqualFold_ASCII; [|by repeat split|done]. naive_solver.
Qed.

End FoldASCII.

(** *** The workflow command *)
Section WorkflowCommand.

(** [ReplaceAll] of one byte replaces every such byte, and nothing else. *)
Lemma replaceLoop_byte c new s i0 :
  gostrings.replaceLoop (Z.to_nat (strings.CountString s c)) i0 s
    (String c EmptyString) new
  = substByte c new s.
Proof.
  revert i0. induction s as [|x s IH]; intros i0.
  - reflexivity.
  - cbn [strings.CountString substByte].
    pose proof (CountString_nonneg s c) as Hnn.
    destruct (Ascii.eqb_spec x c) as [->|Hne].
    + replace (Z.to_nat (1 + strings.CountString s c))
        with (S (Z.to_nat (strings.CountString s c))) by lia.
      cbn [gostrings.replaceLoop]. simpl strings.indexNat.
      rewrite Ascii.eqb_refl. simpl. by rewrite IH.
    + replace (0 + strings.CountString s c) with (strings.CountString s c) by lia.
      specialize (IH false).
      destruct (Z.to_nat (strings.CountString s c)) as [|n] eqn:Hn.
      * cbn [gostrings.replaceLoop] in *. by rewrite <- IH.
      * cbn [gostrings.replaceLoop] in *. simpl strings.indexNat.
        apply Ascii.eqb_neq in Hne. rewrite Hne.
        destruct (strings.indexNat s (String c EmptyString)) as [j|]; simpl.
        -- by rewrite <- IH.
        -- by rewrite <- IH.
Qed.

Lemma ReplaceAll_byte c new s :
  String c EmptyString ≠ new →
  gostrings.ReplaceAll s (String c EmptyString) new = substByte c new s.
Proof.
  intros Hne. unfold gostrings.ReplaceAll, gostrings.Replace.
  apply String.eqb_neq in Hne. rewrite Hne. cbn [orb Z.eqb Z.ltb Z.compare].
  unfold strings.Count.
  destruct (Z.eqb_spec (strings.CountString s c) 0) as [Hz|_].
  - rewrite <- (replaceLoop_byte c new s true), Hz. reflexivity.
  - apply replaceLoop_byte.
Qed.

Lemma escapeValue_eq value :
  escapeValue value
  = substByte newline "%0A"
      (substByte carriageReturn "%0D" (substByte "%" "%25" value)).
Proof. unfold escapeValue. by rewrite !ReplaceAll_byte. Qed.

Lemma CountString_substByte_same c new s :
  strings.CountString new c = 0 → strings.CountString (substByte c new s) c = 0.
Proof.
  intros Hnew. induction s as [|x s IH]; simpl; [done|].
  destruct (Ascii.eqb x c) eqn:Hx.
  - rewrite CountString_app. lia.
  - simpl. rewrite Hx. lia.
Qed.

Lemma CountString_substByte_other c d new s :
  strings.CountString new d = 0 → strings.CountString s d = 0 →
  strings.CountString (substByte c new s) d = 0.
Proof.
  intros Hnew. induction s as [|x s IH]; simpl; [done|].
  pose proof (CountString_nonneg s d).
  intros Hs. destruct (Ascii.eqb x c).
  - rewrite CountString_app. destruct (Ascii.eqb x d); lia.
  - simpl. destruct (Ascii.eqb x d); lia.
Qed.

(** X15. The workflow command is one line, whatever the value holds:
    the escaped value has no newline and no carriage return, and the only
    newline of the text printed for a key without newlines is its last
    byte. *)
Theorem setGitHubActionsOutput_one_line key value :
  newlines (escapeValue value) = 0
  ∧ strings.CountString (escapeValue value) carriageReturn = 0
  ∧ newlines (setGitHubActionsOutput key value) = newlines key + 1.
Proof.
  assert (newlines (escapeValue value) = 0) as Hnl.
  { rewrite escapeValue_eq, <- CountString_newlines.
    by apply CountString_substByte_same. }
  split_and!; [done| |].
  - rewrite escapeValue_eq. apply CountString_substByte_other; [done|].
    by apply CountString_substByte_same.
  - unfold setGitHubActionsOutput. rewrite !newlines_append, Hnl. simpl. lia.
Qed.

Lemma unescapeValue_other c rest :
  c ≠ "%"%char → unescapeValue (String c rest) = String c (unescapeValue rest).
Proof.
  intros Hc. destruct c as [[] [] [] [] [] [] [] []]; try reflexivity. done.
Qed.

(** X16. The escapes of the value can be undone: replacing [%25], [%0D]
    and [%0A] by the bytes they stand for gives the value back. *)
Theorem setGitHubActionsOutput_round_trip value :
  unescapeValue (escapeValue value) = value.
Proof.
  rewrite escapeValue_eq.
  induction value as [|c value IH]; [done|].
  cbn [substByte].
  destruct (Ascii.eqb_spec c "%") as [->|Hpc]; [simpl; by rewrite IH|].
  cbn [substByte].
  destruct (Ascii.eqb_spec c carriageReturn) as [->|Hcr]; [simpl; by rewrite IH|].
  cbn [substByte].
  destruct (Ascii.eqb_spec c newline) as [->|Hnl]; [simpl; by rewrite IH|].
  by rewrite unescapeValue_other, IH.
Qed.

End WorkflowCommand.

(** *** The lists of locales, rendered *)
Section LocaleLists.

Implicit Types (l : list string) (x s : string).

Lemma indexNat_commaFree_app x rest :
  commaFree x → strings.indexNat (x +:+ ", " +:+ rest) ", " = Some (String.length x).
Proof.
  unfold commaFree. induction x as [|c x IH]; simpl; [done|].
  pose proof (CountString_nonneg x ","). destruct (Ascii.eqb_spec c ","); [lia|].
  intros Hx. simpl in IH. by rewrite IH by lia.
Qed.

Lemma indexNat_commaFree x : commaFree x → strings.indexNat x ", " = None.
Proof.
  unfold commaFree. induction x as [|c x IH]; simpl; [done|].
  pose proof (CountString_nonneg x ","). destruct (Ascii.eqb_spec c ","); [lia|].
  intros Hx. by rewrite IH by lia.
Qed.

Lemma Join_cons x y l sep :
  gostrings.Join (x :: y :: l) sep = x +:+ sep +:+ gostrings.Join (y :: l) sep.
Proof.
  unfold gostrings.Join. destruct l; cbn [gostrings.joinLoop]; [|done].
  by rewrite append_nil_r.
Qed.

Lemma splitLoop_Join l x n :
  Forall commaFree (x :: l) → (length l ≤ n)%nat →
  strings.splitLoop n (gostrings.Join (x :: l) ", ") ", " 0 = x :: l.
Proof.
  revert x n. induction l as [|y l IH]; intros x n Hall Hn.
  - apply Forall_cons in Hall as [Hx _]. unfold gostrings.Join.
    destruct n; cbn [strings.splitLoop]; [done|]. by rewrite indexNat_commaFree.
  - apply Forall_cons in Hall as [Hx Hall]. rewrite Join_cons.
    destruct n as [|n]; [simpl in Hn; lia|]. cbn [strings.splitLoop].
    rewrite indexNat_commaFree_app by done.
    rewrite Nat.add_0_r, str_take_app.
    rewrite str_drop_add, str_drop_app. cbn [String.length str_drop String.append].
    rewrite IH; [done..|]. simpl in Hn. lia.
Qed.

Lemma countLoop_Join l x fuel n :
  Forall commaFree (x :: l) →
  (String.length (gostrings.Join (x :: l) ", ") ≤ fuel)%nat →
  strings.countLoop fuel (gostrings.Join (x :: l) ", ") ", " n = n + Z.of_nat (length l).
Proof.
  revert x fuel n. induction l as [|y l IH]; intros x fuel n Hall Hfuel.
  - apply Forall_cons in Hall as [Hx _]. unfold gostrings.Join.
    destruct fuel; cbn [strings.countLoop]; [simpl; lia|].
    rewrite indexNat_commaFree by done. simpl. lia.
  - apply Forall_cons in Hall as [Hx Hall]. rewrite Join_cons in *.
    rewrite !length_append in Hfuel. cbn [String.length] in Hfuel.
    destruct fuel as [|fuel]; [lia|]. cbn [strings.countLoop].
    rewrite indexNat_commaFree_app by done.
    rewrite str_drop_add, str_drop_app. cbn [String.length str_drop String.append].
    rewrite IH; [|done|lia]. cbn [length]. lia.
Qed.

Lemma length_Join_ge l x :
  (length l ≤ String.length (gostrings.Join (x :: l) ", "))%nat.
Proof.
  revert x. induction l as [|y l IH]; intros x; [simpl; lia|].
  rewrite Join_cons, !length_append. specialize (IH y). simpl in *. lia.
Qed.

(** Splitting a joined list of texts without commas gives the list back. *)
Lemma Split_Join l :
  l ≠ [] → Forall commaFree l →
  strings.Split (gostrings.Join l ", ") ", " = l.
Proof.
  destruct l as [|x l]; [done|]. intros _ Hall.
  unfold strings.Split, strings.genSplit. cbn [Z.eqb Z.ltb Z.compare].
  unfold strings.Count. rewrite countLoop_Join by done.
  pose proof (length_Join_ge l x). unfold len.
  destruct (Z.ltb_spec (Z.of_nat (String.length (gostrings.Join (x :: l) ", ")) + 1)
              (0 + Z.of_nat (length l) + 1));
    apply splitLoop_Join; try done; lia.
Qed.

(** X17. [MissingLocalesString] and [OutdatedLocalesString] render an
    empty list as [-]; a list that is not empty and whose locales hold
    no comma is rendered so that splitting the text at [", "] gives the
    list back. *)
Theorem LocalesString_round_trip (res : stringResource) :
  (MissingLocales res = [] → MissingLocalesString res = "-")
  ∧ (OutdatedLocales res = [] → OutdatedLocalesString res = "-")
  ∧ (MissingLocales res ≠ [] → Forall commaFree (MissingLocales res) →
       strings.Split (MissingLocalesString res) ", " = MissingLocales res)
  ∧ (OutdatedLocales res ≠ [] → Forall commaFree (OutdatedLocales res) →
       strings.Split (OutdatedLocalesString res) ", " = OutdatedLocales res).
Proof.
  unfold MissingLocalesString, OutdatedLocalesString. split_and!.
  - by intros ->.
  - by intros ->.
  - intros Hne Hall. destruct (MissingLocales res) eqn:Hm; [done|].
    by apply Split_Join.
  - intros Hne Hall. destruct (OutdatedLocales res) eqn:Ho; [done|].
    by apply Split_Join.
Qed.

End LocaleLists.

(** *** The locator *)
Section LocatorFacts.
Context `{!Env} `{!Locator}.

Lemma fsNode_nested_ind (P : fsNode → Prop) :
  (∀ name, P (fsFile name)) →
  (∀ name, P (fsDir name None)) →
  (∀ name files, Forall P files → P (fsDir name (Some files))) →
  ∀ file, P file.
Proof.
  intros Hfile Hnone Hsome.
  fix IH 1. intros [name|name [files|]]; [apply Hfile| |apply Hnone].
  apply Hsome. induction files as [|f files IHfiles]; constructor; [apply IH | done].
Qed.

Lemma visitEntry_eq path file :
  visitEntry path file
  = let filePath := filepath_Join path (fsName file) in
    if isGitIgnored path filePath then inr []
    else match file with
         | fsDir _ None => inl (errReadDir filePath)
         | fsDir _ (Some files) => entriesLoop filePath files []
         | fsFile _ => if isValuesFile filePath then inr [filePath] else inr []
         end.
Proof.
  destruct file as [name|name [files|]]; cbn -[isGitIgnored isValuesFile];
    destruct (isGitIgnored _ _); try done.
  generalize (@nil string). induction files as [|f files IH]; intros acc; [done|].
  cbn -[isGitIgnored isValuesFile visitEntry].
  destruct (visitEntry (filepath_Join path name) f); [done | apply IH].
Qed.

Lemma entriesLoop_acc path files acc :
  entriesLoop path files acc
  = match entriesLoop path files [] with
    | inl e => inl e
    | inr l => inr (acc ++ l)
    end.
Proof.
  revert acc. induction files as [|f files IH]; intros acc; simpl.
  - by rewrite app_nil_r.
  - destruct (visitEntry path f) as [e|more]; [done|].
    rewrite (IH (acc ++ more)), (IH more).
    destruct (entriesLoop path files []); [done|]. by rewrite app_assoc.
Qed.

Lemma entriesLoop_cons path f files :
  entriesLoop path (f :: files) []
  = match visitEntry path f with
    | inl e => inl e
    | inr more =>
        match entriesLoop path files [] with
        | inl e => inl e
        | inr l => inr (more ++ l)
        end
    end.
Proof.
  cbn [entriesLoop]. destruct (visitEntry path f) as [e|more]; [done|].
  by rewrite entriesLoop_acc.
Qed.

Lemma reaches_cons path f files p :
  reaches path (f :: files) p ↔ reaches path [f] p ∨ reaches path files p.
Proof.
  split.
  - intros Hr. inversion Hr as [? ? name Hin Hig|? ? name sub ? Hin Hig Hsub]; subst.
    + apply elem_of_cons in Hin as [<-|Hin].
      * left. apply reaches_file; [by left | done].
      * right. by apply reaches_file.
    + apply elem_of_cons in Hin as [<-|Hin].
      * left. eapply reaches_dir; [by left | done..].
      * right. by eapply reaches_dir.
  - intros [Hr|Hr];
      inversion Hr as [? ? name Hin Hig|? ? name sub ? Hin Hig Hsub]; subst.
    + apply list_elem_of_singleton in Hin as <-. apply reaches_file; [by left | done].
    + apply list_elem_of_singleton in Hin as <-. eapply reaches_dir; [by left | done..].
    + apply reaches_file; [by right | done].
    + eapply reaches_dir; [by right | done..].
Qed.

Lemma reachesUnreadable_cons path f files p :
  reachesUnreadable path (f :: files) p
  ↔ reachesUnreadable path [f] p ∨ reachesUnreadable path files p.
Proof.
  split.
  - intros Hr. inversion Hr as [? ? name Hin Hig|? ? name sub ? Hin Hig Hsub]; subst.
    + apply elem_of_cons in Hin as [<-|Hin].
      * left. apply unreadable_here; [by left | done].
      * right. by apply unreadable_here.
    + apply elem_of_cons in Hin as [<-|Hin].
      * left. eapply unreadable_below; [by left | done..].
      * right. by eapply unreadable_below.
  - intros [Hr|Hr];
      inversion Hr as [? ? name Hin Hig|? ? name sub ? Hin Hig Hsub]; subst.
    + apply list_elem_of_singleton in Hin as <-.
      apply unreadable_here; [by left | done].
    + apply list_elem_of_singleton in Hin as <-.
      eapply unreadable_below; [by left | done..].
    + apply unreadable_here; [by right | done].
    + eapply unreadable_below; [by right | done..].
Qed.

Lemma reaches_nil path p : ¬ reaches path [] p.
Proof. inversion 1 as [? ? ? Hin|? ? ? ? ? Hin]; by apply elem_of_nil in Hin. Qed.

Lemma reachesUnreadable_nil path p : ¬ reachesUnreadable path [] p.
Proof. inversion 1 as [? ? ? Hin|? ? ? ? ? Hin]; by apply elem_of_nil in Hin. Qed.

Lemma entriesLoop_finds files :
  Forall turnFinds files →
  ∀ path l, entriesLoop path files [] = inr l →
    ∀ p, p ∈ l ↔ reaches path files p ∧ isValuesFile p = true.
Proof.
  induction 1 as [|f files Hf Hfiles IH]; intros path l.
  - intros [= <-] p. split; [by intros ?%elem_of_nil | by intros [?%reaches_nil _]].
  - rewrite entriesLoop_cons.
    destruct (visitEntry path f) as [e|more] eqn:Hv; [done|].
    destruct (entriesLoop path files []) as [e|l'] eqn:Hl; [done|].
    intros [= <-] p. rewrite elem_of_app, reaches_cons.
    rewrite (Hf path more Hv p), (IH path l' Hl p). tauto.
Qed.

Lemma visitEntry_finds file : turnFinds file.
Proof.
  induction file as [name|name|name files IH] using fsNode_nested_ind;
    intros path l; rewrite visitEntry_eq; cbn [fsName];
    destruct (isGitIgnored path (filepath_Join path name)) eqn:Hig.
  - intros [= <-] p. split; [by intros ?%elem_of_nil|].
    intros [Hr _]. inversion Hr as [? ? n Hin Hig'|? ? n sub ? Hin]; subst;
      apply list_elem_of_singleton in Hin; simplify_eq. congruence.
  - destruct (isValuesFile (filepath_Join path name)) eqn:Hv; intros [= <-] p.
    + rewrite list_elem_of_singleton. split.
      * intros ->. split; [|done]. apply reaches_file; [by left | done].
      * intros [Hr _]. inversion Hr as [? ? n Hin Hig'|? ? n sub ? Hin]; subst;
          apply list_elem_of_singleton in Hin; by simplify_eq.
    + split; [by intros ?%elem_of_nil|].
      intros [Hr Hp]. inversion Hr as [? ? n Hin Hig'|? ? n sub ? Hin]; subst;
        apply list_elem_of_singleton in Hin; simplify_eq. congruence.
  - intros [= <-] p. split; [by intros ?%elem_of_nil|].
    intros [Hr _]. inversion Hr as [? ? n Hin Hig'|? ? n sub ? Hin]; subst;
      apply list_elem_of_singleton in Hin; by simplify_eq.
  - done.
  - intros [= <-] p. split; [by intros ?%elem_of_nil|].
    intros [Hr _]. inversion Hr as [? ? n Hin Hig'|? ? n sub ? Hin Hig']; subst;
      apply list_elem_of_singleton in Hin; simplify_eq. congruence.
  - intros Hl p. rewrite (entriesLoop_finds files IH _ _ Hl p). split.
    + intros [Hr Hp]. split; [|done]. eapply reaches_dir; [by left | done..].
    + intros [Hr Hp]. split; [|done].
      inversion Hr as [? ? n Hin Hig'|? ? n sub ? Hin Hig' Hsub]; subst;
        apply list_elem_of_singleton in Hin; by simplify_eq.
Qed.

(** X18. The paths that [findValuesFiles] returns are exactly those of
    the files below the root that [isValuesFile] accepts and that the
    walk reaches: neither such a file nor a directory on the way to it
    is ignored by git. *)
Theorem findValuesFiles_found path files valuesFiles :
  findValuesFiles path (Some files) = inr valuesFiles →
  ∀ p, p ∈ valuesFiles ↔ reaches path files p ∧ isValuesFile p = true.
Proof.
  unfold findValuesFiles. apply entriesLoop_finds.
  apply Forall_forall. intros f _. apply visitEntry_finds.
Qed.

Lemma entriesLoop_fails files :
  Forall turnFails files →
  ∀ path,
    (∀ e, entriesLoop path files [] = inl e →
       ∃ p, e = errReadDir p ∧ reachesUnreadable path files p)
    ∧ ((∃ p, reachesUnreadable path files p) →
         ∃ e, entriesLoop path files [] = inl e).
Proof.
  induction 1 as [|f files Hf Hfiles IH]; intros path.
  - split; [done|]. by intros [p ?%reachesUnreadable_nil].
  - rewrite entriesLoop_cons. destruct (Hf path) as [Hf1 Hf2].
    destruct (IH path) as [IH1 IH2]. split.
    + intros e. destruct (visitEntry path f) as [e'|more].
      * intros [= <-]. destruct (Hf1 e' eq_refl) as (p & -> & Hp).
        exists p. split; [done|]. apply reachesUnreadable_cons. by left.
      * destruct (entriesLoop path files []) as [e'|l]; [|done].
        intros [= <-]. destruct (IH1 e' eq_refl) as (p & -> & Hp).
        exists p. split; [done|]. apply reachesUnreadable_cons. by right.
    + intros [p [Hp|Hp]%reachesUnreadable_cons].
      * destruct Hf2 as [e ->]; eauto.
      * destruct (visitEntry path f); [eauto|]. destruct IH2 as [e ->]; eauto.
Qed.

Lemma visitEntry_fails file : turnFails file.
Proof.
  induction file as [name|name|name files IH] using fsNode_nested_ind;
    intros path; rewrite visitEntry_eq; cbn [fsName];
    destruct (isGitIgnored path (filepath_Join path name)) eqn:Hig.
  - split; [done|]. intros [p Hr].
    inversion Hr as [? ? n Hin Hig'|? ? n sub ? Hin]; subst;
      apply list_elem_of_singleton in Hin; by simplify_eq.
  - split; [by destruct (isValuesFile _)|]. intros [p Hr].
    inversion Hr as [? ? n Hin Hig'|? ? n sub ? Hin]; subst;
      apply list_elem_of_singleton in Hin; by simplify_eq.
  - split; [done|]. intros [p Hr].
    inversion Hr as [? ? n Hin Hig'|? ? n sub ? Hin]; subst;
      apply list_elem_of_singleton in Hin; simplify_eq. congruence.
  - split; [|eauto]. intros e [= <-]. eexists. split; [done|].
    apply unreadable_here; [by left | done].
  - split; [done|]. intros [p Hr].
    inversion Hr as [? ? n Hin Hig'|? ? n sub ? Hin Hig']; subst;
      apply list_elem_of_singleton in Hin; simplify_eq. congruence.
  - destruct (entriesLoop_fails files IH (filepath_Join path name)) as [H1 H2].
    split.
    + intros e He. destruct (H1 e He) as (p & -> & Hp). exists p. split; [done|].
      eapply unreadable_below; [by left | done..].
    + intros [p Hr]. apply H2. exists p.
      inversion Hr as [? ? n Hin Hig'|? ? n sub ? Hin Hig' Hsub]; subst;
        apply list_elem_of_singleton in Hin; by simplify_eq.
Qed.

(** X19. [findValuesFiles] fails exactly when the walk reaches a
    directory that cannot be read (the root, or a directory below it that
    git does not ignore, in directories that git does not ignore), and
    then with the error of such a directory; a directory that git
    ignores is not read. *)
Theorem findValuesFiles_unreadable path files :
  findValuesFiles path None = inl (errReadDir path)
  ∧ (∀ e, findValuesFiles path (Some files) = inl e →
       ∃ p, e = errReadDir p ∧ reachesUnreadable path files p)
  ∧ ((∃ p, reachesUnreadable path files p) →
       ∃ e, findValuesFiles path (Some files) = inl e).
Proof.
  split; [done|]. unfold findValuesFiles. apply entriesLoop_fails.
  apply Forall_forall. intros f _. apply visitEntry_fails.
Qed.

End LocatorFacts.

(** *** The extension of a catalog *)
Section Extension.
Context `{!Env}.

Lemma extLoop_suffix path n :
  extLoop path n = "" ∨ ∃ i, extLoop path n = str_drop i path.
Proof.
  induction n as [|i IH]; simpl; [by left|].
  destruct (String.get i path) as [c|]; [|by left].
  destruct (Ascii.eqb c "/"); [by left|].
  destruct (Ascii.eqb c "."); [right; by exists i | done].
Qed.

Lemma isASCII_drop i s : isASCII s → isASCII (str_drop i s).
Proof.
  revert s. induction i as [|i IH]; intros s; simpl; [done|].
  destruct s as [|c s]; [done|]. intros [_ Hs]. by apply IH.
Qed.

(** X20. A file that [isValuesFile] accepts, and whose path is written
    in ASCII, has a path that ends in [.xml], in any case of these
    letters. *)
Theorem isValuesFile_extension (path : string) :
  isValuesFile path = true → isASCII path →
  ∃ stem ext, path = stem +:+ ext ∧ lowerASCII ext = ".xml".
Proof.
  unfold isValuesFile. destruct (String.eqb _ _); [done|].
  intros [_ Hfold]%andb_prop Hascii. unfold filepath_Ext in Hfold.
  destruct (extLoop_suffix path (String.length path)) as [Hext|[i Hext]];
    rewrite Hext in Hfold; [done|].
  exists (str_take i path), (str_drop i path).
  split; [by rewrite str_take_drop|].
  apply EqualFold_ASCII in Hfold; [done|by repeat split|by apply isASCII_drop].
Qed.

End Extension.

(** ** Instances of the further properties, on the small project *)

Lemma getLineRange_span_in_file_witness :
  getLineRange Demo.defaultContent "Green" = inr (7, 1)
  ∧ 1 ≤ 7 ∧ 1 ≤ 1 ∧ 7 + 1 - 1 ≤ 1 + newlines Demo.defaultContent.
Proof.
  assert (getLineRange Demo.defaultContent "Green" = inr (7, 1)) as Hrun
    by reflexivity.
  split; [exact Hrun|].
  exact (getLineRange_span_in_file Demo.defaultContent "Green" 7 1 Hrun).
Defined.

Lemma getLastModifiedTime_latest_witness :
  @sh Demo2.env (@Dir Demo2.env Demo.defaultFile)
    (@blameCommand Demo2.env Demo.defaultFile 2 1)
  = Some (Demo.lines ["1600000000"; "1600000700"; "1500000000"; ""])
  ∧ ∃ m, @getLastModifiedTime Demo2.env Demo.defaultFile 2 1 = inr (time.Unix m 0)
         ∧ 0 ≤ m
         ∧ (∀ ts, ts ∈ [1600000000; 1600000700; 1500000000] → ts ≤ m)
         ∧ (m = 0 ∨ m ∈ [1600000000; 1600000700; 1500000000]).
Proof.
  assert (@sh Demo2.env (@Dir Demo2.env Demo.defaultFile)
            (@blameCommand Demo2.env Demo.defaultFile 2 1)
          = Some (Demo.lines ["1600000000"; "1600000700"; "1500000000"; ""])) as Hsh
    by reflexivity.
  assert (Forall2 (λ l ts, strconv.ParseInt10 l = inr ts)
            (strings.Split
               (@TrimSpace Demo2.env
                  (Demo.lines ["1600000000"; "1600000700"; "1500000000"; ""]))
               (String newline EmptyString))
            [1600000000; 1600000700; 1500000000]) as Hall.
  { match goal with
    | |- Forall2 _ ?l _ => let l' := eval vm_compute in l in change l with l'
    end.
    repeat (constructor; [vm_compute; reflexivity|]). constructor. }
  split; [exact Hsh|].
  exact (@getLastModifiedTime_latest Demo2.env Demo.defaultFile 2 1 _ _ Hsh Hall).
Defined.

Lemma getLastModifiedTime_no_output_witness :
  @sh Demo2.env (@Dir Demo2.env Demo.defaultFile)
    (@blameCommand Demo2.env Demo.defaultFile 3 1)
  = Some (String newline EmptyString)
  ∧ @TrimSpace Demo2.env (String newline EmptyString) = ""
  ∧ @getLastModifiedTime Demo2.env Demo.defaultFile 3 1
    = inl (errLastModified Demo.defaultFile 3 1 (BadTimestamp strconv.ErrSyntax "")).
Proof.
  assert (@sh Demo2.env (@Dir Demo2.env Demo.defaultFile)
            (@blameCommand Demo2.env Demo.defaultFile 3 1)
          = Some (String newline EmptyString)) as Hsh by reflexivity.
  assert (@TrimSpace Demo2.env (String newline EmptyString) = "") as Htrim
    by reflexivity.
  split; [exact Hsh|]. split; [exact Htrim|].
  exact (@getLastModifiedTime_no_output Demo2.env Demo.defaultFile 3 1 _ Hsh Htrim).
Defined.

Lemma demo_files_readable :
  ∀ file, file ∈ Demo.files →
    ∃ content resources,
      ReadFile file = Some content ∧ Unmarshal content = Some resources.
Proof.
  intros file Hin. unfold Demo.files in Hin.
  repeat (apply elem_of_cons in Hin as [->|Hin]);
    [do 2 eexists; split; vm_compute; reflexivity..|].
  by apply elem_of_nil in Hin.
Defined.

Lemma provenance_failure_recovered_witness :
  (∀ file, file ∈ Demo.files →
     ∃ content resources,
       ReadFile file = Some content ∧ Unmarshal content = Some resources)
  ∧ provenance Demo.deFile Demo.deContent "Rot"
    = inl (errLastModified Demo.deFile 4 1 RunFailed)
  ∧ ∃ strResources w' ws,
      findTranslatableStrings Demo.files Demo.world0 = (inr strResources, w')
      ∧ stderr w' = stderr Demo.world0 ++ ws
      ∧ errLastModified Demo.deFile 4 1 RunFailed ∈ ws
      ∧ ∃ n, ws !! n = Some (errLastModified Demo.deFile 4 1 RunFailed)
             ∧ lookupEntry strResources "de" "colors[0]"
               = Some {| Name := "colors[0]"; Value := "Rot";
                         LastModified := clock (ticks Demo.world0 + n);
                         str_xmlTranslatable := {| Translatable := "" |} |}.
Proof.
  assert (provenance Demo.deFile Demo.deContent "Rot"
          = inl (errLastModified Demo.deFile 4 1 RunFailed)) as Hp
    by (vm_compute; reflexivity).
  split; [exact demo_files_readable|]. split; [exact Hp|].
  destruct provenance_failure_recovered as (_ & _ & _ & _ & _ & Hrun).
  destruct (Hrun Demo.files Demo.world0 demo_files_readable)
    as (index & w' & ws & Hr & Hs & _ & Hin & _ & Hone).
  exists index, w', ws. split; [exact Hr|]. split; [exact Hs|].
  set (el := withName (Demo.parsed "" "Rot" "")
               (itemName (Demo.parsedArray "colors" ["Rot"]) 0)).
  assert (element Demo.files Demo.deFile Demo.deContent el) as Hel.
  { apply (element_item Demo.files Demo.deFile Demo.deContent Demo.deResources
             (Demo.parsedArray "colors" ["Rot"]) 0 (Demo.parsed "" "Rot" "")).
    - unfold Demo.files. do 2 apply list_elem_of_further. apply list_elem_of_here.
    - vm_compute. reflexivity.
    - vm_compute. reflexivity.
    - apply list_elem_of_here.
    - vm_compute. reflexivity.
    - reflexivity. }
  split; [exact (proj2 (Hin _ _ _ Hel) _ Hp)|].
  apply (Hone Demo.deFile Demo.deContent el _ Hel Hp).
  intros file' content' el' Hel' Hloc Hname.
  destruct Hel' as [f c r str Hf Hr' Hu Hstr Htr|f c r strArr i item Hf Hr' Hu Harr Htr Hi];
    unfold Demo.files in Hf;
    repeat (apply elem_of_cons in Hf as [->|Hf]);
    try (by apply elem_of_nil in Hf);
    try (vm_compute in Hloc; discriminate);
    change (Some Demo.deContent = Some c) in Hr'; injection Hr' as <-;
    change (Some Demo.deResources = Some r) in Hu; injection Hu as <-.
  - apply list_elem_of_singleton in Hstr as ->. vm_compute in Hname. discriminate.
  - apply list_elem_of_singleton in Harr as ->.
    destruct i as [|i]; [|destruct i; discriminate].
    injection Hi as <-. split; reflexivity.
Defined.

Lemma findTranslatableStrings_first_failure_witness :
  (∀ file, file ∈ Demo.files →
     ∃ content resources,
       ReadFile file = Some content ∧ Unmarshal content = Some resources)
  ∧ ReadFile "res/values-it/strings.xml" = None
  ∧ ∃ strResources w',
      findTranslatableStrings Demo.files Demo.world0 = (inr strResources, w')
      ∧ findTranslatableStrings
          (Demo.files ++ ["res/values-it/strings.xml"; Demo.frFile]) Demo.world0
        = (inl (errReadFile "res/values-it/strings.xml"), w').
Proof.
  split; [exact demo_files_readable|]. split; [reflexivity|].
  exact (findTranslatableStrings_first_failure Demo.files "res/values-it/strings.xml"
           [Demo.frFile] Demo.world0 demo_files_readable (or_introl eq_refl)).
Defined.

Lemma demo_run :
  findTranslatableStrings Demo.files Demo.world0
  = (inr Demo.index,
     {| stderr := [errLastModified Demo.deFile 4 1 RunFailed]; ticks := 1 |}).
Proof. vm_compute. reflexivity. Defined.

Lemma findTranslatableStrings_locales_witness :
  findTranslatableStrings Demo.files Demo.world0
  = (inr Demo.index,
     {| stderr := [errLastModified Demo.deFile 4 1 RunFailed]; ticks := 1 |})
  ∧ (is_Some (Demo.index !! "fr")
     ↔ ∃ file, file ∈ Demo.files ∧ hasElements file "fr").
Proof.
  split; [exact demo_run|].
  exact (findTranslatableStrings_locales _ _ _ _ demo_run "fr").
Defined.

Lemma findTranslatableStrings_names_witness :
  findTranslatableStrings Demo.files Demo.world0
  = (inr Demo.index,
     {| stderr := [errLastModified Demo.deFile 4 1 RunFailed]; ticks := 1 |})
  ∧ (is_Some (lookupEntry Demo.index "de" "colors[0]")
     ↔ ∃ e, fromCatalog Demo.files "de" "colors[0]" e).
Proof.
  split; [exact demo_run|].
  exact (findTranslatableStrings_names _ _ _ _ demo_run "de" "colors[0]").
Defined.

Lemma findTranslatableStrings_warns_per_clock_witness :
  findTranslatableStrings Demo.files Demo.world0
  = (inr Demo.index,
     {| stderr := [errLastModified Demo.deFile 4 1 RunFailed]; ticks := 1 |})
  ∧ ∃ ws,
      [errLastModified Demo.deFile 4 1 RunFailed] = [] ++ ws
      ∧ 1%nat = (0 + length ws)%nat.
Proof.
  split; [exact demo_run|].
  exact (findTranslatableStrings_warns_per_clock _ _ _ _ demo_run).
Defined.

Lemma demo_default : Demo.index !! defaultLocale = Some Demo.defaultStrings.
Proof. vm_compute. reflexivity. Defined.

Lemma demo_keyed : keyedByName Demo.defaultStrings.
Proof.
  exact (findTranslatableStrings_keyed _ _ _ _ _ _ demo_run demo_default).
Defined.

Lemma demo_walk1_valid : valid_schedule Demo.index Demo.defaultStrings Demo.walk1.
Proof.
  split; [reflexivity|]. intros k. apply (bool_decide_unpack _). vm_compute. exact I.
Defined.

Lemma demo_walk3_valid : valid_schedule Demo.index Demo.defaultStrings Demo2.walk3.
Proof.
  split; [apply reverse_Permutation|].
  intros k. apply (bool_decide_unpack _). vm_compute. exact I.
Defined.

Lemma demo_report :
  mainReport Demo.index Demo.walk1
  = inr [ Demo.record "app_name" "Demo" ["de"; "fr"] [];
          Demo.record "colors[1]" "Green" ["de"] [];
          Demo.record "title" "Welcome" [] ["fr"] ].
Proof. vm_compute. reflexivity. Defined.

Lemma mainReport_default_not_flagged_witness :
  Demo.index !! defaultLocale = Some Demo.defaultStrings
  ∧ keyedByName Demo.defaultStrings
  ∧ valid_schedule Demo.index Demo.defaultStrings Demo.walk1
  ∧ ∀ r, r ∈ [ Demo.record "app_name" "Demo" ["de"; "fr"] [];
               Demo.record "colors[1]" "Green" ["de"] [];
               Demo.record "title" "Welcome" [] ["fr"] ] →
      (defaultLocale ∉ MissingLocales r) ∧ (defaultLocale ∉ OutdatedLocales r).
Proof.
  split; [exact demo_default|]. split; [exact demo_keyed|].
  split; [exact demo_walk1_valid|].
  exact (mainReport_default_not_flagged _ _ _ _ demo_default demo_keyed
           demo_walk1_valid demo_report).
Defined.

Lemma mainReport_empty_iff_witness :
  Demo.index !! defaultLocale = Some Demo.defaultStrings
  ∧ valid_schedule Demo.index Demo.defaultStrings Demo.walk1
  ∧ (mainReport Demo.index Demo.walk1 = inr []
     ↔ ∀ k str, Demo.defaultStrings !! k = Some str →
         ∀ locale entries, Demo.index !! locale = Some entries →
           ∃ localeStr, entries !! Name str = Some localeStr
                        ∧ LastModified str ≤ LastModified localeStr).
Proof.
  split; [exact demo_default|]. split; [exact demo_walk1_valid|].
  exact (mainReport_empty_iff _ _ _ demo_default demo_walk1_valid).
Defined.

Lemma mainReport_outer_order_witness :
  Demo.index !! defaultLocale = Some Demo.defaultStrings
  ∧ keyedByName Demo.defaultStrings
  ∧ valid_schedule Demo.index Demo.defaultStrings Demo.walk1
  ∧ valid_schedule Demo.index Demo.defaultStrings Demo2.walk3
  ∧ outer Demo.walk1 ≠ outer Demo2.walk3
  ∧ mainReport Demo.index Demo.walk1 = mainReport Demo.index Demo2.walk3.
Proof.
  split; [exact demo_default|]. split; [exact demo_keyed|].
  split; [exact demo_walk1_valid|]. split; [exact demo_walk3_valid|].
  split; [vm_compute; discriminate|].
  exact (mainReport_outer_order _ _ _ _ demo_default demo_keyed demo_walk1_valid
           demo_walk3_valid (λ _, eq_refl)).
Defined.

Lemma mainReport_one_record_per_entry_witness :
  Demo.index !! defaultLocale = Some Demo.defaultStrings
  ∧ keyedByName Demo.defaultStrings
  ∧ valid_schedule Demo.index Demo.defaultStrings Demo.walk1
  ∧ NoDup ["app_name"; "colors[1]"; "title"]
  ∧ (3 ≤ size Demo.defaultStrings)%nat.
Proof.
  split; [exact demo_default|]. split; [exact demo_keyed|].
  split; [exact demo_walk1_valid|].
  destruct (mainReport_one_record_per_entry _ _ _ _ demo_default demo_keyed
              demo_walk1_valid demo_report) as (Hnd & _ & Hlen).
  split; [exact Hnd | exact Hlen].
Defined.

Lemma mainFrom_default_locale_witness :
  (∀ file, file ∈ Demo.files →
     ∃ content resources,
       ReadFile file = Some content ∧ Unmarshal content = Some resources)
  ∧ (∃ file, file ∈ Demo.files ∧ hasElements file defaultLocale)
  ∧ ∃ report w', mainFrom Demo.files (λ _, Demo.walk1) Demo.world0 = (inr report, w').
Proof.
  assert (∃ file, file ∈ Demo.files ∧ hasElements file defaultLocale) as Hdef.
  { exists Demo.defaultFile. split; [by left|].
    exists Demo.defaultContent, Demo.defaultResources.
    split_and!; [reflexivity..|]. vm_compute. lia. }
  split; [exact demo_files_readable|]. split; [exact Hdef|].
  exact (proj1 (mainFrom_default_locale Demo.files (λ _, Demo.walk1) Demo.world0
                  demo_files_readable) Hdef).
Defined.

Lemma isValuesFile_locale_witness :
  isValuesFile "res/values-zh-rCN/strings.xml" = true
  ∧ first_occurrence "-" "values-zh-rCN" "values" "zh-rCN"
  ∧ getLocaleForValuesFile "res/values-zh-rCN/strings.xml" = "zh-rCN".
Proof.
  assert (isValuesFile "res/values-zh-rCN/strings.xml" = true) as Hv by reflexivity.
  assert (first_occurrence "-" "values-zh-rCN" "values" "zh-rCN") as Hfirst
    by exact (proj1 (indexNat_Some "values-zh-rCN" "-" 6 eq_refl)).
  split; [exact Hv|]. split; [exact Hfirst|].
  destruct (isValuesFile_locale "res/values-zh-rCN/strings.xml" Hv)
    as (_ & _ & Hloc & _).
  exact (Hloc "values" "zh-rCN" Hfirst).
Defined.

Lemma IsTranslatable_ASCII_witness :
  isASCII "FALSE"
  ∧ (IsTranslatable {| Translatable := "FALSE" |} = false
     ↔ lowerASCII "FALSE" = "false").
Proof.
  assert (isASCII "FALSE") as Hascii by (by repeat split).
  split; [exact Hascii|].
  exact (IsTranslatable_ASCII {| Translatable := "FALSE" |} Hascii).
Defined.

Lemma findValuesFiles_found_witness :
  @findValuesFiles Demo.env Demo2.locator "." (Some Demo2.tree)
  = inr ["res/values/strings.xml"; "res/values-de/strings.xml";
         "res/values-fr/strings.XML"]
  ∧ ∀ p, p ∈ ["res/values/strings.xml"; "res/values-de/strings.xml";
              "res/values-fr/strings.XML"]
         ↔ @reaches Demo2.locator "." Demo2.tree p ∧ isValuesFile p = true.
Proof.
  assert (@findValuesFiles Demo.env Demo2.locator "." (Some Demo2.tree)
          = inr ["res/values/strings.xml"; "res/values-de/strings.xml";
                 "res/values-fr/strings.XML"]) as Hrun by reflexivity.
  split; [exact Hrun|].
  exact (@findValuesFiles_found Demo.env Demo2.locator "." Demo2.tree _ Hrun).
Defined.

Lemma isValuesFile_extension_witness :
  isValuesFile "res/values-fr/strings.XML" = true
  ∧ isASCII "res/values-fr/strings.XML"
  ∧ ∃ stem ext, "res/values-fr/strings.XML" = stem +:+ ext ∧ lowerASCII ext = ".xml".
Proof.
  assert (isValuesFile "res/values-fr/strings.XML" = true) as Hv by reflexivity.
  assert (isASCII "res/values-fr/strings.XML") as Hascii by (by repeat split).
  split; [exact Hv|]. split; [exact Hascii|].
  exact (isValuesFile_extension "res/values-fr/strings.XML" Hv Hascii).
Defined.
